(** * project2tree: the code summarizer and the tree visualizer

    A shallow embedding of [code_summarizer.py] and [tree_visualizer.py].

    - Python [str] values are sequences of Unicode code points ([list N]).
    - The POSIX flavour of [os.path] is modelled ([os.sep] is [/]).
    - A [dict] whose iteration order is observable is an association list
      kept in insertion order; a [set] is a [gset].
    - Effects of the summarizer (file reads, API requests, sleeps, log
      records, the [summaries] accumulator) are threaded through an explicit
      [world], with the exceptions that can leave a method ([ValueError]
      from [os.path.relpath], [ValueError], [OverflowError] or [OSError]
      from [time.sleep], [TypeError] in the tree builder); the visualizer
      threads the file store and standard output, with the
      [UnicodeEncodeError] of a write or a [print] that UTF-8 cannot
      encode. *)

From Stdlib Require Import ZArith NArith List Ascii String Bool Lia Permutation.
From stdpp Require Import gmap list.
Import ListNotations.

Set Warnings "-register-all".

Local Open Scope list_scope.

(** ** Python strings *)

Module Py.

Abbreviation char := N (only parsing).
Abbreviation str := (list N) (only parsing).

(** An ASCII literal as a Python string. *)
Definition lit (s : string) : str :=
  List.map N_of_ascii (list_ascii_of_string s).

Definition LF : char := 10%N.
Definition SPACE : char := 32%N.
Definition SLASH : char := 47%N.
Definition DOT : char := 46%N.
Definition HASH : char := 35%N.

Definition str_eqb (a b : str) : bool := bool_decide (a = b).

(** [str.isspace] on one code point: the code points of the Unicode
    database with the White_Space property or a bidirectional class of
    WS, B or S. *)
Definition isspace (c : char) : bool :=
  ((9 <=? c) && (c <=? 13) || (28 <=? c) && (c <=? 32)
   || (c =? 133) || (c =? 160) || (c =? 5760)
   || (8192 <=? c) && (c <=? 8202)
   || (c =? 8232) || (c =? 8233) || (c =? 8239) || (c =? 8287)
   || (c =? 12288))%N.

(** [s.lstrip()], [s.rstrip()], [s.strip()] *)
Fixpoint lstrip (s : str) : str :=
  match s with
  | c :: s' => if isspace c then lstrip s' else s
  | [] => []
  end.

Definition rstrip (s : str) : str := rev (lstrip (rev s)).

Definition strip (s : str) : str := rstrip (lstrip s).

(** [s.startswith(p)] and [s.endswith(p)] *)
Fixpoint startswith (s p : str) {struct p} : bool :=
  match p, s with
  | [], _ => true
  | _ :: _, [] => false
  | x :: p', y :: s' => (x =? y)%N && startswith s' p'
  end.

Definition endswith (s p : str) : bool := startswith (rev s) (rev p).

(** [s[:-1]] *)
Definition drop_last (s : str) : str := removelast s.

(** [s.replace(old, new)]: the occurrences of [old] are replaced from left
    to right without overlap; [skip] counts the characters of a replaced
    occurrence still to be passed over. *)
Fixpoint replace_from (old new : str) (skip : nat) (s : str) : str :=
  match s with
  | [] => []
  | c :: s' =>
      match skip with
      | S k => replace_from old new k s'
      | O =>
          if startswith s old
          then new ++ replace_from old new (length old - 1) s'
          else c :: replace_from old new 0 s'
      end
  end.

Definition replace (s old new : str) : str :=
  match old with
  | [] => new ++ flat_map (fun c => c :: new) s
  | _ :: _ => replace_from old new 0 s
  end.

(** [s.split(sep)] for a one-character separator such as [os.sep]. *)
Fixpoint split (sep : char) (s : str) : list str :=
  match s with
  | [] => [[]]
  | c :: s' =>
      if (c =? sep)%N then [] :: split sep s'
      else match split sep s' with
           | w :: ws => (c :: w) :: ws
           | [] => [[c]]
           end
  end.

(** [sep.join(parts)] *)
Fixpoint join (sep : str) (parts : list str) : str :=
  match parts with
  | [] => []
  | [p] => p
  | p :: ps => p ++ sep ++ join sep ps
  end.

(** [s.rfind(c)] for a one-character needle; [None] stands for [-1]. *)
Fixpoint rfind (c : char) (s : str) : option nat :=
  match s with
  | [] => None
  | x :: s' =>
      match rfind c s' with
      | Some i => Some (S i)
      | None => if (x =? c)%N then Some 0 else None
      end
  end.

(** Truthiness of a string: [if s:] *)
Definition truthy (s : str) : bool :=
  match s with [] => false | _ :: _ => true end.

(** [s.encode('utf-8')] does not raise: UTF-8 encodes every code point of
    a string but the surrogates, [U+D800] to [U+DFFF]. *)
Definition encodable_char (c : char) : bool :=
  ((c <? 55296) || (57343 <? c) && (c <=? 1114111))%N.
Definition encodable (s : str) : bool := forallb encodable_char s.

(** The outcome of a sequence of writes to a file opened with the UTF-8
    encoding: all were made and the file holds [file], or the write of
    [text] raised [UnicodeEncodeError] when [file] had been written. *)
Inductive written :=
| Done (file : str)
| Failed (file text : str).

(** [file.write(s)] on such a file: the text is encoded as a whole before
    any of it is written. *)
Definition write (file s : str) : written :=
  if encodable s then Done (file ++ s) else Failed file s.

(** [for chunk in chunks: file.write(chunk)] *)
Fixpoint write_all (file : str) (chunks : list str) : written :=
  match chunks with
  | [] => Done file
  | s :: chunks =>
      match write file s with
      | Done file => write_all file chunks
      | Failed file text => Failed file text
      end
  end.

End Py.

Import Py.

(** ** [posixpath] and [pathlib] *)

Module posixpath.

Definition sep : str := [SLASH].
Definition curdir : str := [DOT].
Definition pardir : str := [DOT; DOT].

Definition isabs (p : str) : bool := startswith p sep.

(** [os.path.join(a, b)] *)
Definition join2 (a b : str) : str :=
  if startswith b sep then b
  else if negb (truthy a) || endswith a sep then a ++ b
  else a ++ sep ++ b.

(** [os.path.join(a, *ps)] *)
Definition join (a : str) (ps : list str) : str := fold_left join2 ps a.

(** The component loop of [normpath]. *)
Fixpoint normpath_comps (initial_slashes : nat) (comps new_comps : list str)
  : list str :=
  match comps with
  | [] => new_comps
  | comp :: rest =>
      if str_eqb comp [] || str_eqb comp curdir
      then normpath_comps initial_slashes rest new_comps
      else if negb (str_eqb comp pardir)
              || (Nat.eqb initial_slashes 0 && bool_decide (new_comps = []))
              || (match last new_comps with
                  | Some l => str_eqb l pardir
                  | None => false
                  end)
      then normpath_comps initial_slashes rest (new_comps ++ [comp])
      else normpath_comps initial_slashes rest (removelast new_comps)
  end.

(** [os.path.normpath(path)]: POSIX keeps exactly two leading slashes and
    collapses three or more into one. *)
Definition normpath (path : str) : str :=
  if negb (truthy path) then curdir
  else
    let initial_slashes :=
      if startswith path sep
      then if startswith path (sep ++ sep)
              && negb (startswith path (sep ++ sep ++ sep))
           then 2 else 1
      else 0 in
    let comps := normpath_comps initial_slashes (split SLASH path) [] in
    let path' := concat (repeat sep initial_slashes) ++ Py.join sep comps in
    if truthy path' then path' else curdir.

(** [os.path.abspath(path)], with [cwd] the result of [os.getcwd()]. *)
Definition abspath (cwd path : str) : str :=
  normpath (if isabs path then path else join2 cwd path).

(** [os.path.commonprefix([a, b])] on two lists of components. *)
Fixpoint commonprefix (a b : list str) : list str :=
  match a, b with
  | x :: a', y :: b' => if str_eqb x y then x :: commonprefix a' b' else []
  | _, _ => []
  end.

(** [os.path.relpath(path, start)].  Python raises [ValueError] when [path]
    is empty; that is the [None] result. *)
Definition relpath (cwd path start : str) : option str :=
  if negb (truthy path) then None
  else
    let start_list := List.filter truthy (split SLASH (abspath cwd start)) in
    let path_list := List.filter truthy (split SLASH (abspath cwd path)) in
    let i := length (commonprefix start_list path_list) in
    let rel_list := repeat pardir (length start_list - i) ++ drop i path_list in
    match rel_list with
    | [] => Some curdir
    | p :: ps => Some (join p ps)
    end.

End posixpath.

(** [pathlib.PurePosixPath] *)
Module pathlib.

(** [Path(p).name]: the last component, where empty components and [.]
    components are dropped by the parser. *)
Definition name (p : str) : str :=
  default [] (last (List.filter (fun c => negb (str_eqb c [] || str_eqb c posixpath.curdir))
                                (split SLASH p))).

(** [Path(p).suffix] *)
Definition suffix (p : str) : str :=
  let name := name p in
  match rfind DOT name with
  | Some i => if (0 <? i) && (i <? length name - 1) then drop i name else []
  | None => []
  end.

End pathlib.

(** ** The code summarizer ([code_summarizer.py]) *)

Module CodeSummarizer.

(** The fields of [self] that the modelled methods read.  [max_retries] and
    [retry_delay] are Python [int]s, as [_load_config] reads them from the
    environment; [ignore_patterns] is the [set] built by
    [_load_gitignore]. *)
Record t := {
  root_dir : str;
  max_retries : Z;
  retry_delay : Z;
  ignore_patterns : gset str
}.

(** What the first statements of the [try] block of [get_code_summary] leave
    behind: an exception (raised by the request or by reading
    [response.choices[0].message.content]), or the text of the reply. *)
Inductive api_result :=
| ApiError
| ApiContent (content : str).

(** The collaborators outside the repository.
    - [fnmatch name pat] is [fnmatch.fnmatch];
    - [lower] is [str.lower] (it needs the Unicode case tables);
    - [getcwd] is the result of [os.getcwd()];
    - [open_read path] is [open(path, 'r', encoding='utf-8').read()], [None]
      when it raises;
    - [chat n file_path content] is the outcome of the [n]-th request sent by
      this run (counting from 0); the prompt is the fixed template filled
      with [file_path] and [content], and the model, temperature and token
      limit are constants of the run;
    - [sleep_accepts seconds] tells, for a length that is not negative,
      whether [time.sleep(seconds)] returns: it raises [OverflowError] when
      the length does not fit the clock's representation and [OSError]
      when the platform refuses the deadline, and where that limit lies
      depends on the platform. *)
Record env := {
  fnmatch : str -> str -> bool;
  lower : str -> str;
  getcwd : str;
  open_read : str -> option str;
  chat : nat -> str -> str -> api_result;
  sleep_accepts : Z -> bool
}.

(** A directory tree as [os.scandir] lists it: entries in listing order.
    Symbolic links and directories that cannot be listed are not modelled. *)
Inductive fsnode :=
| FsFile (name : str)
| FsDir (name : str) (entries : list fsnode).

Definition fs_name (e : fsnode) : str :=
  match e with FsFile n => n | FsDir n _ => n end.

Definition is_dir (e : fsnode) : bool :=
  match e with FsDir _ _ => true | FsFile _ => false end.

Definition dir_names (entries : list fsnode) : list str :=
  List.map fs_name (List.filter is_dir entries).

Definition file_names (entries : list fsnode) : list str :=
  List.map fs_name (List.filter (fun e => negb (is_dir e)) entries).

(** What the run does to the outside, in order. *)
Inductive event :=
| EvScandir (top : str)                      (* [os.walk] lists and yields [top] *)
| EvLogProcessing (file_path : str)          (* [logger.info]: processing a file *)
| EvOpen (file_path : str)                   (* [open(file_path, 'r')] *)
| EvLogReadFailed (file_path : str)          (* [logger.error]: read failed *)
| EvRequest (file_path content : str)        (* [chat.completions.create] *)
| EvLogEmptySummary (attempt : Z)            (* [logger.warning]: empty summary *)
| EvLogApiFailed                             (* [logger.error]: request failed *)
| EvSleep (seconds : Z).                     (* [time.sleep] *)

(** The mutable state: [self.summaries] (an insertion-ordered [dict]), the
    number of requests sent so far, and the trace of effects. *)
Record world := {
  summaries : list (str * str);
  api_calls : nat;
  trace : list event
}.

Definition initial_world : world :=
  {| summaries := []; api_calls := 0; trace := [] |}.

(** [d[k] = v] on an insertion-ordered [dict]: an existing key keeps its
    position, a new key goes last. *)
Fixpoint dict_set {V : Type} (d : list (str * V)) (k : str) (v : V)
  : list (str * V) :=
  match d with
  | [] => [(k, v)]
  | (k', v') :: d' =>
      if str_eqb k' k then (k, v) :: d' else (k', v') :: dict_set d' k v
  end.

(** [d.get(k)] *)
Fixpoint dict_get {V : Type} (d : list (str * V)) (k : str) : option V :=
  match d with
  | [] => None
  | (k', v') :: d' => if str_eqb k' k then Some v' else dict_get d' k
  end.

(** *** State and exceptions

    A computation takes the world and returns the world it leaves, with a
    value, or with [None] when an exception propagates out of it. *)
Definition M (A : Type) : Type := world -> option A * world.

Definition ret {A} (a : A) : M A := fun w => (Some a, w).
Definition raise {A} : M A := fun w => (None, w).
Definition bind {A B} (m : M A) (k : A -> M B) : M B :=
  fun w => match m w with
           | (Some a, w') => k a w'
           | (None, w') => (None, w')
           end.
Definition emit (e : event) : M unit :=
  fun w => (Some tt, {| summaries := summaries w; api_calls := api_calls w;
                        trace := trace w ++ [e] |}).
Definition lift_option {A} (o : option A) : M A :=
  match o with Some a => ret a | None => raise end.

(** [try: m except Exception: handler] *)
Definition try_except {A} (m handler : M A) : M A :=
  fun w => match m w with
           | (Some a, w') => (Some a, w')
           | (None, w') => handler w'
           end.

(** [time.sleep(seconds)]: a negative length raises [ValueError], a length
    that the platform does not accept raises [OverflowError] or
    [OSError]. *)
Definition sleep (E : env) (seconds : Z) : M unit :=
  if (seconds <? 0)%Z then raise
  else if sleep_accepts E seconds then emit (EvSleep seconds)
  else raise.

#[global] Instance M_ret : MRet M := @ret.
#[global] Instance M_bind : MBind M := fun A B k m => bind m k.

(** [for x in xs: body(x)] *)
Fixpoint for_each {A} (xs : list A) (body : A -> M unit) : M unit :=
  match xs with
  | [] => ret tt
  | x :: xs' => body x;; for_each xs' body
  end.

(** [[x for x in xs if keep(x)]] where [keep] may raise *)
Fixpoint filter_m {A} (keep : A -> option bool) (xs : list A)
  : option (list A) :=
  match xs with
  | [] => Some []
  | x :: xs' =>
      match keep x with
      | None => None
      | Some b =>
          match filter_m keep xs' with
          | None => None
          | Some r => Some (if b then x :: r else r)
          end
      end
  end.

(** How one iteration of a loop inside a function ends: with a [return],
    or by going on to the next iteration. *)
Inductive control (A : Type) :=
| Return (result : A)
| Continue.
Arguments Return {A} result.
Arguments Continue {A}.

Section Methods.

Variable E : env.
Variable self : t.

(** [_load_gitignore]: [lines] are the lines of [.gitignore] that the loop
    receives, [None] when the file does not exist or cannot be opened (a
    failure later in the file only ends the loop early). *)
Definition _load_gitignore (lines : option (list str)) : gset str :=
  match lines with
  | None => ∅
  | Some ls =>
      fold_left
        (fun ignore_patterns line =>
           let line := strip line in
           if truthy line && negb (startswith line [HASH])
           then ignore_patterns ∪ {[ line ]}
           else ignore_patterns)
        ls ∅
  end.

(** The test of one pattern in the loop of [_should_ignore]. *)
Definition pattern_ignores (relative_path pattern : str) : bool :=
  fnmatch E relative_path pattern
  || (endswith pattern [SLASH]
      && startswith relative_path (drop_last pattern)).

(** [_should_ignore(path)]; [None] when [os.path.relpath] raises. *)
Definition _should_ignore (path : str) : option bool :=
  match posixpath.relpath (getcwd E) path (root_dir self) with
  | None => None
  | Some relative_path =>
      Some (existsb (pattern_ignores relative_path)
                    (elements (ignore_patterns self)))
  end.

Definition text_extensions : list str :=
  List.map lit
    [".py"; ".js"; ".ts"; ".java"; ".cpp"; ".h"; ".cs"; ".go";
     ".rb"; ".php"; ".swift"; ".kt"; ".rs"; ".md"; ".txt"; ".json";
     ".xml"; ".yaml"; ".yml"; ".html"; ".css"; ".scss"; ".less"]%string.

(** [is_text_file(file_path)] *)
Definition is_text_file (file_path : str) : bool :=
  bool_decide (lower E (pathlib.suffix file_path) ∈ text_extensions).

(** [read_file_content(file_path)] *)
Definition read_file_content (file_path : str) : M (option str) :=
  emit (EvOpen file_path);;
  match open_read E file_path with
  | Some content => mret (Some content)
  | None => emit (EvLogReadFailed file_path);; mret None
  end.

(** One call of [self.client.chat.completions.create] followed by the read
    of the reply's content. *)
Definition request (file_path content : str) : M api_result :=
  fun w =>
    (Some (chat E (api_calls w) file_path content),
     {| summaries := summaries w;
        api_calls := S (api_calls w);
        trace := trace w ++ [EvRequest file_path content] |}).

(** The body of [for attempt in range(self.max_retries)] in
    [get_code_summary]: the [try] block and its [except Exception]
    handler. *)
Definition attempt_body (attempt : Z) (content file_path : str)
  : M (control (option str)) :=
  try_except
    (r ← request file_path content;
     match r with
     | ApiError => raise
     | ApiContent reply =>
         let summary := strip reply in
         if truthy summary then mret (Return (Some summary))
         else
           emit (EvLogEmptySummary (attempt + 1));;
           sleep E (retry_delay self);;
           mret Continue
     end)
    (emit EvLogApiFailed;;
     if (attempt <? max_retries self - 1)%Z
     then sleep E (retry_delay self);; mret Continue
     else mret (Return None)).

(** The loop over the attempts still to come, and the [return None] after
    it. *)
Fixpoint attempt_loop (attempts : list Z) (content file_path : str)
  : M (option str) :=
  match attempts with
  | [] => mret None
  | attempt :: rest =>
      c ← attempt_body attempt content file_path;
      match c with
      | Return result => mret result
      | Continue => attempt_loop rest content file_path
      end
  end.

(** [range(n)] *)
Definition range (n : Z) : list Z :=
  List.map Z.of_nat (seq 0 (Z.to_nat n)).

(** [get_code_summary(content, file_path)] *)
Definition get_code_summary (content file_path : str) : M (option str) :=
  attempt_loop (range (max_retries self)) content file_path.

(** [self.summaries[relative_path] = summary] *)
Definition record_summary (relative_path summary : str) : M unit :=
  fun w =>
    (Some tt,
     {| summaries := dict_set (summaries w) relative_path summary;
        api_calls := api_calls w;
        trace := trace w |}).

(** The body of [for file in files] in [process_directory]. *)
Definition process_file (root file : str) : M unit :=
  let file_path := posixpath.join2 root file in
  ignored ← lift_option (_should_ignore file_path);
  if negb ignored && is_text_file file_path then
    emit (EvLogProcessing file_path);;
    content ← read_file_content file_path;
    match content with
    | Some content =>
        if truthy content then
          summary ← get_code_summary content file_path;
          match summary with
          | Some summary =>
              if truthy summary then
                relative_path ←
                  lift_option (posixpath.relpath (getcwd E) file_path
                                                 (root_dir self));
                record_summary relative_path summary
              else mret tt
          | None => mret tt
          end
        else mret tt
    | None => mret tt
    end
  else mret tt.

(** The body of [for root, dirs, files in os.walk(...)]; the result is the
    list that [dirs[:] = ...] leaves in [dirs]. *)
Definition walk_body (root : str) (dirs files : list str) : M (list str) :=
  dirs' ← lift_option
            (filter_m (fun d => negb <$> _should_ignore (posixpath.join2 root d))
                      dirs);
  for_each files (process_file root);;
  mret dirs'.

(** [for root, dirs, files in os.walk(top): body], top-down: [top] is listed
    and yielded, the body runs and may prune [dirs] in place, then the walk
    descends, in listing order, into the directories whose names are still
    in [dirs]. *)
Fixpoint walk (body : str -> list str -> list str -> M (list str))
    (top : str) (node : fsnode) {struct node} : M unit :=
  match node with
  | FsFile _ => mret tt
  | FsDir _ entries =>
      emit (EvScandir top);;
      dirs' ← body top (dir_names entries) (file_names entries);
      (fix descend (es : list fsnode) : M unit :=
         match es with
         | [] => mret tt
         | e :: es' =>
             (if is_dir e && bool_decide (fs_name e ∈ dirs')
              then walk body (posixpath.join2 top (fs_name e)) e
              else mret tt);;
             descend es'
         end) entries
  end.

(** [process_directory()], on the directory tree [fs] found at
    [self.root_dir].  [os.scandir('')] raises, so [os.walk('')] yields
    nothing. *)
Definition process_directory (fs : fsnode) : M unit :=
  if truthy (root_dir self) then walk walk_body (root_dir self) fs
  else mret tt.

End Methods.

(** *** The tree builder *)

(** The nested structure: a summary, or a [dict] from path segment to
    subtree in insertion order. *)
Inductive tree :=
| Leaf (summary : str)
| Node (items : list (str * tree)).

(** The walk of [generate_tree_structure] along [parts[:-1]] from the
    [dict] [current], and the final [current[parts[-1]] = summary]; the
    result is [current] as the in-place updates leave it.  When
    [current[part]] is a summary, [current] becomes a [str], and whatever
    statement comes next on it raises [TypeError] (item assignment, or
    indexing a [str] by a [str]): that is [None]. *)
Fixpoint place (current : list (str * tree)) (dirs : list str)
    (leaf summary : str) : option (list (str * tree)) :=
  match dirs with
  | [] => Some (dict_set current leaf (Leaf summary))
  | part :: rest =>
      let current1 :=
        match dict_get current part with
        | None => dict_set current part (Node [])
        | Some _ => current
        end in
      match dict_get current1 part with
      | Some (Node sub) =>
          sub' ← place sub rest leaf summary;
          Some (dict_set current1 part (Node sub'))
      | Some (Leaf _) => None
      | None => None   (* not reached: [part] is in [current1] *)
      end
  end.

(** One iteration of [for file_path, summary in self.summaries.items()]. *)
Definition add_path (root : list (str * tree)) (file_path summary : str)
  : option (list (str * tree)) :=
  let parts := split SLASH file_path in
  place root (removelast parts) (List.last parts []) summary.

(** [generate_tree_structure()], from the items of [self.summaries]. *)
Definition generate_tree_structure (summaries : list (str * str))
  : option (list (str * tree)) :=
  fold_left
    (fun acc item => root ← acc; add_path root (fst item) (snd item))
    summaries (Some []).

End CodeSummarizer.

(** ** The tree visualizer ([tree_visualizer.py]) *)

Module TreeVisualizer.

Import CodeSummarizer.

(** The string literals of the module, by code point. *)
(* "代碼摘要樹狀結構" *)
Definition TITLE : str :=
  [20195; 30908; 25688; 35201; 27193; 29376; 32080; 27083]%N.
(* "==============" *)
Definition RULE : str := lit "==============".
(* "無數據可視化" *)
Definition NO_DATA : str := [28961; 25976; 25818; 21487; 35222; 21270]%N.
(* "樹狀結構已保存到: " *)
Definition SAVED_TO : str :=
  [27193; 29376; 32080; 27083; 24050; 20445; 23384; 21040; 58; 32]%N.
(* "讀取JSON文件失敗: " *)
Definition LOAD_FAILED : str :=
  [35712; 21462; 74; 83; 79; 78; 25991; 20214; 22833; 25943; 58; 32]%N.
(* "生成樹狀結構文件失敗: " *)
Definition WRITE_FAILED : str :=
  [29983; 25104; 27193; 29376; 32080; 27083; 25991; 20214; 22833; 25943;
   58; 32]%N.
(* "└── ", "├── ", "│   " *)
Definition CONNECTOR_LAST : str := [9492; 9472; 9472; 32]%N.
Definition CONNECTOR_MID : str := [9500; 9472; 9472; 32]%N.
Definition PREFIX_MID : str := [9474; 32; 32; 32]%N.
Definition PREFIX_LAST : str := lit "    ".

(** The fields of [self]. *)
Record t := {
  json_file : str;
  output_file : str
}.

(** The collaborators outside the repository.
    - [json_loads text] is [json.load] on a file holding [text]: the message
      of the exception it raises, or the document, which [load_json]
      declares to be a [dict] of summaries and nested [dict]s;
    - [read_error path] is the message of the exception that opening a
      missing [path] for reading raises;
    - [write_error path] is the message of the exception that opening [path]
      for writing raises, [None] when the file can be written;
    - [encode_error text] is the message of the [UnicodeEncodeError] that
      writing or printing [text] raises.
    The messages of exceptions are taken to be printable: they quote the
    offending text escaped.  Files are opened with the UTF-8 encoding, and
    standard output is taken to encode with UTF-8 too. *)
Record env := {
  json_loads : str -> str + list (str * tree);
  read_error : str -> str;
  write_error : str -> option str;
  encode_error : str -> str
}.

(** The file store (text files by path) and the text sent to standard
    output so far. *)
Record world := {
  files : gmap str str;
  stdout : str
}.

(** [print(s)] of a text that standard output encodes. *)
Definition print (s : str) (w : world) : world :=
  {| files := files w; stdout := stdout w ++ s ++ [LF] |}.

(** What [with open(path, 'w', encoding='utf-8')] leaves when the writes
    made before the block is left, normally or by an exception, produce
    [text]: the file is truncated when it is opened, and what was written
    is flushed when it is closed. *)
Definition write_file (path text : str) (w : world) : world :=
  {| files := <[path := text]> (files w); stdout := stdout w |}.

(** [_visualize_tree_recursive(data, file, prefix)]: [file] is the text
    written to the sink so far; the result is the text after the call.  The
    method is only ever called on a [dict], written [Node items]. *)
Fixpoint _visualize_tree_recursive (data : tree) (file prefix : str)
    {struct data} : str :=
  match data with
  | Leaf _ => file
  | Node items =>
      (fix loop (i : nat) (rest : list (str * tree)) (file : str)
           {struct rest} : str :=
         match rest with
         | [] => file
         | (key, value) :: rest' =>
             let is_last_item := Nat.eqb i (length items - 1) in
             let connector :=
               if is_last_item then CONNECTOR_LAST else CONNECTOR_MID in
             let file :=
               match value with
               | Node _ =>
                   let file :=
                     file ++ prefix ++ connector ++ key ++ [SLASH; LF] in
                   let new_prefix :=
                     prefix ++ (if is_last_item then PREFIX_LAST
                                else PREFIX_MID) in
                   _visualize_tree_recursive value file new_prefix
               | Leaf value =>
                   let summary := replace (strip value) [LF] (lit " | ") in
                   file ++ prefix ++ connector ++ key ++ lit "    "
                        ++ summary ++ [LF]
               end in
             loop (S i) rest' file
         end) 0 items file
  end.

(** The same method when [file] is a file opened with the UTF-8 encoding:
    a write that cannot be encoded raises, and the exception leaves the
    loop and every call on the way. *)
Module OnFile.

Fixpoint _visualize_tree_recursive (data : tree) (file prefix : str)
    {struct data} : written :=
  match data with
  | Leaf _ => Done file
  | Node items =>
      (fix loop (i : nat) (rest : list (str * tree)) (file : str)
           {struct rest} : written :=
         match rest with
         | [] => Done file
         | (key, value) :: rest' =>
             let is_last_item := Nat.eqb i (length items - 1) in
             let connector :=
               if is_last_item then CONNECTOR_LAST else CONNECTOR_MID in
             let entry :=
               match value with
               | Node _ =>
                   match write file
                           (prefix ++ connector ++ key ++ [SLASH; LF]) with
                   | Done file =>
                       let new_prefix :=
                         prefix ++ (if is_last_item then PREFIX_LAST
                                    else PREFIX_MID) in
                       _visualize_tree_recursive value file new_prefix
                   | Failed file text => Failed file text
                   end
               | Leaf value =>
                   let summary := replace (strip value) [LF] (lit " | ") in
                   write file
                     (prefix ++ connector ++ key ++ lit "    "
                             ++ summary ++ [LF])
               end in
             match entry with
             | Done file => loop (S i) rest' file
             | Failed file text => Failed file text
             end
         end) 0 items file
  end.

End OnFile.

Section Methods.

Variable E : env.
Variable self : t.

(** [load_json()] *)
Definition load_json (w : world) : list (str * tree) * world :=
  match files w !! json_file self with
  | None => ([], print (LOAD_FAILED ++ read_error E (json_file self)) w)
  | Some text =>
      match json_loads E text with
      | inl e => ([], print (LOAD_FAILED ++ e) w)
      | inr data => (data, w)
      end
  end.

(** [not data] on a [dict] *)
Definition is_empty (data : list (str * tree)) : bool :=
  match data with [] => true | _ :: _ => false end.

(** [visualize()]: the writes and the [print] that follows them are inside
    the [try]; when one of them raises [UnicodeEncodeError] the handler
    reports it, and the file keeps what was written before. *)
Definition visualize (w : world) : world :=
  let (data, w) := load_json w in
  if is_empty data then print NO_DATA w
  else
    match write_error E (output_file self) with
    | Some e => print (WRITE_FAILED ++ e) w
    | None =>
        let f := TITLE ++ [LF] in
        let f := f ++ RULE ++ [LF; LF] in
        match OnFile._visualize_tree_recursive (Node data) f [] with
        | Done f =>
            let w := write_file (output_file self) f w in
            let saved := SAVED_TO ++ output_file self in
            if encodable saved then print saved w
            else print (WRITE_FAILED ++ encode_error E saved) w
        | Failed f text =>
            print (WRITE_FAILED ++ encode_error E text)
                  (write_file (output_file self) f w)
        end
    end.

(** [print_tree()]; [None] when the last [print], which no handler
    covers, raises [UnicodeEncodeError]: nothing of its text is printed
    then. *)
Definition print_tree (w : world) : option unit * world :=
  let (data, w) := load_json w in
  if is_empty data then (Some tt, print NO_DATA w)
  else
    let w := print TITLE w in
    let w := print (RULE ++ [LF]) w in
    let output := _visualize_tree_recursive (Node data) [] [] in
    if encodable output then (Some tt, print output w) else (None, w).

End Methods.

End TreeVisualizer.

(** ** Concrete collaborators for the examples *)

Module Demo.

Import CodeSummarizer.

(** [fnmatch.fnmatch] on the patterns without a bracket expression: [*]
    matches any run of characters, [?] any one character, every other
    character itself. *)
Fixpoint glob (pat name : str) {struct pat} : bool :=
  match pat with
  | [] => bool_decide (name = [])
  | c :: pat' =>
      if (c =? 42)%N then
        (fix star (n : str) : bool :=
           glob pat' n || match n with [] => false | _ :: n' => star n' end)
          name
      else
        match name with
        | [] => false
        | x :: name' => ((c =? 63) || (c =? x))%N && glob pat' name'
        end
  end.

(** [str.lower] on ASCII text. *)
Definition ascii_lower (s : str) : str :=
  List.map (fun c => if ((65 <=? c) && (c <=? 90))%N then (c + 32)%N else c) s.

(** A clock that counts nanoseconds in 63 bits: a sleep is accepted when
    its length is below that many seconds. *)
Definition clock_accepts (seconds : Z) : bool :=
  (seconds <? 9223372036)%Z.

(** A run in [/work] where every file reads as [pass], the first two
    requests fail and the later ones answer [ok]. *)
Definition env0 : env :=
  {| fnmatch := fun name pat => glob pat name;
     lower := ascii_lower;
     getcwd := lit "/work";
     open_read := fun _ => Some (lit "pass");
     chat := fun n _ _ =>
               match n with
               | 0 => ApiError
               | 1 => ApiContent (lit "  ")
               | _ => ApiContent (lit "ok")
               end;
     sleep_accepts := clock_accepts |}.

(** An environment in which every request fails: odd ones raise, even ones
    answer with blanks. *)
Definition env_failing : env :=
  {| fnmatch := fun name pat => glob pat name;
     lower := ascii_lower;
     getcwd := lit "/work";
     open_read := fun _ => Some (lit "pass");
     chat := fun n _ _ => if Nat.even n then ApiContent [SPACE; LF] else ApiError;
     sleep_accepts := clock_accepts |}.

(** An environment in which every file reads as the empty string. *)
Definition env_empty_files : env :=
  {| fnmatch := fun name pat => glob pat name;
     lower := ascii_lower;
     getcwd := lit "/work";
     open_read := fun _ => Some [];
     chat := fun _ _ _ => ApiContent (lit "ok");
     sleep_accepts := clock_accepts |}.

Definition self0 : t :=
  {| root_dir := lit ".";
     max_retries := 3;
     retry_delay := 5;
     ignore_patterns := {[ lit "*.pyc"; lit "node_modules/" ]} |}.

(** The same object with a negative delay, and with a delay longer than
    the clock accepts. *)
Definition self_negative_delay : t :=
  {| root_dir := lit ".";
     max_retries := 3;
     retry_delay := -1;
     ignore_patterns := {[ lit "*.pyc"; lit "node_modules/" ]} |}.

Definition self_long_delay : t :=
  {| root_dir := lit ".";
     max_retries := 3;
     retry_delay := 10 ^ 30;
     ignore_patterns := {[ lit "*.pyc"; lit "node_modules/" ]} |}.

Definition fs0 : fsnode :=
  FsDir (lit ".")
    [ FsFile (lit "a.py");
      FsDir (lit "node_modules") [ FsFile (lit "x.js") ];
      FsFile (lit "README");
      FsDir (lit "sub") [ FsFile (lit "b.PY"); FsFile (lit "c.pyc") ] ].

End Demo.


(** ** Vocabulary of the properties *)

Module Spec.

Import CodeSummarizer.

(** A rule ignores a relative path when the path glob-matches it, or the
    rule is some [stem] followed by the separator and the path starts with
    [stem]. *)
Definition rule_ignores (E : env) (relative_path rule : str) : Prop :=
  fnmatch E relative_path rule = true
  \/ exists stem, rule = stem ++ [SLASH]
                  /\ exists rest, relative_path = stem ++ rest.

(** The world after [n] more requests and the events [evs], with the
    summaries untouched. *)
Definition after (w : world) (n : nat) (evs : list event) : world :=
  {| summaries := summaries w;
     api_calls := api_calls w + n;
     trace := trace w ++ evs |}.

(** [time.sleep] accepts the delay of [self]. *)
Definition delay_accepted (E : env) (self : t) : Prop :=
  (0 <= retry_delay self)%Z /\ sleep_accepts E (retry_delay self) = true.

(** A summarization attempt fails when the request raises or the reply is
    blank. *)
Definition failed (r : api_result) : bool :=
  match r with
  | ApiError => true
  | ApiContent reply => negb (truthy (strip reply))
  end.

Definition is_request (e : event) : bool :=
  match e with EvRequest _ _ => true | _ => false end.

Definition is_request_or_sleep (e : event) : bool :=
  match e with EvRequest _ _ | EvSleep _ => true | _ => false end.

(** [n] requests with one sleep between each two consecutive ones. *)
Fixpoint spaced (n : nat) (req slp : event) : list event :=
  match n with
  | 0 => []
  | S n' =>
      match n' with
      | 0 => [req]
      | S _ => req :: slp :: spaced n' req slp
      end
  end.

(** The environment [E] in which reading [file_path] raises. *)
Definition with_read_failure (E : env) (file_path : str) : env :=
  {| fnmatch := fnmatch E;
     lower := lower E;
     getcwd := getcwd E;
     open_read := fun p => if str_eqb p file_path then None else open_read E p;
     chat := chat E;
     sleep_accepts := sleep_accepts E |}.

(** The path an event is about, if any. *)
Definition touched (e : event) : option str :=
  match e with
  | EvScandir p | EvLogProcessing p | EvOpen p | EvLogReadFailed p
  | EvRequest p _ => Some p
  | EvLogEmptySummary _ | EvLogApiFailed | EvSleep _ => None
  end.

(** The events that processing the one file [file_path] may leave. *)
Definition file_event (file_path : str) (e : event) : Prop :=
  match e with
  | EvScandir _ => False
  | _ => touched e = None \/ touched e = Some file_path
  end.

(** The events that mark the progress of the walk: a directory is listed, a
    file is selected. *)
Definition is_structural (e : event) : bool :=
  match e with EvScandir _ | EvLogProcessing _ => true | _ => false end.

Definition skeleton (evs : list event) : list event :=
  List.filter is_structural evs.

(** [path] is not ignored. *)
Definition kept (E : env) (self : t) (path : str) : bool :=
  bool_decide (_should_ignore E self path = Some false).

(** [path] is not ignored and has an allowed extension. *)
Definition candidate (E : env) (self : t) (path : str) : bool :=
  kept E self path && is_text_file E path.

(** The descent of [walk] into the entries [es] of a directory, once the
    body has left [dirs'] in [dirs]. *)
Definition walk_children (body : str -> list str -> list str -> M (list str))
    (top : str) (dirs' : list str) (es : list fsnode) : M unit :=
  for_each es
    (fun e =>
       if is_dir e && bool_decide (fs_name e ∈ dirs')
       then walk body (posixpath.join2 top (fs_name e)) e
       else mret tt).

(** The sequence that [os.walk] yields when the body prunes the ignored
    directories: each listed directory with the directories it keeps and
    its files. *)
Fixpoint yields (E : env) (self : t) (top : str) (node : fsnode)
  : list (str * list str * list str) :=
  match node with
  | FsFile _ => []
  | FsDir _ entries =>
      (top,
       List.filter (fun d => kept E self (posixpath.join2 top d))
                   (dir_names entries),
       file_names entries)
      :: flat_map
           (fun e =>
              if is_dir e && kept E self (posixpath.join2 top (fs_name e))
              then yields E self (posixpath.join2 top (fs_name e)) e
              else [])
           entries
  end.

(** The structural events of one yield: the listing, then the selection of
    each candidate among its files, in order. *)
Definition yield_skeleton (E : env) (self : t)
    (y : str * list str * list str) : list event :=
  EvScandir (fst (fst y))
  :: List.map EvLogProcessing
       (List.filter (candidate E self)
                    (List.map (posixpath.join2 (fst (fst y))) (snd y))).

(** The directory [n] at path [p] is reached from the directory [node] at
    path [top] through directories none of which is ignored. *)
Inductive reachable (E : env) (self : t)
  : str -> fsnode -> str -> fsnode -> Prop :=
| reach_here top name entries :
    reachable E self top (FsDir name entries) top (FsDir name entries)
| reach_below top name entries e p n :
    In e entries ->
    is_dir e = true ->
    _should_ignore E self (posixpath.join2 top (fs_name e)) = Some false ->
    reachable E self (posixpath.join2 top (fs_name e)) e p n ->
    reachable E self top (FsDir name entries) p n.

(** Every event of [evs] about a path is the listing of a directory or is
    about a file selected in [evs]. *)
Definition accounted (evs : list event) : Prop :=
  Forall (fun e => forall p, touched e = Some p ->
                   e = EvScandir p \/ In (EvLogProcessing p) evs) evs.

(** Every entry of [summaries] in [w'] was there in [w] or is keyed by the
    relative path of a file selected in [evs]. *)
Definition keys_announced (E : env) (self : t) (w w' : world)
    (evs : list event) : Prop :=
  forall kv, In kv (summaries w') ->
    In kv (summaries w)
    \/ exists p, In (EvLogProcessing p) evs
                 /\ posixpath.relpath (getcwd E) p (root_dir self)
                    = Some (fst kv).

(** The walk from [node] at any non-empty path returns normally and leaves
    the structural events of its yields, only accounted events, and only
    announced keys. *)
Definition walk_ok (E : env) (self : t) (node : fsnode) : Prop :=
  forall top w, top <> [] ->
    exists w' evs,
      walk (walk_body E self) top node w = (Some tt, w')
      /\ trace w' = trace w ++ evs
      /\ skeleton evs
         = flat_map (yield_skeleton E self) (yields E self top node)
      /\ accounted evs
      /\ keys_announced E self w w' evs.

(** A name as a directory listing gives it: not empty, no separator. *)
Definition wf_name (name : str) : bool :=
  truthy name && forallb (fun c => negb (c =? SLASH)%N) name.

(** Every name listed below [node] is well formed. *)
Fixpoint wf_names (node : fsnode) : bool :=
  match node with
  | FsFile _ => true
  | FsDir _ entries =>
      forallb (fun e => wf_name (fs_name e) && wf_names e) entries
  end.

(** [p] is the path [d] or a path below it. *)
Definition under (d p : str) : Prop :=
  p = d \/ exists rest, p = d ++ SLASH :: rest.

(** [root] with the separator that [os.path.join] puts before the next
    component. *)
Definition slashed (root : str) : str :=
  if endswith root posixpath.sep then root else root ++ posixpath.sep.

(** [p] is [root] followed by well-formed names, and no path on the way
    from the first name to [p] itself is ignored. *)
Definition clean (E : env) (self : t) (p : str) : Prop :=
  exists segs,
    Forall (fun s => wf_name s = true) segs
    /\ p = posixpath.join (root_dir self) segs
    /\ forall front rest, front <> [] -> segs = front ++ rest ->
         _should_ignore E self (posixpath.join (root_dir self) front)
         = Some false.

(** *** The tree builder *)

(** The leaves found below the key [k]. *)
Definition under_key (k : str) (leaves : list (list str * str))
  : list (list str * str) :=
  List.map (fun ps => (k :: fst ps, snd ps)) leaves.

(** The leaves of a tree in depth-first order, each with the segments that
    lead to it. *)
Fixpoint leaf_items (t : tree) : list (list str * str) :=
  match t with
  | Leaf summary => [([], summary)]
  | Node items =>
      flat_map (fun kv => under_key (fst kv) (leaf_items (snd kv))) items
  end.

(** The number of leaves. *)
Fixpoint count_leaves (t : tree) : nat :=
  match t with
  | Leaf _ => 1
  | Node items => list_sum (List.map (fun kv => count_leaves (snd kv)) items)
  end.

(** Re-flattening: depth first, the segments of each leaf joined by the
    separator. *)
Definition reflatten (root : list (str * tree)) : list (str * str) :=
  List.map (fun ps => (Py.join posixpath.sep (fst ps), snd ps))
           (leaf_items (Node root)).

(** [a] is a prefix of [b]; [a] is a strict prefix of [b]. *)
Definition is_prefix (a b : list str) : Prop := exists c, b = a ++ c.
Definition strict_prefix (a b : list str) : Prop :=
  exists c, c <> [] /\ b = a ++ c.

(** An item of the flat mapping with its path split into segments. *)
Definition segs_item (item : str * str) : list str * str :=
  (split SLASH (fst item), snd item).

(** Every [dict] inside the tree has an entry. *)
Fixpoint solid (t : tree) : bool :=
  match t with
  | Leaf _ => true
  | Node items =>
      negb (bool_decide (items = []))
      && forallb (fun kv => solid (snd kv)) items
  end.

(** What is found at a path of segments from the [dict] [current]. *)
Fixpoint lookup (current : list (str * tree)) (path : list str)
  : option tree :=
  match path with
  | [] => Some (Node current)
  | k :: rest =>
      match dict_get current k with
      | None => None
      | Some (Node sub) => lookup sub rest
      | Some (Leaf s) =>
          match rest with [] => Some (Leaf s) | _ :: _ => None end
      end
  end.

(** A summary sits at a non-empty prefix of [path]. *)
Definition leaf_on_path (current : list (str * tree)) (path : list str)
  : Prop :=
  exists front back s,
    path = front ++ back /\ front <> []
    /\ lookup current front = Some (Leaf s).

(** *** The renderer *)

(** A summary flattened to one line. *)
Definition flat_summary (value : str) : str :=
  replace (strip value) [LF] (lit " | ").

(** The loop of [_visualize_tree_recursive] over the entries [rest] of a
    [dict] of [n] entries, [i] being the index of the first of them. *)
Fixpoint render_items (n i : nat) (rest : list (str * tree))
    (file prefix : str) : str :=
  match rest with
  | [] => file
  | (key, value) :: rest' =>
      let is_last_item := Nat.eqb i (n - 1) in
      let connector :=
        if is_last_item then TreeVisualizer.CONNECTOR_LAST
        else TreeVisualizer.CONNECTOR_MID in
      let file :=
        match value with
        | Node _ =>
            TreeVisualizer._visualize_tree_recursive value
              (file ++ prefix ++ connector ++ key ++ [SLASH; LF])
              (prefix ++ (if is_last_item then TreeVisualizer.PREFIX_LAST
                          else TreeVisualizer.PREFIX_MID))
        | Leaf value =>
            file ++ prefix ++ connector ++ key ++ lit "    "
                 ++ flat_summary value ++ [LF]
        end in
      render_items n (S i) rest' file prefix
  end.

(** The header that [visualize] writes and [print_tree] prints: the title,
    the rule, and a blank line. *)
Definition header : str :=
  TreeVisualizer.TITLE ++ [LF] ++ TreeVisualizer.RULE ++ [LF; LF].

(** Every key and every summary of the tree can be encoded in UTF-8. *)
Fixpoint tree_encodable (t : tree) : bool :=
  match t with
  | Leaf value => encodable value
  | Node items =>
      forallb (fun kv => encodable (fst kv) && tree_encodable (snd kv)) items
  end.

End Spec.

Module DemoVisualizer.

Import CodeSummarizer TreeVisualizer.

(** The document [{"a.py": "desc A", "sub": {"b.py": "desc B"}}]. *)
Definition data0 : list (str * tree) :=
  [(lit "a.py", Leaf (lit "desc A"));
   (lit "sub", Node [(lit "b.py", Leaf (lit "desc B"))])].

(** A document whose second summary is the lone surrogate [U+DC80]. *)
Definition data_surrogate : list (str * tree) :=
  [(lit "a.py", Leaf (lit "ok"));
   (lit "b.py", Leaf [56448%N]);
   (lit "c.py", Leaf (lit "late"))].

(** A parser that knows four files. *)
Definition env0 : env :=
  {| json_loads := fun text =>
       if str_eqb text (lit "{}") then inr []
       else if str_eqb text (lit "tree") then inr data0
       else if str_eqb text (lit "surrogate") then inr data_surrogate
       else inl (lit "Expecting value");
     read_error := fun path => lit "No such file: " ++ path;
     write_error := fun _ => None;
     encode_error := fun _ => lit "surrogates not allowed" |}.

Definition self0 : t :=
  {| json_file := lit "code_summary_tree.json";
     output_file := lit "code_summary_tree.txt" |}.


(** The same store with [{}], with an unreadable document, and without a
    document. *)
Definition world_empty : world :=
  {| files := {[ lit "code_summary_tree.json" := lit "{}";
                 lit "code_summary_tree.txt" := lit "old" ]};
     stdout := [] |}.

Definition world_broken : world :=
  {| files := {[ lit "code_summary_tree.json" := lit "{";
                 lit "code_summary_tree.txt" := lit "old" ]};
     stdout := [] |}.

Definition world_missing : world :=
  {| files := {[ lit "code_summary_tree.txt" := lit "old" ]};
     stdout := [] |}.


End DemoVisualizer.


(** ** Vocabulary of the further properties *)

Module More.

Import CodeSummarizer.
Import Spec.

(** The selection of a file by the walk. *)
Definition is_selection (e : event) : bool :=
  match e with EvLogProcessing _ => true | _ => false end.


(** A string with no whitespace at either end. *)
Definition trimmed (s : str) : Prop := strip s = s.

(** The structural events [part] of a run that ended with [r] are the first
    of [full], and all of them when the run returned. *)
Definition so_far {A} (r : option A) (full part : list event) : Prop :=
  exists rest, full = part ++ rest /\ (r <> None -> rest = []).

(** The walk from [node] at any non-empty path, whether it returns or
    raises, leaves the structural events of its yields as far as it got,
    only accounted events, and only announced keys. *)
Definition walk_any (E : env) (self : t) (node : fsnode) : Prop :=
  forall top w, top <> [] ->
    exists r w' evs,
      walk (walk_body E self) top node w = (r, w')
      /\ trace w' = trace w ++ evs
      /\ so_far r (flat_map (yield_skeleton E self) (yields E self top node))
                (skeleton evs)
      /\ accounted evs
      /\ keys_announced E self w w' evs.

(** Every run of [m], whether it returns or raises, takes a world to one
    related to it by [R]. *)
Definition preserves {A} (R : world -> world -> Prop) (m : M A) : Prop :=
  forall w r w', m w = (r, w') -> R w w'.

(** From [w] to [w'] the requests are counted, there are at most
    [max_retries] of them for each file selected, and each one carries the
    content, not empty, of a file selected on the way. *)
Definition within_budget (E : env) (self : t) (w w' : world) : Prop :=
  exists evs,
    trace w' = trace w ++ evs
    /\ api_calls w' = api_calls w + length (List.filter is_request evs)
    /\ length (List.filter is_request evs)
       <= Z.to_nat (max_retries self) * length (List.filter is_selection evs)
    /\ forall p c, In (EvRequest p c) evs ->
         In (EvLogProcessing p) evs /\ open_read E p = Some c /\ c <> [].

(** From [w] to [w'] the keys of [summaries] keep their positions, new ones
    come last, distinct keys stay distinct, and an entry that is not the
    old one holds a summary that is trimmed and not empty. *)
Definition summaries_grow (w w' : world) : Prop :=
  (exists added,
     List.map fst (summaries w') = List.map fst (summaries w) ++ added)
  /\ (NoDup (List.map fst (summaries w)) ->
      NoDup (List.map fst (summaries w')))
  /\ forall k v, In (k, v) (summaries w') ->
       In (k, v) (summaries w) \/ (v <> [] /\ trimmed v).

(** The number of entries of a tree, at every depth. *)
Fixpoint count_entries (t : tree) : nat :=
  match t with
  | Leaf _ => 0
  | Node items =>
      list_sum (List.map (fun kv => S (count_entries (snd kv))) items)
  end.

(** No key of the tree holds a line break. *)
Fixpoint keys_one_line (t : tree) : bool :=
  match t with
  | Leaf _ => true
  | Node items =>
      forallb (fun kv => negb (existsb (N.eqb LF) (fst kv))
                         && keys_one_line (snd kv)) items
  end.

(** The text made of the lines [ls], each after [prefix] and each
    terminated. *)
Definition as_lines (prefix : str) (ls : list str) : str :=
  concat (List.map (fun l => prefix ++ l ++ [LF]) ls).

(** A name as a directory listing gives it: well formed, and neither [.]
    nor [..], which [os.scandir] never lists. *)
Definition plain_name (name : str) : bool :=
  wf_name name
  && negb (str_eqb name posixpath.curdir)
  && negb (str_eqb name posixpath.pardir).

Fixpoint plain_names (node : fsnode) : bool :=
  match node with
  | FsFile _ => true
  | FsDir _ entries =>
      forallb (fun e => plain_name (fs_name e) && plain_names e) entries
  end.

(** No directory lists a name twice. *)
Fixpoint distinct_names (node : fsnode) : bool :=
  match node with
  | FsFile _ => true
  | FsDir _ entries =>
      bool_decide (NoDup (List.map fs_name entries))
      && forallb distinct_names entries
  end.

(** The entry found from [node] along the names [segs]. *)
Inductive at_path : fsnode -> list str -> fsnode -> Prop :=
| at_here node : at_path node [] node
| at_below name entries e segs n :
    In e entries ->
    at_path e segs n ->
    at_path (FsDir name entries) (fs_name e :: segs) n.

End More.

(** ** The two programs

    What [main] of each file runs once the objects are constructed, and
    [save_tree_to_file], on the file store that the two programs share. *)

Module Programs.

Import CodeSummarizer.

(** The file names that the two [main] functions and the constructors'
    defaults agree on. *)
Definition TREE_JSON : str := lit "code_summary_tree.json".
Definition TREE_TXT : str := lit "code_summary_tree.txt".

(** The collaborators of [save_tree_to_file]:
    - [json_chunks tree] are the pieces of text that
      [json.dump(tree, f, ensure_ascii=False, indent=2)] writes to [f], one
      [f.write] each, in order: the encoder of a tree of strings raises
      nothing itself, and it leaves the characters of the strings as they
      are, surrogates included;
    - [cannot_write path] tells whether [open(path, 'w')] raises. *)
Record output_env := {
  json_chunks : list (str * tree) -> list str;
  cannot_write : str -> bool
}.

(** The document that the dump of [tree] makes when every write is made. *)
Definition json_dumps (O : output_env) (tree : list (str * tree)) : str :=
  concat (json_chunks O tree).

(** [save_tree_to_file()]: the tree is built before the file is opened.
    [None] when an exception propagates; a write that cannot be encoded
    leaves in the file, opened with the UTF-8 encoding, what was written
    before it. *)
Definition save_tree_to_file (O : output_env) (output_file : str)
    (summaries : list (str * str)) (files : gmap str str)
  : option unit * gmap str str :=
  match generate_tree_structure summaries with
  | None => (None, files)
  | Some tree =>
      if cannot_write O output_file then (None, files)
      else
        match write_all [] (json_chunks O tree) with
        | Done text => (Some tt, <[output_file := text]> files)
        | Failed text _ => (None, <[output_file := text]> files)
        end
  end.

(** The object that [main] of [code_summarizer.py] constructs: the root
    is [.], the rules are those of [./.gitignore], whose lines are
    [gitignore], and the two numbers come from the configuration. *)
Definition summarizer (max_retries retry_delay : Z)
    (gitignore : option (list str)) : t :=
  {| root_dir := lit ".";
     max_retries := max_retries;
     retry_delay := retry_delay;
     ignore_patterns := _load_gitignore gitignore |}.

(** The [try] block of [main] after the construction:
    [process_directory()] with no summaries yet, then
    [save_tree_to_file()].  [None] when an exception reaches the handlers
    of [main]. *)
Definition summarizer_main (E : env) (O : output_env)
    (max_retries retry_delay : Z) (gitignore : option (list str))
    (fs : fsnode) (files : gmap str str) : option unit * gmap str str :=
  let self := summarizer max_retries retry_delay gitignore in
  match process_directory E self fs initial_world with
  | (Some _, w) => save_tree_to_file O TREE_JSON (summaries w) files
  | (None, _) => (None, files)
  end.

(** [main] of [tree_visualizer.py]. *)
Definition visualizer_main (V : TreeVisualizer.env)
    (w : TreeVisualizer.world) : TreeVisualizer.world :=
  TreeVisualizer.visualize V
    {| TreeVisualizer.json_file := TREE_JSON;
       TreeVisualizer.output_file := TREE_TXT |} w.

End Programs.
(** * Properties *)

Import Spec.

(** ** Strings *)

Lemma startswith_spec (s p : str) :
  startswith s p = true <-> exists rest, s = p ++ rest.
Proof.
  revert s; induction p as [|x p IH]; intros s; simpl.
  - split; [intros _; by exists s | done].
  - destruct s as [|y s].
    + split; [done | intros [rest H]; discriminate].
    + rewrite andb_true_iff, N.eqb_eq, IH. split.
      * intros [-> [rest ->]]. by exists rest.
      * intros [rest H]. injection H as -> ->. eauto.
Qed.

Lemma endswith_spec (s p : str) :
  endswith s p = true <-> exists front, s = front ++ p.
Proof.
  unfold endswith. rewrite startswith_spec. split.
  - intros [rest H]. exists (rev rest).
    rewrite <- (rev_involutive s), H, rev_app_distr.
    by rewrite rev_involutive.
  - intros [front ->]. exists (rev front). apply rev_app_distr.
Qed.

Lemma drop_last_snoc (s : str) (c : char) : drop_last (s ++ [c]) = s.
Proof. apply removelast_last. Qed.

Lemma truthy_true (s : str) : truthy s = true <-> s <> [].
Proof. destruct s; simpl; split; congruence. Qed.

Lemma str_eqb_eq (a b : str) : str_eqb a b = true <-> a = b.
Proof. unfold str_eqb. apply bool_decide_eq_true. Qed.

Lemma str_eqb_refl (a : str) : str_eqb a a = true.
Proof. by apply str_eqb_eq. Qed.

Lemma str_eqb_neq (a b : str) : str_eqb a b = false <-> a <> b.
Proof. unfold str_eqb. apply bool_decide_eq_false. Qed.

(** ** The ignore filter *)

Section IgnoreFilter.

Import CodeSummarizer.

Variable E : env.
Variable self : t.

Lemma pattern_ignores_spec (relative_path pattern : str) :
  pattern_ignores E relative_path pattern = true
  <-> rule_ignores E relative_path pattern.
Proof.
  unfold pattern_ignores, rule_ignores.
  rewrite orb_true_iff, andb_true_iff, endswith_spec, startswith_spec.
  split; (intros [H | H]; [by left | right]).
  - destruct H as [[stem ->] [rest H]]. exists stem. split; [done |].
    exists rest. by rewrite drop_last_snoc in H.
  - destruct H as [stem [-> [rest ->]]]. split; [by exists stem |].
    exists rest. by rewrite drop_last_snoc.
Qed.

Lemma relpath_is_Some (cwd path start : str) :
  path <> [] -> exists rel, posixpath.relpath cwd path start = Some rel.
Proof.
  intros H. unfold posixpath.relpath.
  destruct path; [done |]. simpl.
  match goal with |- context [match ?l with [] => _ | _ => _ end] =>
    destruct l end; eauto.
Qed.

Lemma relpath_None (cwd path start : str) :
  posixpath.relpath cwd path start = None <-> path = [].
Proof.
  split.
  - intros H. destruct path as [|c path]; [done |].
    destruct (relpath_is_Some cwd (c :: path) start) as [rel Hrel]; [done |].
    congruence.
  - by intros ->.
Qed.

Lemma should_ignore_Some (path rel : str) :
  posixpath.relpath (getcwd E) path (root_dir self) = Some rel ->
  _should_ignore E self path
  = Some (existsb (pattern_ignores E rel) (elements (ignore_patterns self))).
Proof. intros H. unfold _should_ignore. by rewrite H. Qed.

Lemma should_ignore_is_Some (path : str) :
  path <> [] -> exists b, _should_ignore E self path = Some b.
Proof.
  intros H. destruct (relpath_is_Some (getcwd E) path (root_dir self) H) as [rel Hrel].
  rewrite (should_ignore_Some _ _ Hrel). eauto.
Qed.

(** C1. For every rule set and every (non-empty) path, [_should_ignore]
    returns, and it returns [True] exactly when the path relative to the
    root glob-matches some rule, or some rule ends with the separator and
    the relative path starts with the rule without that separator. *)
Theorem should_ignore_iff (path : str) :
  path <> [] ->
  exists relative_path b,
    posixpath.relpath (getcwd E) path (root_dir self) = Some relative_path
    /\ _should_ignore E self path = Some b
    /\ (b = true <->
        exists rule, rule ∈ ignore_patterns self
                     /\ rule_ignores E relative_path rule).
Proof.
  intros Hpath.
  destruct (relpath_is_Some (getcwd E) path (root_dir self) Hpath) as [rel Hrel].
  exists rel, (existsb (pattern_ignores E rel) (elements (ignore_patterns self))).
  split; [done |]. split; [by apply should_ignore_Some |].
  rewrite existsb_exists. split.
  - intros [rule [Hin Hrule]]. exists rule. split.
    + apply elem_of_elements. by apply list_elem_of_In.
    + by apply pattern_ignores_spec.
  - intros [rule [Hin Hrule]]. exists rule. split.
    + apply list_elem_of_In. by apply elem_of_elements.
    + by apply pattern_ignores_spec.
Qed.

Lemma load_gitignore_fold (ls : list str) (acc : gset str) (rule : str) :
  rule ∈ fold_left
           (fun ignore_patterns line =>
              let line := strip line in
              if truthy line && negb (startswith line [HASH])
              then ignore_patterns ∪ {[ line ]}
              else ignore_patterns)
           ls acc
  <-> rule ∈ acc
      \/ exists line, In line ls /\ rule = strip line /\ rule <> []
                      /\ startswith rule [HASH] = false.
Proof.
  revert acc. induction ls as [|l ls IH]; intros acc; cbn [fold_left In].
  - split; [intros H; left; exact H | intros [H | (line & [] & _)]; exact H].
  - rewrite IH. destruct (truthy (strip l)) eqn:Ht;
      [destruct (startswith (strip l) [HASH]) eqn:Hs |]; cbn [andb negb]; split.
    + intros [H | (line & Hin & H)]; [by left |]. right. exists line. auto.
    + intros [H | (line & [<- | Hin] & Heq & Hne & Hns)]; [by left | |].
      * subst rule. congruence.
      * right. by exists line.
    + intros [[H | ->%elem_of_singleton]%elem_of_union | (line & Hin & H)].
      * by left.
      * right. exists l. apply truthy_true in Ht. auto.
      * right. exists line. auto.
    + intros [H | (line & [<- | Hin] & Heq & Hne & Hns)].
      * left. apply elem_of_union. by left.
      * left. apply elem_of_union. right. by apply elem_of_singleton.
      * right. by exists line.
    + intros [H | (line & Hin & H)]; [by left |]. right. exists line. auto.
    + intros [H | (line & [<- | Hin] & Heq & Hne & Hns)]; [by left | |].
      * subst rule. apply truthy_true in Hne. congruence.
      * right. by exists line.
Qed.

(** X1. The rules loaded from the ignore file are its lines, trimmed, that are
    neither empty nor comments. *)
Lemma load_gitignore_spec (lines : option (list str)) (rule : str) :
  rule ∈ _load_gitignore lines
  <-> exists ls line,
        lines = Some ls /\ In line ls /\ rule = strip line /\ rule <> []
        /\ startswith rule [HASH] = false.
Proof.
  destruct lines as [ls|]; simpl.
  - rewrite load_gitignore_fold. split.
    + intros [H | (line & H)]; [by apply not_elem_of_empty in H |].
      by exists ls, line.
    + intros (ls' & line & [= <-] & H). right. by exists line.
  - split; [by intros H%not_elem_of_empty | by intros (ls & line & H & _)].
Qed.

End IgnoreFilter.

Lemma should_ignore_iff_witness :
  exists relative_path b,
    posixpath.relpath (lit "/work") (lit "./node_modules/x.js") (lit ".")
    = Some relative_path
    /\ CodeSummarizer._should_ignore Demo.env0 Demo.self0
         (lit "./node_modules/x.js") = Some b
    /\ (b = true <->
        exists rule, rule ∈ CodeSummarizer.ignore_patterns Demo.self0
                     /\ rule_ignores Demo.env0 relative_path rule).
Proof.
  apply (should_ignore_iff Demo.env0 Demo.self0 (lit "./node_modules/x.js")).
  discriminate.
Defined.

(** ** Running the summarizer *)

Section Running.

Import CodeSummarizer.

Context {A B : Type}.

Lemma run_bind (m : M A) (k : A -> M B) (w : world) :
  (m ≫= k) w = match m w with
               | (Some a, w') => k a w'
               | (None, w') => (None, w')
               end.
Proof. reflexivity. Qed.

Lemma run_bind_Some (m : M A) (k : A -> M B) (w w' : world) (a : A) :
  m w = (Some a, w') -> (m ≫= k) w = k a w'.
Proof. intros H. by rewrite run_bind, H. Qed.

Lemma run_bind_None (m : M A) (k : A -> M B) (w w' : world) :
  m w = (None, w') -> (m ≫= k) w = (None, w').
Proof. intros H. by rewrite run_bind, H. Qed.

End Running.

Lemma run_emit (e : CodeSummarizer.event) (w : CodeSummarizer.world) :
  CodeSummarizer.emit e w = (Some tt, after w 0 [e]).
Proof. unfold CodeSummarizer.emit, after. by rewrite Nat.add_0_r. Qed.

Lemma after_after (w : CodeSummarizer.world) n m evs evs' :
  after (after w n evs) m evs' = after w (n + m) (evs ++ evs').
Proof. unfold after; simpl. f_equal; [lia | by rewrite app_assoc]. Qed.

Lemma after_nothing (w : CodeSummarizer.world) : after w 0 [] = w.
Proof.
  destruct w. unfold after; simpl. by rewrite Nat.add_0_r, app_nil_r.
Qed.

(** ** Bounded retry *)

Section Retry.

Import CodeSummarizer.

Variable E : env.
Variable self : t.
Hypothesis Hdelay : delay_accepted E self.

Lemma run_request (file_path content : str) (w : world) :
  request E file_path content w
  = (Some (chat E (api_calls w) file_path content),
     after w 1 [EvRequest file_path content]).
Proof. unfold request, after. by rewrite Nat.add_1_r. Qed.

Lemma run_sleep (w : world) :
  sleep E (retry_delay self) w
  = (Some tt, after w 0 [EvSleep (retry_delay self)]).
Proof.
  destruct Hdelay as [Hpos Hok]. unfold sleep. rewrite Hok.
  destruct (Z.ltb_spec (retry_delay self) 0); [lia |].
  apply run_emit.
Qed.

(** One iteration, by the outcome of its request. *)
Lemma run_attempt_body (attempt : Z) (content file_path : str) (w : world) :
  attempt_body E self attempt content file_path w
  = match chat E (api_calls w) file_path content with
    | ApiError =>
        if (attempt <? max_retries self - 1)%Z
        then (Some Continue,
              after w 1 [EvRequest file_path content; EvLogApiFailed;
                         EvSleep (retry_delay self)])
        else (Some (Return None),
              after w 1 [EvRequest file_path content; EvLogApiFailed])
    | ApiContent reply =>
        if truthy (strip reply)
        then (Some (Return (Some (strip reply))),
              after w 1 [EvRequest file_path content])
        else (Some Continue,
              after w 1 [EvRequest file_path content;
                         EvLogEmptySummary (attempt + 1);
                         EvSleep (retry_delay self)])
    end.
Proof.
  unfold attempt_body, try_except. rewrite run_bind, run_request.
  cbv beta iota.
  destruct (chat E (api_calls w) file_path content) as [|reply].
  - unfold raise at 1. rewrite run_bind, run_emit, after_after.
    cbv beta iota. destruct (attempt <? max_retries self - 1)%Z; [|done].
    by rewrite run_bind, run_sleep, after_after.
  - destruct (truthy (strip reply)); [done |].
    rewrite run_bind, run_emit, after_after. cbv beta iota.
    by rewrite run_bind, run_sleep, after_after.
Qed.

(** The attempts [a, a+1, ..., a+n-1] with [a + n = max_retries], all of
    them failing. *)
Lemma attempt_loop_all_fail (content file_path : str) (n a : nat) (w : world) :
  (Z.of_nat (a + n) = max_retries self \/ n = 0) ->
  (forall k, k < n ->
     failed (chat E (api_calls w + k) file_path content) = true) ->
  exists evs tail,
    attempt_loop E self (List.map Z.of_nat (seq a n)) content file_path w
    = (Some None, after w n evs)
    /\ length (List.filter is_request evs) = n
    /\ (tail = [] \/ tail = [EvSleep (retry_delay self)])
    /\ List.filter is_request_or_sleep evs
       = spaced n (EvRequest file_path content) (EvSleep (retry_delay self))
         ++ tail.
Proof.
  revert a w. induction n as [|n IH]; intros a w Hmax Hfail.
  - exists [], []. simpl. rewrite after_nothing. auto.
  - destruct Hmax as [Hmax|]; [|done].
    cbn [seq List.map attempt_loop]. rewrite run_bind, run_attempt_body.
    pose proof (Hfail 0 ltac:(lia)) as H0. rewrite Nat.add_0_r in H0.
    assert (forall evs0,
              exists evs tail,
                attempt_loop E self (List.map Z.of_nat (seq (S a) n))
                  content file_path (after w 1 evs0)
                = (Some None, after (after w 1 evs0) n evs)
                /\ length (List.filter is_request evs) = n
                /\ (tail = [] \/ tail = [EvSleep (retry_delay self)])
                /\ List.filter is_request_or_sleep evs
                   = spaced n (EvRequest file_path content)
                            (EvSleep (retry_delay self)) ++ tail) as Hnext.
    { intros evs0. apply IH.
      - destruct n; [by right | left; lia].
      - intros k Hk. simpl.
        replace (api_calls w + 1 + k) with (api_calls w + S k) by lia.
        apply Hfail. lia. }
    destruct (chat E (api_calls w) file_path content) as [|reply]; simpl in H0.
    + destruct (Z.ltb_spec (Z.of_nat a) (max_retries self - 1)) as [Hlt|Hge].
      * destruct (Hnext [EvRequest file_path content; EvLogApiFailed;
                         EvSleep (retry_delay self)])
          as (evs1 & tail1 & Hrun1 & Hlen1 & Htail1 & Hfilter1).
        cbv beta iota. rewrite Hrun1, after_after.
        exists ([EvRequest file_path content; EvLogApiFailed;
                 EvSleep (retry_delay self)] ++ evs1), tail1.
        split; [done |]. simpl. rewrite Hlen1, Hfilter1.
        destruct n as [|n]; [lia |]. auto.
      * assert (n = 0) as -> by lia.
        exists [EvRequest file_path content; EvLogApiFailed], [].
        simpl. auto.
    + apply negb_true_iff in H0. rewrite H0. cbv beta iota.
      destruct n as [|n].
      * exists [EvRequest file_path content; EvLogEmptySummary (Z.of_nat a + 1);
                EvSleep (retry_delay self)], [EvSleep (retry_delay self)].
        simpl. auto.
      * destruct (Hnext [EvRequest file_path content;
                         EvLogEmptySummary (Z.of_nat a + 1);
                         EvSleep (retry_delay self)])
          as (evs2 & tail2 & Hrun2 & Hlen2 & Htail2 & Hfilter2).
        rewrite Hrun2, after_after.
        exists ([EvRequest file_path content; EvLogEmptySummary (Z.of_nat a + 1);
                 EvSleep (retry_delay self)] ++ evs2), tail2.
        split; [done |]. simpl. rewrite Hlen2, Hfilter2. auto.
Qed.

End Retry.

(** With a negative delay, a request that raises before the last attempt
    makes [time.sleep] raise inside the handler, and the exception leaves
    [get_code_summary]. *)
Lemma negative_delay_raises (E : CodeSummarizer.env) (self : CodeSummarizer.t)
    (content file_path : str) (w : CodeSummarizer.world) :
  (CodeSummarizer.retry_delay self < 0)%Z ->
  (1 < CodeSummarizer.max_retries self)%Z ->
  CodeSummarizer.chat E (CodeSummarizer.api_calls w) file_path content
  = CodeSummarizer.ApiError ->
  CodeSummarizer.get_code_summary E self content file_path w
  = (None, after w 1 [CodeSummarizer.EvRequest file_path content;
                      CodeSummarizer.EvLogApiFailed]).
Proof.
  intros Hneg Hmax Hchat.
  unfold CodeSummarizer.get_code_summary, CodeSummarizer.range.
  destruct (Z.to_nat (CodeSummarizer.max_retries self)) as [|n] eqn:Hn; [lia |].
  cbn [seq List.map CodeSummarizer.attempt_loop]. rewrite run_bind.
  unfold CodeSummarizer.attempt_body, CodeSummarizer.try_except.
  rewrite run_bind, run_request, Hchat.
  cbv beta iota. unfold CodeSummarizer.raise at 1.
  rewrite run_bind, run_emit, after_after.
  cbv beta iota.
  destruct (Z.ltb_spec (Z.of_nat 0) (CodeSummarizer.max_retries self - 1))
    as [_ | Hge];
    [| simpl in Hge; lia].
  rewrite run_bind. unfold CodeSummarizer.sleep.
  destruct (Z.ltb_spec (CodeSummarizer.retry_delay self) 0) as [_ | Hge];
    [done | lia].
Qed.


(** ** One file of the traversal *)

Section OneFile.

Import CodeSummarizer.

Variable E : env.
Variable self : t.
Hypothesis Hdelay : delay_accepted E self.

Lemma run_read_file_content_Some (file_path content : str) (w : world) :
  open_read E file_path = Some content ->
  read_file_content E file_path w = (Some (Some content), after w 0 [EvOpen file_path]).
Proof.
  intros H. unfold read_file_content.
  rewrite (run_bind_Some _ _ _ _ _ (run_emit _ _)). by rewrite H.
Qed.

Lemma run_read_file_content_None (file_path : str) (w : world) :
  open_read E file_path = None ->
  read_file_content E file_path w
  = (Some None, after w 0 [EvOpen file_path; EvLogReadFailed file_path]).
Proof.
  intros H. unfold read_file_content.
  rewrite (run_bind_Some _ _ _ _ _ (run_emit _ _)). rewrite H.
  rewrite (run_bind_Some _ _ _ _ _ (run_emit _ _)). by rewrite after_after.
Qed.

(** A file that is not a candidate leaves no mark. *)
Lemma process_file_not_candidate (root file : str) (ignored : bool) (w : world) :
  _should_ignore E self (posixpath.join2 root file) = Some ignored ->
  negb ignored && is_text_file E (posixpath.join2 root file) = false ->
  process_file E self root file w = (Some tt, w).
Proof.
  intros Hign Hcand. unfold process_file. rewrite Hign. simpl.
  rewrite run_bind. simpl. by rewrite Hcand.
Qed.

(** A candidate is announced and opened before anything else happens. *)
Lemma process_file_candidate (root file : str) (w : world) :
  let file_path := posixpath.join2 root file in
  _should_ignore E self file_path = Some false ->
  is_text_file E file_path = true ->
  process_file E self root file w
  = (content ← read_file_content E file_path;
     match content with
     | Some content =>
         if truthy content then
           summary ← get_code_summary E self content file_path;
           match summary with
           | Some summary =>
               if truthy summary then
                 relative_path ←
                   lift_option (posixpath.relpath (getcwd E) file_path
                                                  (root_dir self));
                 record_summary relative_path summary
               else mret tt
           | None => mret tt
           end
         else mret tt
     | None => mret tt
     end) (after w 0 [EvLogProcessing file_path]).
Proof.
  intros file_path Hign Htext. unfold process_file. fold file_path.
  rewrite Hign. simpl. rewrite run_bind. simpl. rewrite Htext. simpl.
  by rewrite (run_bind_Some _ _ _ _ _ (run_emit _ _)).
Qed.

(** A delay that [time.sleep] does not accept makes every sleep raise. *)
Lemma sleep_refused (w : world) :
  ~ delay_accepted E self -> sleep E (retry_delay self) w = (None, w).
Proof.
  clear Hdelay. intros Hrefused. unfold sleep.
  destruct (Z.ltb_spec (retry_delay self) 0) as [|Hpos]; [done |].
  destruct (sleep_accepts E (retry_delay self)) eqn:Haccepts; [| done].
  exfalso. apply Hrefused. by split.
Qed.

(** The attempts of [get_code_summary], all of them failing, when at most
    one is allowed or [time.sleep] accepts the delay. *)
Lemma get_code_summary_all_fail (content file_path : str) (w : world) :
  let n := Z.to_nat (max_retries self) in
  (max_retries self <= 1)%Z \/ delay_accepted E self ->
  (forall k, k < n ->
     failed (chat E (api_calls w + k) file_path content) = true) ->
  exists evs tail,
    get_code_summary E self content file_path w = (Some None, after w n evs)
    /\ length (List.filter is_request evs) = n
    /\ (tail = [] \/ tail = [EvSleep (retry_delay self)])
    /\ List.filter is_request_or_sleep evs
       = spaced n (EvRequest file_path content) (EvSleep (retry_delay self))
         ++ tail.
Proof.
  clear Hdelay. intros n [Hfew | Haccepted] Hfail.
  2: { apply (attempt_loop_all_fail E self Haccepted content file_path n 0 w);
         [| exact Hfail].
       destruct (Z.le_gt_cases 0 (max_retries self)).
       - left. unfold n. lia.
       - right. unfold n. lia. }
  unfold get_code_summary, range. subst n.
  destruct (Z.to_nat (max_retries self)) as [|[|m]] eqn:Hn; [| | lia].
  { exists [], []. simpl. rewrite after_nothing. auto. }
  assert (max_retries self = 1%Z) as Hmax by lia.
  pose proof (Hfail 0 ltac:(lia)) as H0. rewrite Nat.add_0_r in H0.
  cbn [seq List.map attempt_loop]. rewrite run_bind.
  unfold attempt_body, try_except. rewrite run_bind, run_request.
  cbv beta iota. rewrite Hmax.
  change (Z.of_nat 0 <? 1 - 1)%Z with false.
  destruct (chat E (api_calls w) file_path content) as [|reply];
    simpl in H0.
  - unfold raise at 1. rewrite run_bind, run_emit, after_after.
    cbv beta iota.
    exists [EvRequest file_path content; EvLogApiFailed], []. simpl. auto.
  - apply negb_true_iff in H0. rewrite H0.
    rewrite run_bind, run_emit, after_after. cbv beta iota.
    change (1 + 0) with 1. rewrite run_bind.
    destruct (sleep E (retry_delay self)
                (after w 1 ([EvRequest file_path content]
                            ++ [EvLogEmptySummary (Z.of_nat 0 + 1)])))
      as [[[]|] w1] eqn:Hsleep.
    + unfold sleep in Hsleep.
      destruct (retry_delay self <? 0)%Z; [discriminate |].
      destruct (sleep_accepts E (retry_delay self)); [| discriminate].
      rewrite run_emit, after_after in Hsleep. injection Hsleep as <-.
      cbv beta iota.
      exists [EvRequest file_path content; EvLogEmptySummary (Z.of_nat 0 + 1);
              EvSleep (retry_delay self)], [EvSleep (retry_delay self)].
      simpl. auto.
    + assert (w1 = after w 1 ([EvRequest file_path content]
                              ++ [EvLogEmptySummary (Z.of_nat 0 + 1)]))
        as ->.
      { unfold sleep in Hsleep.
        destruct (retry_delay self <? 0)%Z; [by injection Hsleep |].
        destruct (sleep_accepts E (retry_delay self));
          [| by injection Hsleep].
        by rewrite run_emit in Hsleep. }
      rewrite run_bind, run_emit, after_after. cbv beta iota.
      exists [EvRequest file_path content; EvLogEmptySummary (Z.of_nat 0 + 1);
              EvLogApiFailed], [].
      simpl. auto.
Qed.

(** With more than one attempt allowed and a delay that [time.sleep] does
    not accept, the first failed attempt raises out of [get_code_summary]:
    the handler sleeps before the next attempt. *)
Lemma get_code_summary_delay_refused (content file_path : str) (w : world) :
  (1 < max_retries self)%Z ->
  ~ delay_accepted E self ->
  failed (chat E (api_calls w) file_path content) = true ->
  exists evs,
    get_code_summary E self content file_path w = (None, after w 1 evs)
    /\ List.filter is_request_or_sleep evs = [EvRequest file_path content].
Proof.
  clear Hdelay. intros Hmax Hrefused Hfail.
  unfold get_code_summary, range.
  destruct (Z.to_nat (max_retries self)) as [|n] eqn:Hn; [lia |].
  cbn [seq List.map attempt_loop]. rewrite run_bind.
  unfold attempt_body, try_except. rewrite run_bind, run_request.
  cbv beta iota.
  assert (forall evs0,
            (emit EvLogApiFailed;;
             if (Z.of_nat 0 <? max_retries self - 1)%Z
             then sleep E (retry_delay self);; mret Continue
             else mret (Return None)) (after w 1 evs0)
            = (None : option (control (option str)),
               after w 1 (evs0 ++ [EvLogApiFailed]))) as Hhandler.
  { intros evs0. rewrite run_bind, run_emit, after_after. cbv beta iota.
    destruct (Z.ltb_spec (Z.of_nat 0) (max_retries self - 1)) as [_ | Hge];
      [| simpl in Hge; lia].
    by rewrite run_bind, sleep_refused. }
  destruct (chat E (api_calls w) file_path content) as [|reply];
    simpl in Hfail.
  - unfold raise at 1. rewrite Hhandler. by eexists.
  - apply negb_true_iff in Hfail. rewrite Hfail.
    rewrite run_bind, run_emit, after_after. cbv beta iota.
    change (1 + 0) with 1. rewrite run_bind, sleep_refused by done.
    rewrite Hhandler. by eexists.
Qed.

(** C4, as the code has it. Let every attempt for a candidate file fail (the
    request raises or the reply is blank).  When at most one attempt is
    allowed, or the delay is a length that [time.sleep] accepts,
    [get_code_summary] sends exactly [max_retries] requests (none when
    [max_retries] is negative), sleeps [retry_delay] between consecutive
    requests, and returns [None]; the file gets no entry in [summaries],
    nothing is raised, and the loop over the files of the directory goes on
    with the next file.  Otherwise the sleep that follows the first failed
    attempt raises: one request is sent, and the exception leaves the loop
    over the files. *)
Theorem retries_exhausted_file_skipped
    (root file content : str) (w : world) :
  let file_path := posixpath.join2 root file in
  let n := Z.to_nat (max_retries self) in
  _should_ignore E self file_path = Some false ->
  is_text_file E file_path = true ->
  open_read E file_path = Some content ->
  content <> [] ->
  (forall k, k < n ->
     failed (chat E (api_calls w + k) file_path content) = true) ->
  ((max_retries self <= 1)%Z \/ delay_accepted E self ->
   exists evs tail w',
     get_code_summary E self content file_path
       (after w 0 [EvLogProcessing file_path; EvOpen file_path])
     = (Some None, w')
     /\ w' = after w n ([EvLogProcessing file_path; EvOpen file_path] ++ evs)
     /\ Z.of_nat (length (List.filter is_request evs))
        = Z.max 0 (max_retries self)
     /\ (tail = [] \/ tail = [EvSleep (retry_delay self)])
     /\ List.filter is_request_or_sleep evs
        = spaced n (EvRequest file_path content) (EvSleep (retry_delay self))
          ++ tail
     /\ summaries w' = summaries w
     /\ process_file E self root file w = (Some tt, w')
     /\ forall rest,
          for_each (file :: rest) (process_file E self root) w
          = for_each rest (process_file E self root) w')
  /\ ((1 < max_retries self)%Z -> ~ delay_accepted E self ->
      exists evs w',
        w' = after w 1 ([EvLogProcessing file_path; EvOpen file_path] ++ evs)
        /\ List.filter is_request_or_sleep evs = [EvRequest file_path content]
        /\ process_file E self root file w = (None, w')
        /\ forall rest,
             for_each (file :: rest) (process_file E self root) w
             = (None, w')).
Proof.
  clear Hdelay. intros file_path n Hign Htext Hread Hcontent Hfail.
  assert (truthy content = true) as Htruthy by (by apply truthy_true).
  assert (forall r w',
            get_code_summary E self content file_path
              (after w 0 [EvLogProcessing file_path; EvOpen file_path])
            = (r, w') ->
            r <> Some (Some []) ->
            (forall s, r <> Some (Some s)) ->
            process_file E self root file w
            = (match r with Some _ => Some tt | None => None end, w'))
    as Hfile.
  { intros r w' Hrun _ Hnone.
    rewrite process_file_candidate by done. fold file_path.
    rewrite (run_bind_Some _ _ _ _ _
               (run_read_file_content_Some _ _ _ Hread)).
    rewrite after_after. simpl. rewrite Htruthy.
    rewrite run_bind, Hrun.
    destruct r as [[s|]|]; [by destruct (Hnone s) | done | done]. }
  split.
  - intros Hcondition.
    destruct (get_code_summary_all_fail content file_path
                (after w 0 [EvLogProcessing file_path; EvOpen file_path])
                Hcondition)
      as (evs & tail & Hrun & Hlen & Htail & Hfilter).
    { intros k Hk. simpl. rewrite Nat.add_0_r. by apply Hfail. }
    rewrite after_after in Hrun. simpl in Hrun. fold n in Hrun.
    pose proof (Hfile _ _ Hrun ltac:(done) ltac:(done)) as Hprocess.
    exists evs, tail,
      (after w n ([EvLogProcessing file_path; EvOpen file_path] ++ evs)).
    split; [exact Hrun |]. split; [done |].
    split; [rewrite Hlen; unfold n; lia |].
    split; [done |]. split; [done |]. split; [done |]. split; [done |].
    intros rest. simpl. by rewrite (run_bind_Some _ _ _ _ _ Hprocess).
  - intros Hmax Hrefused.
    destruct (get_code_summary_delay_refused content file_path
                (after w 0 [EvLogProcessing file_path; EvOpen file_path])
                Hmax Hrefused)
      as (evs & Hrun & Hfilter).
    { pose proof (Hfail 0 ltac:(unfold n; lia)) as H0.
      simpl. by rewrite Nat.add_0_r in *. }
    rewrite after_after in Hrun. simpl in Hrun.
    pose proof (Hfile _ _ Hrun ltac:(done) ltac:(done)) as Hprocess.
    exists evs,
      (after w 1 ([EvLogProcessing file_path; EvOpen file_path] ++ evs)).
    split; [done |]. split; [done |]. split; [exact Hprocess |].
    intros rest. cbn [for_each]. by rewrite run_bind, Hprocess.
Qed.

(** C9. A candidate file that reads as the empty string is announced and
    opened, and nothing more: no request is sent and [summaries] is left as
    it was, as when the read raises, where only the error record is added
    to the log. *)
Theorem empty_file_skipped (root file : str) (w : world) :
  let file_path := posixpath.join2 root file in
  _should_ignore E self file_path = Some false ->
  is_text_file E file_path = true ->
  open_read E file_path = Some [] ->
  process_file E self root file w
  = (Some tt, after w 0 [EvLogProcessing file_path; EvOpen file_path])
  /\ process_file (with_read_failure E file_path) self root file w
     = (Some tt, after w 0 [EvLogProcessing file_path; EvOpen file_path;
                            EvLogReadFailed file_path]).
Proof.
  intros file_path Hign Htext Hread. split.
  - rewrite process_file_candidate by done. fold file_path.
    rewrite (run_bind_Some _ _ _ _ _
               (run_read_file_content_Some _ _ _ Hread)).
    by rewrite after_after.
  - unfold process_file. fold file_path.
    change (_should_ignore (with_read_failure E file_path) self file_path)
      with (_should_ignore E self file_path).
    change (is_text_file (with_read_failure E file_path) file_path)
      with (is_text_file E file_path).
    rewrite Hign. simpl. rewrite run_bind. simpl. rewrite Htext. simpl.
    rewrite run_bind, run_emit. cbv beta iota.
    unfold read_file_content.
    rewrite run_bind, run_bind, run_emit. cbv beta iota.
    unfold with_read_failure; cbn [open_read].
    rewrite str_eqb_refl.
    rewrite run_bind, run_emit. cbv beta iota. simpl.
    by rewrite !after_after.
Qed.

End OneFile.

(** ** What a run leaves in the trace *)

Section Effects.

Import CodeSummarizer.

Variable E : env.
Variable self : t.
Hypothesis Hdelay : delay_accepted E self.

Lemma trace_after (w : world) n evs : trace (after w n evs) = trace w ++ evs.
Proof. reflexivity. Qed.

Lemma summaries_after (w : world) n evs : summaries (after w n evs) = summaries w.
Proof. reflexivity. Qed.

Ltac file_events :=
  simpl;
  repeat (apply List.Forall_cons; [simpl; auto |]);
  first [apply List.Forall_nil | assumption].

Lemma attempt_loop_effects (attempts : list Z) (content file_path : str) (w : world) :
  exists r w' evs,
    attempt_loop E self attempts content file_path w = (Some r, w')
    /\ trace w' = trace w ++ evs
    /\ summaries w' = summaries w
    /\ Forall (file_event file_path) evs
    /\ skeleton evs = [].
Proof.
  revert w. induction attempts as [|attempt rest IH]; intros w.
  - exists None, w, []. simpl. by rewrite app_nil_r.
  - cbn [attempt_loop]. rewrite run_bind, (run_attempt_body E self Hdelay).
    assert (forall evs0,
              Forall (file_event file_path) evs0 -> skeleton evs0 = [] ->
              exists r w' evs,
                attempt_loop E self rest content file_path (after w 1 evs0)
                = (Some r, w')
                /\ trace w' = trace w ++ evs
                /\ summaries w' = summaries w
                /\ Forall (file_event file_path) evs
                /\ skeleton evs = []) as Hnext.
    { intros evs0 Hall0 Hskel0.
      destruct (IH (after w 1 evs0))
        as (r & w' & evs & Hrun & Htrace & Hsum & Hall & Hskel).
      exists r, w', (evs0 ++ evs). split; [exact Hrun |]. split.
      { rewrite Htrace, trace_after. by rewrite <- app_assoc. }
      split; [by rewrite Hsum |]. split; [by apply Forall_app |].
      unfold skeleton in *. by rewrite List.filter_app, Hskel0, Hskel. }
    destruct (chat E (api_calls w) file_path content) as [|reply].
    + destruct (attempt <? max_retries self - 1)%Z; cbv beta iota.
      * apply Hnext; [file_events | done].
      * eexists None, _, [EvRequest file_path content; EvLogApiFailed].
        split; [reflexivity |]. split; [reflexivity |]. split; [done |].
        split; [file_events | done].
    + destruct (truthy (strip reply)); cbv beta iota.
      * eexists (Some (strip reply)), _, [EvRequest file_path content].
        split; [reflexivity |]. split; [reflexivity |]. split; [done |].
        split; [file_events | done].
      * apply Hnext; [file_events | done].
Qed.

Lemma dict_set_In {V} (d : list (str * V)) k v kv :
  In kv (dict_set d k v) -> kv = (k, v) \/ In kv d.
Proof.
  induction d as [|[k' v'] d IH]; simpl.
  - intros [<- | []]. by left.
  - destruct (str_eqb k' k); simpl.
    + intros [<- | H]; auto.
    + intros [<- | H]; auto. destruct (IH H); auto.
Qed.

Lemma join2_nonempty (a b : str) : a <> [] -> posixpath.join2 a b <> [].
Proof.
  intros Ha. unfold posixpath.join2.
  destruct (startswith b posixpath.sep) eqn:Hb.
  - destruct b; [done | done].
  - destruct (negb (truthy a) || endswith a posixpath.sep);
      destruct a; simpl; congruence.
Qed.

Lemma kept_true (path : str) :
  kept E self path = true <-> _should_ignore E self path = Some false.
Proof. unfold kept. apply bool_decide_eq_true. Qed.

(** What processing one file leaves. *)
Lemma process_file_effects (root file : str) (w : world) :
  let file_path := posixpath.join2 root file in
  file_path <> [] ->
  exists w' evs,
    process_file E self root file w = (Some tt, w')
    /\ trace w' = trace w ++ evs
    /\ skeleton evs
       = List.map EvLogProcessing (List.filter (candidate E self) [file_path])
    /\ Forall (file_event file_path) evs
    /\ keys_announced E self w w' evs
    /\ (candidate E self file_path = false -> w' = w)
    /\ (candidate E self file_path = true ->
        exists evs', evs = EvLogProcessing file_path :: EvOpen file_path :: evs').
Proof.
  intros file_path Hne.
  destruct (should_ignore_is_Some E self file_path Hne) as [ignored Hign].
  destruct (negb ignored && is_text_file E file_path) eqn:Hcand.
  - apply andb_true_iff in Hcand as [Hi Htext].
    apply negb_true_iff in Hi. subst ignored.
    assert (candidate E self file_path = true) as Hc.
    { unfold candidate. rewrite Htext, andb_true_r. by apply kept_true. }
    rewrite process_file_candidate by done. fold file_path.
    simpl. rewrite Hc. simpl.
    unfold read_file_content. rewrite run_bind, run_bind, run_emit, after_after.
    cbv beta iota.
    destruct (open_read E file_path) as [content|].
    + cbv beta iota. unfold mret at 1, M_ret at 1, ret at 1. cbv beta iota.
      destruct (truthy content).
      * unfold get_code_summary. rewrite run_bind.
        destruct (attempt_loop_effects (range (max_retries self)) content file_path
                    (after w (0 + 0) ([EvLogProcessing file_path] ++ [EvOpen file_path])))
          as (r & w1 & evs & Hrun & Htrace & Hsum & Hall & Hskel).
        rewrite Hrun. cbv beta iota.
        assert (trace w1 = trace w ++ EvLogProcessing file_path :: EvOpen file_path :: evs)
          as Htrace'.
        { rewrite Htrace, trace_after. simpl. by rewrite <- app_assoc. }
        assert (Forall (file_event file_path)
                  (EvLogProcessing file_path :: EvOpen file_path :: evs)) as Hall'.
        { file_events. }
        assert (skeleton (EvLogProcessing file_path :: EvOpen file_path :: evs)
                = [EvLogProcessing file_path]) as Hskel'.
        { unfold skeleton in *. simpl. by rewrite Hskel. }
        destruct r as [summary|].
        -- destruct (truthy summary).
           ++ destruct (relpath_is_Some (getcwd E) file_path (root_dir self) Hne)
                as [rel Hrel].
              rewrite run_bind, Hrel. simpl.
              eexists _, (EvLogProcessing file_path :: EvOpen file_path :: evs).
              split; [reflexivity |]. split; [exact Htrace' |].
              split; [exact Hskel' |]. split; [exact Hall' |].
              split; [| split; [congruence | eauto]].
              intros kv Hin. simpl in Hin. apply dict_set_In in Hin as [-> | Hin].
              ** right. exists file_path. split; [by left | done].
              ** left. rewrite Hsum in Hin. exact Hin.
           ++ exists w1, (EvLogProcessing file_path :: EvOpen file_path :: evs).
              split; [reflexivity |]. split; [exact Htrace' |].
              split; [exact Hskel' |]. split; [exact Hall' |].
              split; [| split; [congruence | eauto]].
              intros kv Hin. left. rewrite Hsum in Hin. exact Hin.
        -- exists w1, (EvLogProcessing file_path :: EvOpen file_path :: evs).
           split; [reflexivity |]. split; [exact Htrace' |].
           split; [exact Hskel' |]. split; [exact Hall' |].
           split; [| split; [congruence | eauto]].
           intros kv Hin. left. rewrite Hsum in Hin. exact Hin.
      * eexists _, [EvLogProcessing file_path; EvOpen file_path].
        split; [reflexivity |]. split; [reflexivity |]. split; [done |].
        split; [file_events |].
        split; [| split; [congruence | eauto]].
        intros kv Hin. by left.
    + rewrite run_bind, run_emit, after_after. cbv beta iota.
      eexists _, [EvLogProcessing file_path; EvOpen file_path;
                  EvLogReadFailed file_path].
      split; [reflexivity |]. split; [reflexivity |]. split; [done |].
      split; [file_events |].
      split; [| split; [congruence | eauto]].
      intros kv Hin. by left.
  - assert (candidate E self file_path = false) as Hc.
    { unfold candidate. apply andb_false_iff in Hcand as [Hi | Ht].
      - apply negb_false_iff in Hi. subst ignored.
        apply andb_false_iff. left. unfold kept.
        apply bool_decide_eq_false. congruence.
      - apply andb_false_iff. by right. }
    rewrite (process_file_not_candidate E self root file ignored w Hign Hcand).
    exists w, []. simpl. rewrite Hc, app_nil_r.
    split; [done |]. split; [done |]. split; [done |]. split; [constructor |].
    split; [| split; [done | congruence]].
    intros kv Hin. by left.
Qed.

End Effects.

(** ** The walk *)

Section Walk.

Import CodeSummarizer.

Variable E : env.
Variable self : t.
Hypothesis Hdelay : delay_accepted E self.

Lemma fsnode_induction (P : fsnode -> Prop) :
  (forall name, P (FsFile name)) ->
  (forall name entries, Forall P entries -> P (FsDir name entries)) ->
  forall node, P node.
Proof.
  intros Hfile Hdir. fix IH 1. intros [name | name entries].
  - apply Hfile.
  - apply Hdir. induction entries as [|e entries IHentries].
    + constructor.
    + constructor; [apply IH | exact IHentries].
Qed.

Lemma skeleton_app (a b : list event) : skeleton (a ++ b) = skeleton a ++ skeleton b.
Proof. unfold skeleton. apply List.filter_app. Qed.

Lemma accounted_app (a b : list event) :
  accounted a -> accounted b -> accounted (a ++ b).
Proof.
  unfold accounted. intros Ha Hb. apply Forall_app. split.
  - eapply List.Forall_impl; [|exact Ha]. simpl. intros e He p Hp.
    destruct (He p Hp); [by left | right]; apply in_or_app; auto.
  - eapply List.Forall_impl; [|exact Hb]. simpl. intros e He p Hp.
    destruct (He p Hp); [by left | right]; apply in_or_app; auto.
Qed.

Lemma keys_announced_refl (w : world) : keys_announced E self w w [].
Proof. intros kv Hin. by left. Qed.

Lemma keys_announced_trans (w w1 w2 : world) (a b : list event) :
  keys_announced E self w w1 a -> keys_announced E self w1 w2 b ->
  keys_announced E self w w2 (a ++ b).
Proof.
  intros Ha Hb kv Hin. destruct (Hb kv Hin) as [H1 | (p & Hp & Hrel)].
  - destruct (Ha kv H1) as [H0 | (p & Hp & Hrel)]; [by left |].
    right. exists p. split; [apply in_or_app; auto | done].
  - right. exists p. split; [apply in_or_app; auto | done].
Qed.

Lemma keys_announced_same (w w' : world) (evs : list event) :
  summaries w' = summaries w -> keys_announced E self w w' evs.
Proof. intros H kv Hin. left. by rewrite <- H. Qed.

(** The events of one file are accounted for by its selection. *)
Lemma file_events_accounted (file_path : str) (evs' : list event) :
  Forall (file_event file_path) (EvLogProcessing file_path :: evs') ->
  accounted (EvLogProcessing file_path :: evs').
Proof.
  intros Hall. unfold accounted.
  eapply List.Forall_impl; [|exact Hall]. simpl.
  intros e He p Hp. right.
  destruct e; simpl in *; try done;
    destruct He as [He | He]; try congruence;
    injection He as ->; injection Hp as ->; by left.
Qed.

Lemma process_files_effects (root : str) (files : list str) (w : world) :
  root <> [] ->
  exists w' evs,
    for_each files (process_file E self root) w = (Some tt, w')
    /\ trace w' = trace w ++ evs
    /\ skeleton evs
       = List.map EvLogProcessing
           (List.filter (candidate E self)
                        (List.map (posixpath.join2 root) files))
    /\ accounted evs
    /\ keys_announced E self w w' evs.
Proof.
  intros Hroot. revert w. induction files as [|file files IH]; intros w.
  - exists w, []. simpl. rewrite app_nil_r.
    split; [done |]. split; [done |]. split; [done |].
    split; [constructor | apply keys_announced_refl].
  - destruct (process_file_effects E self Hdelay root file w (join2_nonempty _ _ Hroot))
      as (w1 & evs1 & Hrun1 & Htrace1 & Hskel1 & Hall1 & Hkeys1 & Hno & Hyes).
    destruct (IH w1) as (w2 & evs2 & Hrun2 & Htrace2 & Hskel2 & Hacc2 & Hkeys2).
    exists w2, (evs1 ++ evs2). simpl.
    rewrite run_bind, Hrun1. cbv beta iota.
    split; [exact Hrun2 |].
    split; [by rewrite Htrace2, Htrace1, <- app_assoc |].
    split.
    { rewrite skeleton_app, Hskel1, Hskel2. simpl.
      destruct (candidate E self (posixpath.join2 root file)); by simpl. }
    split; [| by eapply keys_announced_trans].
    apply accounted_app; [|exact Hacc2].
    destruct (candidate E self (posixpath.join2 root file)) eqn:Hc.
    + destruct (Hyes eq_refl) as [evs' ->].
      by apply file_events_accounted.
    + rewrite (Hno eq_refl) in Htrace1.
      assert (evs1 = []) as ->.
      { apply (app_inv_head (trace w)). by rewrite app_nil_r. }
      constructor.
Qed.

Lemma filter_m_dirs (top : str) (dirs : list str) :
  top <> [] ->
  filter_m (fun d => negb <$> _should_ignore E self (posixpath.join2 top d)) dirs
  = Some (List.filter (fun d => kept E self (posixpath.join2 top d)) dirs).
Proof.
  intros Htop. induction dirs as [|d dirs IH]; [done |].
  simpl. rewrite IH.
  destruct (should_ignore_is_Some E self (posixpath.join2 top d)
              (join2_nonempty _ _ Htop)) as [b Hb].
  rewrite Hb. simpl.
  assert (kept E self (posixpath.join2 top d) = negb b) as ->; [|done].
  unfold kept. rewrite Hb. by destruct b.
Qed.

Lemma walk_body_effects (top : str) (dirs files : list str) (w : world) :
  top <> [] ->
  exists w' evs,
    walk_body E self top dirs files w
    = (Some (List.filter (fun d => kept E self (posixpath.join2 top d)) dirs), w')
    /\ trace w' = trace w ++ evs
    /\ skeleton evs
       = List.map EvLogProcessing
           (List.filter (candidate E self)
                        (List.map (posixpath.join2 top) files))
    /\ accounted evs
    /\ keys_announced E self w w' evs.
Proof.
  intros Htop.
  destruct (process_files_effects top files w Htop)
    as (w' & evs & Hrun & Htrace & Hskel & Hacc & Hkeys).
  exists w', evs. unfold walk_body.
  rewrite (filter_m_dirs top dirs Htop). simpl.
  rewrite run_bind. simpl. rewrite run_bind, Hrun. auto.
Qed.

Lemma walk_unfold (body : str -> list str -> list str -> M (list str))
    (top name : str) (entries : list fsnode) (w : world) :
  walk body top (FsDir name entries) w
  = (emit (EvScandir top);;
     dirs' ← body top (dir_names entries) (file_names entries);
     walk_children body top dirs' entries) w.
Proof.
  simpl. rewrite !run_bind. destruct (emit (EvScandir top) w) as [[[]|] w1]; [|done].
  rewrite !run_bind.
  destruct (body top (dir_names entries) (file_names entries) w1)
    as [[dirs'|] w2]; [|done].
  generalize entries as es. intros es. revert w2.
  induction es as [|e es IH]; intros w2; [done |].
  unfold walk_children. simpl. rewrite !run_bind.
  match goal with |- match ?x with _ => _ end = _ => destruct x as [[[]|] w3] end;
    [|done].
  apply IH.
Qed.

Lemma kept_in_dirs (top : str) (entries : list fsnode) (e : fsnode) :
  In e entries -> is_dir e = true ->
  bool_decide
    (fs_name e ∈ List.filter (fun d => kept E self (posixpath.join2 top d))
                             (dir_names entries))
  = kept E self (posixpath.join2 top (fs_name e)).
Proof.
  intros Hin Hdir.
  destruct (kept E self (posixpath.join2 top (fs_name e))) eqn:Hk.
  - apply bool_decide_eq_true_2, list_elem_of_In, filter_In. split; [|done].
    unfold dir_names. apply in_map, filter_In. auto.
  - apply bool_decide_eq_false_2. intros H%list_elem_of_In%filter_In.
    destruct H as [_ H]. congruence.
Qed.

Lemma walk_children_effects (top : str) (dirs' : list str)
    (es : list fsnode) (w : world) :
  top <> [] ->
  Forall (walk_ok E self) es ->
  (forall e, In e es -> is_dir e = true ->
     bool_decide (fs_name e ∈ dirs')
     = kept E self (posixpath.join2 top (fs_name e))) ->
  exists w' evs,
    walk_children (walk_body E self) top dirs' es w = (Some tt, w')
    /\ trace w' = trace w ++ evs
    /\ skeleton evs
       = flat_map (yield_skeleton E self)
           (flat_map
              (fun e =>
                 if is_dir e && kept E self (posixpath.join2 top (fs_name e))
                 then yields E self (posixpath.join2 top (fs_name e)) e
                 else [])
              es)
    /\ accounted evs
    /\ keys_announced E self w w' evs.
Proof.
  intros Htop Hall. revert w. induction Hall as [|e es He Hes IH]; intros w Hmem.
  - exists w, []. simpl. rewrite app_nil_r.
    split; [done |]. split; [done |]. split; [done |].
    split; [constructor | apply keys_announced_refl].
  - unfold walk_children. simpl. rewrite run_bind.
    assert (exists w1 evs1,
              (if is_dir e && bool_decide (fs_name e ∈ dirs')
               then walk (walk_body E self) (posixpath.join2 top (fs_name e)) e
               else mret tt) w = (Some tt, w1)
              /\ trace w1 = trace w ++ evs1
              /\ skeleton evs1
                 = flat_map (yield_skeleton E self)
                     (if is_dir e && kept E self (posixpath.join2 top (fs_name e))
                      then yields E self (posixpath.join2 top (fs_name e)) e
                      else [])
              /\ accounted evs1
              /\ keys_announced E self w w1 evs1)
      as (w1 & evs1 & Hrun1 & Htrace1 & Hskel1 & Hacc1 & Hkeys1).
    { destruct (is_dir e) eqn:Hdir; simpl.
      - rewrite (Hmem e (or_introl eq_refl) Hdir).
        destruct (kept E self (posixpath.join2 top (fs_name e))).
        + apply He. by apply join2_nonempty.
        + exists w, []. simpl. rewrite app_nil_r.
          split; [done |]. split; [done |]. split; [done |].
          split; [constructor | apply keys_announced_refl].
      - exists w, []. simpl. rewrite app_nil_r.
        split; [done |]. split; [done |]. split; [done |].
        split; [constructor | apply keys_announced_refl]. }
    rewrite Hrun1. cbv beta iota.
    destruct (IH w1) as (w2 & evs2 & Hrun2 & Htrace2 & Hskel2 & Hacc2 & Hkeys2).
    { intros e' Hin. apply Hmem. by right. }
    exists w2, (evs1 ++ evs2).
    split; [exact Hrun2 |].
    split; [by rewrite Htrace2, Htrace1, <- app_assoc |].
    split; [by rewrite skeleton_app, Hskel1, Hskel2, flat_map_app |].
    split; [by apply accounted_app | by eapply keys_announced_trans].
Qed.

(** The whole walk returns normally, and its structural events are those of
    the pruned sequence of yields. *)
Lemma walk_effects (node : fsnode) : walk_ok E self node.
Proof.
  induction node as [name | name entries IH] using fsnode_induction;
    intros top w Htop.
  - exists w, []. simpl. rewrite app_nil_r.
    split; [done |]. split; [done |]. split; [done |].
    split; [constructor | apply keys_announced_refl].
  - rewrite walk_unfold, run_bind, run_emit. cbv beta iota.
    destruct (walk_body_effects top (dir_names entries) (file_names entries)
                (after w 0 [EvScandir top]) Htop)
      as (w1 & evs1 & Hrun1 & Htrace1 & Hskel1 & Hacc1 & Hkeys1).
    rewrite run_bind, Hrun1. cbv beta iota.
    destruct (walk_children_effects top
                (List.filter (fun d => kept E self (posixpath.join2 top d))
                             (dir_names entries))
                entries w1 Htop IH)
      as (w2 & evs2 & Hrun2 & Htrace2 & Hskel2 & Hacc2 & Hkeys2).
    { intros e Hin Hdir. by apply kept_in_dirs. }
    exists w2, ([EvScandir top] ++ evs1 ++ evs2).
    split; [exact Hrun2 |].
    split.
    { rewrite Htrace2, Htrace1, trace_after. by rewrite <- !app_assoc. }
    split.
    { rewrite !skeleton_app, Hskel1, Hskel2. reflexivity. }
    split.
    + apply accounted_app; [| by apply accounted_app].
      unfold accounted. apply List.Forall_cons; [|apply List.Forall_nil].
      intros p Hp. simpl in Hp. injection Hp as <-. by left.
    + apply (keys_announced_trans w (after w 0 [EvScandir top]) w2).
      * by apply keys_announced_same.
      * by eapply keys_announced_trans.
Qed.

Lemma process_directory_walk (fs : fsnode) :
  root_dir self <> [] ->
  process_directory E self fs = walk (walk_body E self) (root_dir self) fs.
Proof. intros H. unfold process_directory. by destruct (root_dir self). Qed.

End Walk.

(** ** Which files are selected *)

Section Selection.

Import CodeSummarizer.

Variable E : env.
Variable self : t.
Hypothesis Hdelay : delay_accepted E self.

Lemma candidate_spec (file_path : str) :
  candidate E self file_path = true
  <-> _should_ignore E self file_path = Some false
      /\ exists ext, In ext text_extensions
                     /\ lower E (pathlib.suffix file_path) = ext.
Proof.
  unfold candidate, is_text_file.
  rewrite andb_true_iff, kept_true, bool_decide_eq_true, list_elem_of_In.
  split.
  - intros [Hk Hin]. split; [done |]. eauto.
  - intros [Hk (ext & Hin & <-)]. done.
Qed.

Lemma in_skeleton (e : event) (evs : list event) :
  is_structural e = true -> In e evs <-> In e (skeleton evs).
Proof.
  intros He. unfold skeleton. rewrite filter_In. tauto.
Qed.

Lemma selected_in_yields (file_path : str) (ys : list (str * list str * list str)) :
  In (EvLogProcessing file_path) (flat_map (yield_skeleton E self) ys)
  <-> exists top dirs files file,
        In (top, dirs, files) ys /\ In file files
        /\ file_path = posixpath.join2 top file
        /\ candidate E self file_path = true.
Proof.
  rewrite in_flat_map. split.
  - intros ([[top dirs] files] & Hy & Hin). unfold yield_skeleton in Hin.
    simpl in Hin. destruct Hin as [Hin | Hin]; [done |].
    apply in_map_iff in Hin as (p & [= ->] & Hp).
    apply filter_In in Hp as [Hp Hc].
    apply in_map_iff in Hp as (file & <- & Hfile).
    by exists top, dirs, files, file.
  - intros (top & dirs & files & file & Hy & Hfile & -> & Hc).
    exists (top, dirs, files). split; [done |].
    unfold yield_skeleton. simpl. right.
    apply in_map, filter_In. split; [|done]. by apply in_map.
Qed.

Lemma listed_in_yields (p : str) (ys : list (str * list str * list str)) :
  In (EvScandir p) (flat_map (yield_skeleton E self) ys)
  <-> exists dirs files, In (p, dirs, files) ys.
Proof.
  rewrite in_flat_map. split.
  - intros ([[top dirs] files] & Hy & Hin). unfold yield_skeleton in Hin.
    simpl in Hin. destruct Hin as [[= ->] | Hin]; [eauto |].
    apply in_map_iff in Hin as (q & Hq & _). done.
  - intros (dirs & files & Hy). exists (p, dirs, files).
    split; [done |]. by left.
Qed.

End Selection.

(** ** Splitting and joining paths *)

Lemma split_nonempty (sep : char) (s : str) : split sep s <> [].
Proof.
  induction s as [|c s IH]; simpl; [done |].
  destruct (c =? sep)%N; [done |]. by destruct (split sep s).
Qed.

Lemma split_no_sep (sep : char) (s : str) :
  forallb (fun c => negb (c =? sep)%N) s = true -> split sep s = [s].
Proof.
  induction s as [|c s IH]; simpl; [done |].
  intros [Hc Hs]%andb_true_iff. apply negb_true_iff in Hc.
  by rewrite Hc, (IH Hs).
Qed.

Lemma split_app (sep : char) (a b : str) :
  split sep (a ++ sep :: b) = split sep a ++ split sep b.
Proof.
  induction a as [|c a IH]; simpl.
  - by rewrite N.eqb_refl.
  - destruct (c =? sep)%N; [by rewrite IH |].
    rewrite IH. pose proof (split_nonempty sep a).
    by destruct (split sep a).
Qed.

Lemma join_cons_cons (sep p : str) (c : char) (ps : list str) :
  Py.join sep ((c :: p) :: ps) = c :: Py.join sep (p :: ps).
Proof. by destruct ps. Qed.

Lemma join_split (sep : char) (s : str) : Py.join [sep] (split sep s) = s.
Proof.
  induction s as [|c s IH]; simpl; [done |].
  destruct (N.eqb_spec c sep) as [-> | Hne].
  - pose proof (split_nonempty sep s).
    destruct (split sep s) eqn:Hs; [done |]. simpl in *. by rewrite IH.
  - pose proof (split_nonempty sep s).
    destruct (split sep s) eqn:Hs; [done |].
    by rewrite join_cons_cons, IH.
Qed.

Lemma split_join (sep : char) (segs : list str) :
  segs <> [] ->
  Forall (fun s => forallb (fun c => negb (c =? sep)%N) s = true) segs ->
  split sep (Py.join [sep] segs) = segs.
Proof.
  intros Hne Hall. induction Hall as [|s segs Hs Hall IH]; [done |].
  destruct segs as [|s2 segs].
  - simpl. by apply split_no_sep.
  - change (Py.join [sep] (s :: s2 :: segs))
      with (s ++ sep :: Py.join [sep] (s2 :: segs)).
    rewrite split_app, (split_no_sep _ _ Hs), IH; done.
Qed.

Lemma split_inj (sep : char) (a b : str) : split sep a = split sep b -> a = b.
Proof.
  intros H. by rewrite <- (join_split sep a), <- (join_split sep b), H.
Qed.

Lemma wf_name_spec (name : str) :
  wf_name name = true
  <-> name <> [] /\ forallb (fun c => negb (c =? SLASH)%N) name = true.
Proof. unfold wf_name. by rewrite andb_true_iff, truthy_true. Qed.

Lemma startswith_sep_false (name : str) :
  forallb (fun c => negb (c =? SLASH)%N) name = true ->
  startswith name posixpath.sep = false.
Proof.
  intros Hall. destruct (startswith name posixpath.sep) eqn:H; [|done].
  apply startswith_spec in H as [rest ->]. done.
Qed.

Lemma endswith_snoc (s : str) (c x : char) :
  endswith (s ++ [c]) [x] = (x =? c)%N.
Proof.
  unfold endswith. rewrite rev_app_distr. simpl. by rewrite andb_true_r.
Qed.

Lemma endswith_sep_false (name : str) :
  wf_name name = true -> forall front, endswith (front ++ name) posixpath.sep = false.
Proof.
  intros [Hne Hall]%wf_name_spec front.
  destruct (exists_last Hne) as (body & c & ->).
  unfold posixpath.sep. rewrite app_assoc, endswith_snoc.
  rewrite forallb_app in Hall. apply andb_true_iff in Hall as [_ Hc].
  simpl in Hc. rewrite andb_true_r in Hc. apply negb_true_iff in Hc.
  by rewrite N.eqb_sym.
Qed.

Lemma join2_wf (root name : str) :
  root <> [] -> wf_name name = true ->
  posixpath.join2 root name = slashed root ++ name.
Proof.
  intros Hroot [_ Hname]%wf_name_spec. unfold posixpath.join2, slashed.
  rewrite (startswith_sep_false _ Hname).
  destruct root as [|c root]; [done |]. simpl negb. simpl orb.
  destruct (endswith (c :: root) posixpath.sep); [done |].
  by rewrite <- app_assoc.
Qed.

Lemma slashed_nonempty (root : str) : root <> [] -> slashed root <> [].
Proof.
  intros H. unfold slashed. destruct (endswith root posixpath.sep); [done |].
  by destruct root.
Qed.

Lemma slashed_wf (front name : str) :
  wf_name name = true -> slashed (front ++ name) = front ++ name ++ posixpath.sep.
Proof.
  intros H. unfold slashed. rewrite (endswith_sep_false _ H).
  by rewrite <- app_assoc.
Qed.

Lemma join_form (root : str) (segs : list str) :
  root <> [] -> segs <> [] ->
  Forall (fun s => wf_name s = true) segs ->
  posixpath.join root segs = slashed root ++ Py.join posixpath.sep segs.
Proof.
  intros Hroot Hne Hall. revert root Hroot.
  induction Hall as [|s segs Hs Hall IH]; intros root Hroot; [done |].
  destruct segs as [|s2 segs].
  - simpl. by apply join2_wf.
  - change (posixpath.join root (s :: s2 :: segs))
      with (posixpath.join (posixpath.join2 root s) (s2 :: segs)).
    rewrite IH; [| done | by apply join2_nonempty].
    rewrite (join2_wf _ _ Hroot Hs), (slashed_wf _ _ Hs).
    change (Py.join posixpath.sep (s :: s2 :: segs))
      with (s ++ posixpath.sep ++ Py.join posixpath.sep (s2 :: segs)).
    by rewrite <- !app_assoc.
Qed.

Lemma join_snoc (root : str) (segs : list str) (name : str) :
  posixpath.join root (segs ++ [name])
  = posixpath.join2 (posixpath.join root segs) name.
Proof. unfold posixpath.join. by rewrite fold_left_app. Qed.

Lemma join_nonempty (root : str) (segs : list str) :
  root <> [] -> posixpath.join root segs <> [].
Proof.
  revert root. induction segs as [|s segs IH]; intros root H; [done |].
  apply IH. by apply join2_nonempty.
Qed.

Lemma py_join_wf_nonempty (segs : list str) :
  segs <> [] -> Forall (fun s => wf_name s = true) segs ->
  Py.join posixpath.sep segs <> [].
Proof.
  intros Hne Hall. destruct Hall as [|s segs Hs Hall]; [done |].
  apply wf_name_spec in Hs as [Hs _].
  destruct s; [done |]. by destruct segs.
Qed.

Lemma wf_names_no_sep (segs : list str) :
  Forall (fun s => wf_name s = true) segs ->
  Forall (fun s => forallb (fun c => negb (c =? SLASH)%N) s = true) segs.
Proof.
  intros H. eapply List.Forall_impl; [|exact H].
  simpl. intros s Hs. by apply wf_name_spec in Hs as [_ Hs].
Qed.

(** A path below the root lies under another one only when the names of
    the latter start the names of the former. *)
Lemma under_prefix (root : str) (segs_d segs_p : list str) :
  root <> [] -> segs_d <> [] ->
  Forall (fun s => wf_name s = true) segs_d ->
  Forall (fun s => wf_name s = true) segs_p ->
  under (posixpath.join root segs_d) (posixpath.join root segs_p) ->
  exists rest, segs_p = segs_d ++ rest.
Proof.
  intros Hroot Hd Hwd Hwp Hunder.
  rewrite (join_form root segs_d) in Hunder by done.
  pose proof (py_join_wf_nonempty segs_d Hd Hwd) as Hjd.
  destruct segs_p as [|s segs_p].
  - exfalso. simpl in Hunder.
    assert (length (slashed root ++ Py.join posixpath.sep segs_d) > length root)
      as Hlen.
    { rewrite length_app. unfold slashed.
      destruct (endswith root posixpath.sep);
        [| rewrite length_app; simpl];
        destruct (Py.join posixpath.sep segs_d); simpl; try done; lia. }
    destruct Hunder as [Heq | [rest Heq]].
    + rewrite <- Heq in Hlen. lia.
    + rewrite Heq in Hlen at 2. rewrite !length_app in Hlen.
      rewrite !length_app in Hlen || idtac. simpl in Hlen. lia.
  - rewrite (join_form root (s :: segs_p)) in Hunder by done.
    destruct Hunder as [Heq | [rest Heq]].
    + apply app_inv_head in Heq.
      exists []. rewrite app_nil_r.
      rewrite <- (split_join SLASH (s :: segs_p)); [| done | by apply wf_names_no_sep].
      rewrite <- (split_join SLASH segs_d); [| done | by apply wf_names_no_sep].
      unfold posixpath.sep in Heq. by rewrite Heq.
    + rewrite <- app_assoc in Heq. apply app_inv_head in Heq.
      exists (split SLASH rest).
      rewrite <- (split_join SLASH (s :: segs_p)); [| done | by apply wf_names_no_sep].
      unfold posixpath.sep in Heq. rewrite Heq, split_app.
      rewrite split_join; [done | done | by apply wf_names_no_sep].
Qed.

(** ** Pruning *)

Section Pruning.

Import CodeSummarizer.

Variable E : env.
Variable self : t.
Hypothesis Hdelay : delay_accepted E self.

Lemma wf_names_entry (name : str) (entries : list fsnode) (e : fsnode) :
  wf_names (FsDir name entries) = true -> In e entries ->
  wf_name (fs_name e) = true /\ wf_names e = true.
Proof.
  simpl. rewrite forallb_forall. intros H Hin.
  by apply andb_true_iff, H.
Qed.

Lemma in_dir_names (entries : list fsnode) (d : str) :
  In d (dir_names entries)
  <-> exists e, In e entries /\ is_dir e = true /\ fs_name e = d.
Proof.
  unfold dir_names. rewrite in_map_iff. split.
  - intros (e & <- & [Hin Hdir]%filter_In). eauto.
  - intros (e & Hin & Hdir & <-). exists e. split; [done |].
    by apply filter_In.
Qed.

Lemma in_file_names (entries : list fsnode) (f : str) :
  In f (file_names entries) -> exists e, In e entries /\ fs_name e = f.
Proof.
  unfold file_names. rewrite in_map_iff.
  intros (e & <- & [Hin _]%filter_In). eauto.
Qed.

Lemma yields_reachable (node : fsnode) :
  forall top top' dirs files,
    In (top', dirs, files) (yields E self top node) ->
    exists name entries,
      reachable E self top node top' (FsDir name entries)
      /\ files = file_names entries.
Proof.
  induction node as [name | name entries IH] using fsnode_induction;
    intros top top' dirs files Hin; [done |].
  simpl in Hin. destruct Hin as [[= <- <- <-] | Hin].
  - exists name, entries. split; [constructor | done].
  - apply in_flat_map in Hin as (e & He & Hin).
    destruct (is_dir e) eqn:Hdir; [|done].
    destruct (kept E self (posixpath.join2 top (fs_name e))) eqn:Hk; [|done].
    simpl in Hin. rewrite List.Forall_forall in IH.
    destruct (IH e He _ _ _ _ Hin) as (name' & entries' & Hreach & Hfiles).
    exists name', entries'. split; [|done].
    eapply reach_below; eauto. by apply kept_true.
Qed.

Lemma reachable_yields (top p : str) (node n : fsnode) :
  reachable E self top node p n ->
  exists name entries,
    n = FsDir name entries
    /\ In (p,
           List.filter (fun d => kept E self (posixpath.join2 p d))
                       (dir_names entries),
           file_names entries)
          (yields E self top node).
Proof.
  induction 1 as [top name entries
                 | top name entries e p n He Hdir Hk Hreach IH].
  - exists name, entries. split; [done |]. by left.
  - destruct IH as (name' & entries' & -> & Hin).
    exists name', entries'. split; [done |]. simpl. right.
    apply in_flat_map. exists e. split; [done |].
    rewrite Hdir. simpl. apply kept_true in Hk. by rewrite Hk.
Qed.

Lemma reachable_segs (top p : str) (node n : fsnode) :
  reachable E self top node p n ->
  wf_names node = true ->
  wf_names n = true
  /\ exists segs,
       Forall (fun s => wf_name s = true) segs
       /\ p = posixpath.join top segs
       /\ forall front rest, front <> [] -> segs = front ++ rest ->
            _should_ignore E self (posixpath.join top front) = Some false.
Proof.
  induction 1 as [top name entries
                 | top name entries e p n He Hdir Hk Hreach IH]; intros Hwf.
  - split; [done |]. exists []. split; [constructor |]. split; [done |].
    intros front rest Hne Heq. by destruct front.
  - destruct (wf_names_entry _ _ _ Hwf He) as [Hname Hwfe].
    destruct (IH Hwfe) as (Hwfn & segs & Hsegs & -> & Hkept).
    split; [done |]. exists (fs_name e :: segs).
    split; [by constructor |]. split; [done |].
    intros front rest Hne Heq. destruct front as [|s front]; [done |].
    injection Heq as <- ->. destruct front as [|s2 front]; [done |].
    apply (Hkept (s2 :: front) rest); done.
Qed.

Lemma snoc_split {X} (front rest a : list X) (x : X) :
  front ++ rest = a ++ [x] ->
  (exists r, a = front ++ r) \/ (front = a ++ [x]).
Proof.
  revert a. induction front as [|y front IH]; intros a Heq.
  - left. by exists a.
  - destruct a as [|z a].
    + simpl in Heq. injection Heq as -> Heq.
      apply app_eq_nil in Heq as [-> _]. by right.
    + simpl in Heq. injection Heq as -> Heq.
      destruct (IH a Heq) as [[r ->] | ->].
      * left. by exists r.
      * by right.
Qed.

(** Every directory the walk lists is clean. *)
Lemma listed_clean (fs : fsnode) (p : str) (dirs files : list str) :
  wf_names fs = true ->
  In (p, dirs, files) (yields E self (root_dir self) fs) ->
  clean E self p.
Proof.
  intros Hwf Hin.
  destruct (yields_reachable fs _ _ _ _ Hin) as (name & entries & Hreach & _).
  destruct (reachable_segs _ _ _ _ Hreach Hwf) as (_ & segs & H1 & H2 & H3).
  by exists segs.
Qed.

(** Every file the walk selects is clean. *)
Lemma selected_clean (fs : fsnode) (top file : str) (dirs files : list str) :
  wf_names fs = true ->
  In (top, dirs, files) (yields E self (root_dir self) fs) ->
  In file files ->
  candidate E self (posixpath.join2 top file) = true ->
  clean E self (posixpath.join2 top file).
Proof.
  intros Hwf Hin Hfile Hc.
  destruct (yields_reachable fs _ _ _ _ Hin) as (name & entries & Hreach & ->).
  destruct (reachable_segs _ _ _ _ Hreach Hwf) as (Hwfn & segs & H1 & -> & H3).
  apply in_file_names in Hfile as (e & He & <-).
  destruct (wf_names_entry _ _ _ Hwfn He) as [Hname _].
  exists (segs ++ [fs_name e]). split.
  { apply Forall_app. split; [done |]. by constructor. }
  split; [by rewrite join_snoc |].
  intros front rest Hne Heq.
  destruct (snoc_split _ _ _ _ (eq_sym Heq)) as [[r ->] | ->].
  - by apply (H3 front r).
  - rewrite join_snoc. apply andb_true_iff in Hc as [Hk _]. by apply kept_true.
Qed.

(** Nothing clean lies under an ignored directory found in a clean one. *)
Lemma clean_not_under (top d p : str) :
  root_dir self <> [] ->
  clean E self top -> wf_name d = true ->
  _should_ignore E self (posixpath.join2 top d) = Some true ->
  clean E self p ->
  ~ under (posixpath.join2 top d) p.
Proof.
  intros Hroot (segs_t & Hwt & -> & _) Hd Hign (segs_p & Hwp & -> & Hkept) Hunder.
  rewrite <- join_snoc in Hunder, Hign.
  apply under_prefix in Hunder as [rest ->]; try done.
  - rewrite (Hkept (segs_t ++ [d]) rest) in Hign; [done | | done].
    by destruct segs_t.
  - by destruct segs_t.
  - apply Forall_app. split; [done |]. by constructor.
Qed.

End Pruning.

(** ** The tree builder *)

Section TreeBuilder.

Import CodeSummarizer.

Lemma tree_induction (P : tree -> Prop) :
  (forall summary, P (Leaf summary)) ->
  (forall items, Forall (fun kv => P (snd kv)) items -> P (Node items)) ->
  forall t, P t.
Proof.
  intros Hleaf Hnode. fix IH 1. intros [summary | items].
  - apply Hleaf.
  - apply Hnode. induction items as [|[k v] items IHitems].
    + constructor.
    + constructor; [apply IH | exact IHitems].
Qed.

Lemma dict_get_None_set {V} (d : list (str * V)) (k : str) (v : V) :
  dict_get d k = None -> dict_set d k v = d ++ [(k, v)].
Proof.
  induction d as [|[k' v'] d IH]; simpl; [done |].
  destruct (str_eqb k' k); [done |]. intros H. by rewrite IH.
Qed.

Lemma dict_get_Some_split {V} (d : list (str * V)) (k : str) (v : V) :
  dict_get d k = Some v ->
  exists front back, d = front ++ (k, v) :: back /\ dict_get front k = None.
Proof.
  induction d as [|[k' v'] d IH]; simpl; [done |].
  destruct (str_eqb k' k) eqn:Hk.
  - intros [= ->]. apply str_eqb_eq in Hk as ->. by exists [], d.
  - intros H. destruct (IH H) as (front & back & -> & Hfront).
    exists ((k', v') :: front), back. split; [done |]. simpl. by rewrite Hk.
Qed.

Lemma dict_set_split {V} (front back : list (str * V)) (k : str) (v v' : V) :
  dict_get front k = None ->
  dict_set (front ++ (k, v) :: back) k v' = front ++ (k, v') :: back.
Proof.
  induction front as [|[k0 v0] front IH]; simpl.
  - by rewrite str_eqb_refl.
  - destruct (str_eqb k0 k); [done |]. intros H. by rewrite IH.
Qed.

Lemma dict_get_app_None {V} (front back : list (str * V)) (k : str) :
  dict_get front k = None -> dict_get (front ++ back) k = dict_get back k.
Proof.
  induction front as [|[k0 v0] front IH]; simpl; [done |].
  destruct (str_eqb k0 k); [done | exact IH].
Qed.

Lemma leaf_items_app (a b : list (str * tree)) :
  leaf_items (Node (a ++ b)) = leaf_items (Node a) ++ leaf_items (Node b).
Proof. simpl. apply flat_map_app. Qed.

Lemma leaf_items_cons (k : str) (v : tree) (b : list (str * tree)) :
  leaf_items (Node ((k, v) :: b))
  = under_key k (leaf_items v) ++ leaf_items (Node b).
Proof. reflexivity. Qed.

Lemma solid_has_leaf (t : tree) : solid t = true -> leaf_items t <> [].
Proof.
  induction t as [summary | items IH] using tree_induction; [done |].
  simpl. intros [Hne Hall]%andb_true_iff.
  destruct items as [|[k v] items]; [done |].
  apply List.Forall_cons_iff in IH as [IHv _]. simpl in *.
  apply andb_true_iff in Hall as [Hv _].
  specialize (IHv Hv). destruct (leaf_items v); [done | done].
Qed.

Lemma count_leaves_length (t : tree) : count_leaves t = length (leaf_items t).
Proof.
  induction t as [summary | items IH] using tree_induction; [done |].
  simpl. induction IH as [|[k v] items Hv Hall IHitems]; [done |].
  simpl in *. rewrite length_app, IHitems, Hv. unfold under_key.
  by rewrite length_map.
Qed.

Lemma in_under_key (k : str) (leaves : list (list str * str)) path s :
  In (path, s) (under_key k leaves)
  <-> exists path', path = k :: path' /\ In (path', s) leaves.
Proof.
  unfold under_key. rewrite in_map_iff. split.
  - intros ([p v] & [= <- <-] & Hin). eauto.
  - intros (path' & -> & Hin). by exists (path', s).
Qed.

Lemma in_leaf_items_of_get (current : list (str * tree)) k v path s :
  dict_get current k = Some v -> In (path, s) (leaf_items v) ->
  In (k :: path, s) (leaf_items (Node current)).
Proof.
  intros Hget Hin.
  destruct (dict_get_Some_split _ _ _ Hget) as (front & back & -> & _).
  rewrite leaf_items_app, leaf_items_cons.
  apply in_or_app. right. apply in_or_app. left.
  apply in_under_key. eauto.
Qed.

Lemma solid_of_get (current : list (str * tree)) k v :
  forallb (fun kv => solid (snd kv)) current = true ->
  dict_get current k = Some v -> solid v = true.
Proof.
  intros Hall Hget.
  destruct (dict_get_Some_split _ _ _ Hget) as (front & back & -> & _).
  rewrite forallb_app in Hall. apply andb_true_iff in Hall as [_ Hall].
  simpl in Hall. by apply andb_true_iff in Hall as [Hv _].
Qed.

(** Placing a path that neither extends nor is extended by a path already
    in the tree adds one leaf and keeps the others. *)
Lemma place_fresh (dirs : list str) :
  forall (current : list (str * tree)) (leaf summary : str),
    forallb (fun kv => solid (snd kv)) current = true ->
    (forall path s, In (path, s) (leaf_items (Node current)) ->
       ~ is_prefix path (dirs ++ [leaf]) /\ ~ is_prefix (dirs ++ [leaf]) path) ->
    exists current',
      place current dirs leaf summary = Some current'
      /\ forallb (fun kv => solid (snd kv)) current' = true
      /\ Permutation (leaf_items (Node current'))
                     ((dirs ++ [leaf], summary) :: leaf_items (Node current)).
Proof.
  induction dirs as [|part rest IH]; intros current leaf summary Hsolid Hfree.
  - cbn [place]. destruct (dict_get current leaf) as [v|] eqn:Hget.
    + exfalso. pose proof (solid_has_leaf v (solid_of_get _ _ _ Hsolid Hget)) as Hv.
      destruct (leaf_items v) as [|[path s] leaves] eqn:Hleaves; [done |].
      destruct (Hfree (leaf :: path) s) as [_ Hno].
      { eapply in_leaf_items_of_get; [exact Hget |]. rewrite Hleaves. by left. }
      apply Hno. by exists path.
    + rewrite (dict_get_None_set _ _ _ Hget).
      eexists. split; [reflexivity |]. split.
      * rewrite forallb_app, Hsolid. done.
      * rewrite leaf_items_app. simpl.
        symmetry. apply Permutation_cons_append.
  - cbn [place]. destruct (dict_get current part) as [[s | sub]|] eqn:Hget.
    + exfalso.
      destruct (Hfree [part] s) as [Hno _].
      { eapply in_leaf_items_of_get; [exact Hget |]. by left. }
      apply Hno. by exists (rest ++ [leaf]).
    + rewrite Hget.
      destruct (IH sub leaf summary) as (sub' & Hplace & Hsolid' & Hperm).
      { pose proof (solid_of_get _ _ _ Hsolid Hget) as Hs. simpl in Hs.
        by apply andb_true_iff in Hs as [_ Hs]. }
      { intros path s Hin.
        destruct (Hfree (part :: path) s) as [Hno1 Hno2].
        { eapply in_leaf_items_of_get; [exact Hget | exact Hin]. }
        split.
        - intros [c Hc]. apply Hno1. exists c. simpl. by rewrite Hc.
        - intros [c Hc]. apply Hno2. exists c. simpl. by rewrite Hc. }
      rewrite Hplace. cbn [mbind option_bind].
      destruct (dict_get_Some_split _ _ _ Hget) as (front & back & -> & Hfront).
      rewrite (dict_set_split _ _ _ _ _ Hfront).
      eexists. split; [reflexivity |]. split.
      * rewrite forallb_app in Hsolid |- *.
        apply andb_true_iff in Hsolid as [Hf Hb]. simpl in Hb.
        apply andb_true_iff in Hb as [_ Hb].
        rewrite Hf. simpl. rewrite Hsolid', Hb, !andb_true_r.
        apply negb_true_iff, bool_decide_eq_false_2.
        intros ->. by apply Permutation_nil_cons in Hperm.
      * rewrite !leaf_items_app, !leaf_items_cons.
        rewrite (Permutation_app_comm (leaf_items (Node front))).
        rewrite (Permutation_app_comm (leaf_items (Node front))).
        rewrite <- !app_assoc.
        unfold under_key at 1. rewrite Hperm. simpl. by constructor.
    + rewrite (dict_get_None_set _ _ _ Hget).
      rewrite (dict_get_app_None _ _ _ Hget). cbn [dict_get]. rewrite str_eqb_refl.
      destruct (IH [] leaf summary) as (sub' & Hplace & Hsolid' & Hperm);
        [done | by intros path s [] |].
      rewrite Hplace. cbn [mbind option_bind].
      rewrite (dict_set_split current [] part (Node []) (Node sub') Hget).
      eexists. split; [reflexivity |]. split.
      * rewrite forallb_app, Hsolid. simpl. rewrite Hsolid', !andb_true_r.
        apply negb_true_iff, bool_decide_eq_false_2.
        intros ->. by apply Permutation_nil_cons in Hperm.
      * rewrite leaf_items_app, leaf_items_cons. simpl. rewrite !app_nil_r.
        unfold under_key. rewrite Hperm. simpl.
        symmetry. apply Permutation_cons_append.
Qed.

Lemma parts_removelast_last (file_path : str) :
  removelast (split SLASH file_path) ++ [List.last (split SLASH file_path) []]
  = split SLASH file_path.
Proof.
  symmetry. apply app_removelast_last, split_nonempty.
Qed.

Lemma generate_step (items : list (str * str)) (acc : option (list (str * tree)))
    (k v : str) :
  fold_left (fun acc item => root ← acc; add_path root (fst item) (snd item))
            ((k, v) :: items) acc
  = fold_left (fun acc item => root ← acc; add_path root (fst item) (snd item))
              items (root ← acc; add_path root k v).
Proof. reflexivity. Qed.

Lemma build_fresh (items : list (str * str)) :
  forall (root : list (str * tree)) (done : list (str * str)),
    forallb (fun kv => solid (snd kv)) root = true ->
    Permutation (leaf_items (Node root)) (List.map segs_item done) ->
    NoDup (List.map fst (done ++ items)) ->
    (forall p q, In p (List.map fst (done ++ items)) ->
                 In q (List.map fst (done ++ items)) ->
                 ~ strict_prefix (split SLASH p) (split SLASH q)) ->
    exists root',
      fold_left (fun acc item => root ← acc; add_path root (fst item) (snd item))
                items (Some root) = Some root'
      /\ forallb (fun kv => solid (snd kv)) root' = true
      /\ Permutation (leaf_items (Node root'))
                     (List.map segs_item (done ++ items)).
Proof.
  induction items as [|[k v] items IH]; intros root done Hsolid Hperm Hnodup Hfree.
  - exists root. rewrite app_nil_r. auto.
  - rewrite generate_step. cbn [mbind option_bind]. unfold add_path.
    destruct (place_fresh (removelast (split SLASH k)) root
                (List.last (split SLASH k) []) v Hsolid)
      as (root1 & Hplace & Hsolid1 & Hperm1).
    { rewrite parts_removelast_last. intros path s Hin.
      apply (Permutation_in _ Hperm) in Hin.
      apply in_map_iff in Hin as ([k' v'] & [= <- <-] & Hin). simpl.
      assert (In k' (List.map fst (done ++ (k, v) :: items))) as Hk'.
      { rewrite map_app. apply in_or_app. left.
        by apply (in_map fst _ (k', v')). }
      assert (In k (List.map fst (done ++ (k, v) :: items))) as Hk.
      { rewrite map_app. apply in_or_app. right. by left. }
      assert (k' <> k) as Hne.
      { intros ->. rewrite map_app in Hnodup.
        apply NoDup_app in Hnodup as (_ & Hdisj & _).
        apply (Hdisj k).
        - apply list_elem_of_In. by apply (in_map fst _ (k, v')).
        - apply list_elem_of_In. by left. }
      split; intros [c Hc].
      - destruct c as [|x c].
        + rewrite app_nil_r in Hc. by apply split_inj in Hc.
        + apply (Hfree k' k Hk' Hk). by exists (x :: c).
      - destruct c as [|x c].
        + rewrite app_nil_r in Hc. by apply split_inj in Hc.
        + apply (Hfree k k' Hk Hk'). by exists (x :: c). }
    rewrite Hplace.
    destruct (IH root1 (done ++ [(k, v)])) as (root' & Hfold & Hsolid' & Hperm').
    + exact Hsolid1.
    + rewrite Hperm1, parts_removelast_last, map_app. simpl.
      rewrite Hperm. apply Permutation_cons_append.
    + by rewrite <- app_assoc.
    + by rewrite <- app_assoc.
    + exists root'. rewrite <- app_assoc in Hperm'. auto.
Qed.

Lemma reflatten_segs (items : list (str * str)) :
  List.map (fun ps => (Py.join posixpath.sep (fst ps), snd ps))
           (List.map segs_item items) = items.
Proof.
  induction items as [|[k v] items IH]; [done |].
  cbn [List.map]. rewrite IH. unfold segs_item, posixpath.sep. simpl.
  by rewrite join_split.
Qed.

(** C2. For a flat mapping whose paths are distinct and none of which is a
    strict prefix, segment by segment, of another, the tree is built
    without error, it has as many leaves as the mapping has paths, and
    re-flattening it gives back the items of the mapping: the same paths,
    each with its summary. *)
Theorem tree_builder_injective (summaries : list (str * str)) :
  NoDup (List.map fst summaries) ->
  (forall p q, In p (List.map fst summaries) ->
               In q (List.map fst summaries) ->
               ~ strict_prefix (split SLASH p) (split SLASH q)) ->
  exists root,
    generate_tree_structure summaries = Some root
    /\ count_leaves (Node root) = length summaries
    /\ Permutation (reflatten root) summaries
    /\ (forall k, In k (List.map fst (reflatten root))
                  <-> In k (List.map fst summaries)).
Proof.
  intros Hnodup Hfree.
  destruct (build_fresh summaries [] []) as (root & Hgen & _ & Hperm); try done.
  exists root. split; [exact Hgen |].
  assert (Permutation (reflatten root) summaries) as Hflat.
  { unfold reflatten. rewrite Hperm. simpl. by rewrite reflatten_segs. }
  split; [| split; [exact Hflat |]].
  - rewrite count_leaves_length.
    rewrite (Permutation_length Hperm). simpl. by rewrite length_map.
  - intros k. split; apply Permutation_in; [| symmetry];
      by apply Permutation_map.
Qed.

(** *** Paths in conflict *)

Lemma dict_get_set {V} (d : list (str * V)) (k k' : str) (v : V) :
  dict_get (dict_set d k v) k'
  = if str_eqb k k' then Some v else dict_get d k'.
Proof.
  induction d as [|[k0 v0] d IH]; simpl.
  - destruct (str_eqb k k'); done.
  - destruct (str_eqb k0 k) eqn:Hk0; simpl.
    + apply str_eqb_eq in Hk0 as ->. by destruct (str_eqb k k').
    + rewrite IH. destruct (str_eqb k0 k') eqn:Hk0'; [| done].
      apply str_eqb_eq in Hk0' as ->.
      destruct (str_eqb k k') eqn:Hkk; [| done].
      apply str_eqb_eq in Hkk as ->. by rewrite str_eqb_refl in Hk0.
Qed.

Lemma lookup_cons_leaf (current : list (str * tree)) k rest s :
  lookup current (k :: rest) = Some (Leaf s) ->
  (dict_get current k = Some (Leaf s) /\ rest = [])
  \/ exists sub, dict_get current k = Some (Node sub)
                 /\ rest <> [] /\ lookup sub rest = Some (Leaf s).
Proof.
  simpl. destruct (dict_get current k) as [[s' | sub]|]; [| |done].
  - destruct rest; [| done]. intros [= ->]. by left.
  - intros H. right. exists sub. split; [done |]. split; [|done].
    by destruct rest.
Qed.

Lemma no_leaf_on_path_empty (path : list str) : ~ leaf_on_path [] path.
Proof.
  intros (front & back & s & _ & Hne & Hlook).
  destruct front as [|k front]; done.
Qed.

Lemma leaf_on_path_cons (current : list (str * tree)) part rest :
  leaf_on_path current (part :: rest)
  <-> (exists s, dict_get current part = Some (Leaf s))
      \/ exists sub, dict_get current part = Some (Node sub)
                     /\ leaf_on_path sub rest.
Proof.
  split.
  - intros (front & back & s & Heq & Hne & Hlook).
    destruct front as [|k front]; [done |]. injection Heq as <- ->.
    apply lookup_cons_leaf in Hlook as [[Hget _] | (sub & Hget & Hne' & Hlook)].
    + left. eauto.
    + right. exists sub. split; [done |]. by exists front, back, s.
  - intros [[s Hget] | (sub & Hget & front & back & s & -> & Hne & Hlook)].
    + exists [part], rest, s. split; [done |]. split; [done |].
      simpl. by rewrite Hget.
    + exists (part :: front), back, s. split; [done |]. split; [done |].
      simpl. by rewrite Hget.
Qed.

(** The walk raises exactly when a summary sits on the way. *)
Lemma place_None_iff (dirs : list str) :
  forall (current : list (str * tree)) (leaf summary : str),
    place current dirs leaf summary = None <-> leaf_on_path current dirs.
Proof.
  induction dirs as [|part rest IH]; intros current leaf summary.
  - simpl. split; [done |].
    intros (front & back & s & Heq & Hne & _).
    symmetry in Heq. by apply app_eq_nil in Heq as [-> _].
  - rewrite leaf_on_path_cons. cbn [place].
    destruct (dict_get current part) as [[s | sub]|] eqn:Hget.
    + rewrite Hget. split; [eauto | done].
    + rewrite Hget. specialize (IH sub leaf summary).
      destruct (place sub rest leaf summary) as [sub'|]; simpl.
      * split; [done |]. intros [[s Hs] | (sub0 & [= <-] & Hpath)]; [done |].
        by apply IH in Hpath.
      * split; [| done]. intros _. right. exists sub. split; [done |].
        by apply IH.
    + rewrite dict_get_set, str_eqb_refl.
      specialize (IH [] leaf summary).
      destruct (place [] rest leaf summary) as [sub'|]; simpl.
      * split; [done |]. intros [[s Hs] | (sub0 & Hs & _)]; done.
      * exfalso. by apply (no_leaf_on_path_empty rest), IH.
Qed.

(** After the walk the summary sits at the path. *)
Lemma place_lookup (dirs : list str) :
  forall (current current' : list (str * tree)) (leaf summary : str),
    place current dirs leaf summary = Some current' ->
    lookup current' (dirs ++ [leaf]) = Some (Leaf summary).
Proof.
  induction dirs as [|part rest IH]; intros current current' leaf summary.
  - simpl. intros [= <-]. by rewrite dict_get_set, str_eqb_refl.
  - cbn [place].
    destruct (dict_get current part) as [[s | sub]|] eqn:Hget.
    + by rewrite Hget.
    + rewrite Hget.
      destruct (place sub rest leaf summary) as [sub'|] eqn:Hplace; [|done].
      simpl. intros [= <-]. rewrite dict_get_set, str_eqb_refl. by eapply IH.
    + rewrite dict_get_set, str_eqb_refl.
      destruct (place [] rest leaf summary) as [sub'|] eqn:Hplace; [|done].
      simpl. intros [= <-]. rewrite dict_get_set, str_eqb_refl. by eapply IH.
Qed.

Lemma place_cons (current : list (str * tree)) part rest leaf summary :
  place current (part :: rest) leaf summary
  = match dict_get current part with
    | Some (Leaf _) => None
    | Some (Node sub) =>
        sub' ← place sub rest leaf summary;
        Some (dict_set current part (Node sub'))
    | None =>
        sub' ← place [] rest leaf summary;
        Some (dict_set (dict_set current part (Node [])) part (Node sub'))
    end.
Proof.
  cbn [place]. destruct (dict_get current part) as [[s | sub]|] eqn:Hget.
  - by rewrite Hget.
  - by rewrite Hget.
  - by rewrite dict_get_set, str_eqb_refl.
Qed.

(** The walk leaves the other keys of [current] alone. *)
Lemma place_other_key (current current' : list (str * tree))
    part rest leaf summary k :
  place current (part :: rest) leaf summary = Some current' ->
  str_eqb part k = false ->
  dict_get current' k = dict_get current k.
Proof.
  rewrite place_cons. intros Hplace Hk.
  destruct (dict_get current part) as [[s' | sub]|]; [done | |].
  - destruct (place sub rest leaf summary); [|done].
    simpl in Hplace. injection Hplace as <-. by rewrite dict_get_set, Hk.
  - destruct (place [] rest leaf summary); [|done].
    simpl in Hplace. injection Hplace as <-. by rewrite !dict_get_set, Hk.
Qed.

(** A summary elsewhere in the tree stays, unless the new path covers it. *)
Lemma place_keeps_leaf (dirs : list str) :
  forall (current current' : list (str * tree)) (leaf summary : str)
         (path : list str) (s : str),
    place current dirs leaf summary = Some current' ->
    lookup current path = Some (Leaf s) ->
    lookup current' path = Some (Leaf s) \/ is_prefix (dirs ++ [leaf]) path.
Proof.
  induction dirs as [|part rest IH];
    intros current current' leaf summary path s Hplace Hlook.
  - simpl in Hplace. injection Hplace as <-.
    destruct path as [|k path]; [done |].
    destruct (str_eqb leaf k) eqn:Hk.
    + apply str_eqb_eq in Hk as ->. right. by exists path.
    + left. simpl in *. by rewrite dict_get_set, Hk.
  - destruct path as [|k path]; [done |].
    destruct (str_eqb part k) eqn:Hk.
    + apply str_eqb_eq in Hk as <-. rewrite place_cons in Hplace.
      apply lookup_cons_leaf in Hlook
        as [[Hget ->] | (sub & Hget & Hne & Hlook)].
      * by rewrite Hget in Hplace.
      * rewrite Hget in Hplace.
        destruct (place sub rest leaf summary) as [sub'|] eqn:Hsub; [|done].
        simpl in Hplace. injection Hplace as <-.
        destruct (IH _ _ _ _ _ _ Hsub Hlook) as [Hkeep | [c ->]].
        -- left. simpl. by rewrite dict_get_set, str_eqb_refl.
        -- right. exists c. simpl. by rewrite <- app_assoc.
    + left. pose proof (place_other_key _ _ _ _ _ _ _ Hplace Hk) as Hsame.
      simpl in *. by rewrite Hsame.
Qed.

(** A summary in the tree after the walk is the new one or was there. *)
Lemma place_leaf_origin (dirs : list str) :
  forall (current current' : list (str * tree)) (leaf summary : str)
         (path : list str) (s : str),
    place current dirs leaf summary = Some current' ->
    lookup current' path = Some (Leaf s) ->
    path = dirs ++ [leaf] \/ lookup current path = Some (Leaf s).
Proof.
  induction dirs as [|part rest IH];
    intros current current' leaf summary path s Hplace Hlook.
  - simpl in Hplace. injection Hplace as <-.
    destruct path as [|k path]; [done |].
    simpl in Hlook. rewrite dict_get_set in Hlook.
    destruct (str_eqb leaf k) eqn:Hk.
    + apply str_eqb_eq in Hk as ->. left. by destruct path.
    + right. done.
  - destruct path as [|k path]; [done |].
    destruct (str_eqb part k) eqn:Hk.
    + apply str_eqb_eq in Hk as <-. rewrite place_cons in Hplace.
      destruct (dict_get current part) as [[s' | sub]|] eqn:Hget; [done | |].
      * destruct (place sub rest leaf summary) as [sub'|] eqn:Hsub; [|done].
        simpl in Hplace. injection Hplace as <-.
        simpl in Hlook. rewrite dict_get_set, str_eqb_refl in Hlook.
        destruct (IH _ _ _ _ _ _ Hsub Hlook) as [-> | Hold].
        -- by left.
        -- right. simpl. by rewrite Hget.
      * destruct (place [] rest leaf summary) as [sub'|] eqn:Hsub; [|done].
        simpl in Hplace. injection Hplace as <-.
        simpl in Hlook. rewrite dict_get_set, str_eqb_refl in Hlook.
        destruct (IH _ _ _ _ _ _ Hsub Hlook) as [-> | Hold]; [by left |].
        by destruct path.
    + right. pose proof (place_other_key _ _ _ _ _ _ _ Hplace Hk) as Hsame.
      simpl in *. by rewrite <- Hsame.
Qed.

Lemma generate_app (front back : list (str * str)) :
  generate_tree_structure (front ++ back)
  = fold_left (fun acc item => root ← acc; add_path root (fst item) (snd item))
              back (generate_tree_structure front).
Proof. unfold generate_tree_structure. apply fold_left_app. Qed.

Lemma fold_raised (items : list (str * str)) :
  fold_left (fun acc item => root ← acc; add_path root (fst item) (snd item))
            items None = None.
Proof. induction items as [|[k v] items IH]; [done | exact IH]. Qed.

Lemma leaf_on_path_prefix (current : list (str * tree)) (a b : list str) :
  leaf_on_path current a -> is_prefix a b -> leaf_on_path current b.
Proof.
  intros (front & back & s & -> & Hne & Hlook) [c ->].
  exists front, (back ++ c), s. by rewrite app_assoc.
Qed.

Lemma add_path_keeps_leaf_on_path (root root' : list (str * tree))
    (k v : str) (path : list str) :
  add_path root k v = Some root' ->
  leaf_on_path root path -> leaf_on_path root' path.
Proof.
  unfold add_path. intros Hplace (front & back & s & -> & Hne & Hlook).
  destruct (place_keeps_leaf _ _ _ _ _ _ _ Hplace Hlook) as [Hkeep | [c Hc]].
  - by exists front, back, s.
  - rewrite parts_removelast_last in Hc.
    pose proof (place_lookup _ _ _ _ _ Hplace) as Hnew.
    rewrite parts_removelast_last in Hnew.
    exists (split SLASH k), (c ++ back), v.
    split; [by rewrite Hc, app_assoc |]. split; [apply split_nonempty | done].
Qed.

(** Once a summary sits on the way of a path still to come, the build
    raises. *)
Lemma conflict_raises (items : list (str * str)) :
  forall (root : list (str * tree)) (path : list str) (k v : str),
    leaf_on_path root path ->
    In (k, v) items ->
    is_prefix path (removelast (split SLASH k)) ->
    fold_left (fun acc item => root ← acc; add_path root (fst item) (snd item))
              items (Some root) = None.
Proof.
  induction items as [|[k0 v0] items IH]; intros root path k v Hleaf Hin Hpre;
    [done |].
  rewrite generate_step. cbn [mbind option_bind].
  destruct (add_path root k0 v0) as [root1|] eqn:Hadd; [| apply fold_raised].
  destruct Hin as [[= -> ->] | Hin].
  - exfalso. unfold add_path in Hadd.
    assert (place root (removelast (split SLASH k))
                  (List.last (split SLASH k) []) v = None) as Hnone.
    { apply place_None_iff. by eapply leaf_on_path_prefix. }
    congruence.
  - apply (IH root1 path k v); [| done | done].
    by eapply add_path_keeps_leaf_on_path.
Qed.

Lemma strict_prefix_removelast (a b : list str) :
  strict_prefix a b -> is_prefix a (removelast b).
Proof.
  intros (c & Hc & ->). exists (removelast c). by apply removelast_app.
Qed.

(** A summary in the built tree sits at the path of an item. *)
Lemma built_leaf_origin (items : list (str * str)) :
  forall (root0 root : list (str * tree)) (path : list str) (s : str),
    fold_left (fun acc item => root ← acc; add_path root (fst item) (snd item))
              items (Some root0) = Some root ->
    lookup root path = Some (Leaf s) ->
    lookup root0 path = Some (Leaf s)
    \/ exists k, In k (List.map fst items) /\ path = split SLASH k.
Proof.
  induction items as [|[k v] items IH]; intros root0 root path s Hfold Hlook.
  - simpl in Hfold. injection Hfold as <-. by left.
  - rewrite generate_step in Hfold. cbn [mbind option_bind] in Hfold.
    destruct (add_path root0 k v) as [root1|] eqn:Hadd;
      [| by rewrite fold_raised in Hfold].
    destruct (IH _ _ _ _ Hfold Hlook) as [Hthere | (k' & Hin & ->)].
    + unfold add_path in Hadd.
      destruct (place_leaf_origin _ _ _ _ _ _ _ Hadd Hthere) as [-> | Hold].
      * right. exists k. split; [by left |]. apply parts_removelast_last.
      * by left.
    + right. exists k'. split; [by right | done].
Qed.

(** C3, as the code has it. When a path is a strict prefix of a path that
    comes later in the mapping (a file, then the same name as a directory),
    the build raises and no tree is returned. When the build of the earlier
    items has succeeded and none of their paths is a strict prefix of the
    next path, the next item is placed without error and its summary then
    sits at its path, replacing whatever was there: a directory built by
    earlier items is overwritten (a directory, then the same name as a
    file). *)
Theorem conflict_resolution :
  (forall front k1 v1 mid k2 v2 back,
     strict_prefix (split SLASH k1) (split SLASH k2) ->
     generate_tree_structure (front ++ (k1, v1) :: mid ++ (k2, v2) :: back)
     = None)
  /\ (forall front k v root,
        generate_tree_structure front = Some root ->
        (forall k', In k' (List.map fst front) ->
                    ~ strict_prefix (split SLASH k') (split SLASH k)) ->
        exists root',
          generate_tree_structure (front ++ [(k, v)]) = Some root'
          /\ lookup root' (split SLASH k) = Some (Leaf v)).
Proof.
  split.
  - intros front k1 v1 mid k2 v2 back Hprefix.
    rewrite generate_app.
    destruct (generate_tree_structure front) as [root|]; [| apply fold_raised].
    rewrite generate_step. cbn [mbind option_bind].
    destruct (add_path root k1 v1) as [root1|] eqn:Hadd; [| apply fold_raised].
    apply (conflict_raises _ root1 (split SLASH k1) k2 v2).
    + unfold add_path in Hadd. apply place_lookup in Hadd.
      rewrite parts_removelast_last in Hadd.
      exists (split SLASH k1), [], v1. rewrite app_nil_r.
      split; [done |]. split; [apply split_nonempty | done].
    + apply in_or_app. right. by left.
    + by apply strict_prefix_removelast.
  - intros front k v root Hgen Hfree.
    rewrite generate_app, Hgen. simpl.
    destruct (add_path root k v) as [root'|] eqn:Hadd.
    + exists root'. split; [done |]. unfold add_path in Hadd.
      apply place_lookup in Hadd. by rewrite parts_removelast_last in Hadd.
    + exfalso. unfold add_path in Hadd.
      apply place_None_iff in Hadd as (path & rest & s & Heq & Hne & Hlook).
      destruct (built_leaf_origin front [] root path s Hgen Hlook)
        as [Hempty | (k' & Hin & ->)].
      * by destruct path.
      * apply (Hfree k' Hin).
        exists (rest ++ [List.last (split SLASH k) []]). split.
        -- by destruct rest.
        -- rewrite app_assoc, <- Heq. symmetry. apply parts_removelast_last.
Qed.

End TreeBuilder.

(** C3, as the specification states it, fails: a file followed by a
    directory of the same name raises instead of being overwritten. *)
Lemma conflict_file_then_directory_raises :
  strict_prefix (split SLASH (lit "a")) (split SLASH (lit "a/b"))
  /\ CodeSummarizer.generate_tree_structure
       [(lit "a", lit "x"); (lit "a/b", lit "y")] = None.
Proof.
  split; [| reflexivity]. exists [lit "b"]. split; [done | reflexivity].
Qed.

(** ** The renderer *)

Section Renderer.

Import CodeSummarizer TreeVisualizer.

Lemma visualize_unfold (items : list (str * tree)) (file prefix : str) :
  _visualize_tree_recursive (Node items) file prefix
  = render_items (length items) 0 items file prefix.
Proof.
  cbn [_visualize_tree_recursive].
  set (n := length items). clearbody n.
  remember (n - 1) as m eqn:Hm.
  generalize 0 as i. intros i. revert file i.
  induction items as [|[key value] rest IH]; intros file i; [done |].
  cbn [render_items]. rewrite <- IH, <- Hm. reflexivity.
Qed.

(** The renderer only appends to the sink. *)
Lemma visualize_appends (data : tree) :
  forall file prefix,
    _visualize_tree_recursive data file prefix
    = file ++ _visualize_tree_recursive data [] prefix.
Proof.
  induction data as [summary | items IH] using tree_induction;
    intros file prefix.
  - simpl. by rewrite app_nil_r.
  - rewrite !visualize_unfold.
    generalize (length items) as n. generalize 0 as i. intros i n.
    revert i file.
    induction IH as [|[key value] rest Hvalue Hrest IHrest]; intros i file.
    + simpl. by rewrite app_nil_r.
    + cbn [render_items]. simpl in Hvalue.
      rewrite IHrest. symmetry. rewrite IHrest. symmetry.
      destruct value as [summary | sub].
      * by rewrite <- !app_assoc.
      * rewrite Hvalue. symmetry. rewrite Hvalue. simpl.
        by rewrite <- !app_assoc.
Qed.

Lemma replace_char (s : str) (c : char) (new : str) :
  replace s [c] new
  = flat_map (fun x => if (c =? x)%N then new else [x]) s.
Proof.
  unfold replace. induction s as [|x s IH]; [done |].
  cbn [replace_from startswith flat_map]. rewrite andb_true_r.
  destruct (c =? x)%N; simpl; by rewrite IH.
Qed.

Lemma flat_summary_no_break (value : str) : ~ In LF (flat_summary value).
Proof.
  unfold flat_summary. rewrite replace_char.
  intros Hin. apply in_flat_map in Hin as (x & _ & Hin).
  destruct (LF =? x)%N eqn:Hx.
  - vm_compute in Hin. intuition discriminate.
  - destruct Hin as [-> | []]. by rewrite N.eqb_refl in Hx.
Qed.

Variable E : env.
Variable self : t.

Lemma load_json_files (w : world) : files (snd (load_json E self w)) = files w.
Proof.
  unfold load_json. destruct (files w !! json_file self) as [text|]; [|done].
  by destruct (json_loads E text).
Qed.

(** C10. When the document is missing, cannot be parsed, or is the empty
    object, [load_json] returns the empty tree, and [visualize] leaves the
    file store as it was, the output file included, and reports that there
    is nothing to render. *)
Theorem visualize_without_data (w : world) :
  files w !! json_file self = None
  \/ (exists text, files w !! json_file self = Some text
                   /\ ((exists e, json_loads E text = inl e)
                       \/ json_loads E text = inr [])) ->
  fst (load_json E self w) = []
  /\ files (visualize E self w) = files w
  /\ files (visualize E self w) !! output_file self
     = files w !! output_file self
  /\ exists said, stdout (visualize E self w)
                  = stdout w ++ said ++ NO_DATA ++ [LF].
Proof.
  intros Hcase.
  assert (fst (load_json E self w) = []) as Hempty.
  { unfold load_json.
    destruct Hcase as [-> | (text & -> & [[e ->] | ->])]; done. }
  assert (exists said, stdout (snd (load_json E self w)) = stdout w ++ said)
    as [said Hsaid].
  { unfold load_json.
    destruct Hcase as [-> | (text & -> & [[e ->] | ->])]; simpl.
    - by eexists.
    - by eexists.
    - exists []. by rewrite app_nil_r. }
  assert (files (visualize E self w) = files w) as Hfiles.
  { unfold visualize. pose proof (load_json_files w) as Hsame.
    destruct (load_json E self w) as [data w1]. simpl in Hempty, Hsame.
    subst data. done. }
  split; [done |]. split; [done |]. split; [by rewrite Hfiles |].
  exists said. unfold visualize.
  destruct (load_json E self w) as [data w1]. simpl in Hempty, Hsaid.
  subst data. simpl. rewrite Hsaid. by rewrite <- app_assoc.
Qed.

End Renderer.


(** C4, as the specification states it, fails: with three attempts allowed
    and every request failing, a delay that [time.sleep] refuses, negative
    or too long, ends the run at the first failed attempt, after one
    request. *)
Lemma refused_delay_fails_the_run :
  (forall k, failed (CodeSummarizer.chat Demo.env_failing k
                       (lit "./a.py") (lit "pass")) = true)
  /\ (exists w',
        CodeSummarizer.process_directory Demo.env_failing
          Demo.self_negative_delay Demo.fs0 CodeSummarizer.initial_world
        = (None, w')
        /\ List.filter is_request (CodeSummarizer.trace w')
           = [CodeSummarizer.EvRequest (lit "./a.py") (lit "pass")])
  /\ (exists w',
        CodeSummarizer.process_directory Demo.env_failing
          Demo.self_long_delay Demo.fs0 CodeSummarizer.initial_world
        = (None, w')
        /\ List.filter is_request (CodeSummarizer.trace w')
           = [CodeSummarizer.EvRequest (lit "./a.py") (lit "pass")]).
Proof.
  split.
  { intros k. simpl. by destruct (Nat.even k). }
  split; (eexists; split; [vm_compute; reflexivity |]);
    vm_compute; reflexivity.
Qed.

(** ** The example of the documentation, end to end *)

Example build_example :
  CodeSummarizer.generate_tree_structure
    [(lit "a.py", lit "desc A"); (lit "sub/b.py", lit "desc B")]
  = Some DemoVisualizer.data0.
Proof. reflexivity. Qed.

Example render_example :
  TreeVisualizer._visualize_tree_recursive
    (CodeSummarizer.Node DemoVisualizer.data0) [] []
  = TreeVisualizer.CONNECTOR_MID ++ lit "a.py    desc A" ++ [LF]
    ++ TreeVisualizer.CONNECTOR_LAST ++ lit "sub/" ++ [LF]
    ++ lit "    " ++ TreeVisualizer.CONNECTOR_LAST ++ lit "b.py    desc B"
    ++ [LF].
Proof. reflexivity. Qed.

Example run_example :
  CodeSummarizer.summaries
    (snd (CodeSummarizer.process_directory Demo.env0 Demo.self0 Demo.fs0
            CodeSummarizer.initial_world))
  = [(lit "a.py", lit "ok"); (lit "sub/b.PY", lit "ok")].
Proof. vm_compute. reflexivity. Qed.

(** ** The theorems at concrete inputs *)

Lemma tree_builder_injective_witness :
  NoDup (List.map fst [(lit "a.py", lit "desc A"); (lit "sub/b.py", lit "desc B")])
  /\ exists root,
       CodeSummarizer.generate_tree_structure
         [(lit "a.py", lit "desc A"); (lit "sub/b.py", lit "desc B")]
       = Some root
       /\ count_leaves (CodeSummarizer.Node root) = 2.
Proof.
  assert (NoDup (List.map fst [(lit "a.py", lit "desc A");
                               (lit "sub/b.py", lit "desc B")])) as Hnodup.
  { apply (bool_decide_unpack _). vm_compute. exact I. }
  split; [exact Hnodup |].
  destruct (tree_builder_injective
              [(lit "a.py", lit "desc A"); (lit "sub/b.py", lit "desc B")]
              Hnodup) as (root & Hgen & Hcount & _).
  - intros p q [<- | [<- | []]] [<- | [<- | []]] (c & Hc & Heq);
      vm_compute in Heq; destruct c; try discriminate; done.
  - exists root. split; [exact Hgen | exact Hcount].
Defined.

Lemma conflict_resolution_witness :
  CodeSummarizer.generate_tree_structure [(lit "a/b", lit "x")]
  = Some [(lit "a", CodeSummarizer.Node [(lit "b", CodeSummarizer.Leaf (lit "x"))])]
  /\ exists root',
       CodeSummarizer.generate_tree_structure
         ([(lit "a/b", lit "x")] ++ [(lit "a", lit "y")]) = Some root'
       /\ lookup root' (split SLASH (lit "a"))
          = Some (CodeSummarizer.Leaf (lit "y")).
Proof.
  split; [reflexivity |].
  apply (proj2 conflict_resolution [(lit "a/b", lit "x")] (lit "a") (lit "y")
           [(lit "a", CodeSummarizer.Node
                        [(lit "b", CodeSummarizer.Leaf (lit "x"))])]).
  - reflexivity.
  - intros k' [<- | []] (c & Hc & Heq). vm_compute in Heq. discriminate.
Defined.

Lemma retries_exhausted_file_skipped_witness :
  delay_accepted Demo.env_failing Demo.self0
  /\ CodeSummarizer._should_ignore Demo.env_failing Demo.self0 (lit "./a.py")
     = Some false
  /\ exists evs w',
       CodeSummarizer.process_file Demo.env_failing Demo.self0
         (lit ".") (lit "a.py") CodeSummarizer.initial_world = (Some tt, w')
       /\ CodeSummarizer.summaries w' = []
       /\ Z.of_nat (length (List.filter is_request evs)) = 3%Z.
Proof.
  assert (CodeSummarizer._should_ignore Demo.env_failing Demo.self0
            (lit "./a.py") = Some false) as Hign by (vm_compute; reflexivity).
  assert (delay_accepted Demo.env_failing Demo.self0) as Hdelay
    by (split; [vm_compute; discriminate | reflexivity]).
  split; [exact Hdelay |]. split; [exact Hign |].
  destruct (retries_exhausted_file_skipped Demo.env_failing Demo.self0
              (lit ".") (lit "a.py") (lit "pass") CodeSummarizer.initial_world)
    as [Hskipped _].
  - exact Hign.
  - vm_compute. reflexivity.
  - reflexivity.
  - discriminate.
  - intros k Hk. destruct k as [|[|[|k]]]; [reflexivity .. |].
    vm_compute in Hk. lia.
  - destruct (Hskipped (or_intror Hdelay))
      as (evs & tail & w' & _ & _ & Hcount & _ & _ & Hsum & Hfile & _).
    exists evs, w'. split; [exact Hfile |]. split; [exact Hsum | exact Hcount].
Defined.

Lemma empty_file_skipped_witness :
  CodeSummarizer.open_read Demo.env_empty_files (lit "./a.py") = Some []
  /\ CodeSummarizer.process_file Demo.env_empty_files Demo.self0
       (lit ".") (lit "a.py") CodeSummarizer.initial_world
     = (Some tt,
        after CodeSummarizer.initial_world 0
          [CodeSummarizer.EvLogProcessing (lit "./a.py");
           CodeSummarizer.EvOpen (lit "./a.py")]).
Proof.
  split; [reflexivity |].
  apply (empty_file_skipped Demo.env_empty_files Demo.self0
           (lit ".") (lit "a.py") CodeSummarizer.initial_world).
  - vm_compute. reflexivity.
  - vm_compute. reflexivity.
  - reflexivity.
Defined.

Lemma visualize_without_data_witness :
  TreeVisualizer.files DemoVisualizer.world_missing
    !! TreeVisualizer.json_file DemoVisualizer.self0 = None
  /\ TreeVisualizer.files
       (TreeVisualizer.visualize DemoVisualizer.env0 DemoVisualizer.self0
                                 DemoVisualizer.world_missing)
     = TreeVisualizer.files DemoVisualizer.world_missing.
Proof.
  assert (TreeVisualizer.files DemoVisualizer.world_missing
            !! TreeVisualizer.json_file DemoVisualizer.self0 = None) as Hfile
    by (vm_compute; reflexivity).
  split; [exact Hfile |].
  apply (visualize_without_data DemoVisualizer.env0 DemoVisualizer.self0
           DemoVisualizer.world_missing).
  left. exact Hfile.
Defined.

(** * Further properties of the summarizer *)

Import More.

(** ** The ignore rules *)

Section MoreIgnore.

Import CodeSummarizer.

Variable E : env.

(** X2. Rules only add up: a path ignored under a set of rules is ignored under
    every larger set with the same root (there is no negation). *)
Theorem should_ignore_monotone (self self' : t) (path : str) :
  root_dir self = root_dir self' ->
  ignore_patterns self ⊆ ignore_patterns self' ->
  _should_ignore E self path = Some true ->
  _should_ignore E self' path = Some true.
Proof.
  intros Hroot Hsub. unfold _should_ignore. rewrite <- Hroot.
  destruct (posixpath.relpath (getcwd E) path (root_dir self)) as [rel|];
    [| done].
  intros [= Hex]. f_equal. apply existsb_exists.
  apply existsb_exists in Hex as (rule & Hin & Hrule).
  exists rule. split; [| done].
  apply list_elem_of_In, elem_of_elements, Hsub.
  by apply elem_of_elements, list_elem_of_In.
Qed.

Lemma separator_rule_ignores (self : t) (path : str) :
  [SLASH] ∈ ignore_patterns self -> path <> [] ->
  _should_ignore E self path = Some true.
Proof.
  intros Hin Hpath.
  destruct (relpath_is_Some (getcwd E) path (root_dir self) Hpath) as [rel Hrel].
  rewrite (should_ignore_Some E self path rel Hrel). f_equal.
  apply existsb_exists. exists [SLASH]. split.
  - by apply list_elem_of_In, elem_of_elements.
  - apply pattern_ignores_spec. right. exists []. split; [done |].
    by exists rel.
Qed.

Lemma for_each_unchanged {X} (xs : list X) (body : X -> M unit) (w : world) :
  (forall x, In x xs -> body x w = (Some tt, w)) ->
  for_each xs body w = (Some tt, w).
Proof.
  induction xs as [|x xs IH]; intros Hbody; [done |].
  simpl. rewrite run_bind, (Hbody x (or_introl eq_refl)). cbv beta iota.
  apply IH. intros y Hy. apply Hbody. by right.
Qed.

Lemma filter_m_all_dropped {X} (keep : X -> option bool) (xs : list X) :
  (forall x, In x xs -> keep x = Some false) -> filter_m keep xs = Some [].
Proof.
  induction xs as [|x xs IH]; intros Hkeep; [done |].
  simpl. rewrite (Hkeep x (or_introl eq_refl)), IH; [done |].
  intros y Hy. apply Hkeep. by right.
Qed.

Lemma walk_body_all_ignored (self : t) (top : str) (dirs files : list str)
    (w : world) :
  [SLASH] ∈ ignore_patterns self -> top <> [] ->
  walk_body E self top dirs files w = (Some [], w).
Proof.
  intros Hin Htop. unfold walk_body. rewrite filter_m_all_dropped.
  - simpl lift_option. rewrite run_bind. simpl. rewrite run_bind.
    rewrite for_each_unchanged; [done |].
    intros file _. apply (process_file_not_candidate E self _ _ true); [| done].
    apply separator_rule_ignores; [done |]. by apply join2_nonempty.
  - intros d _. rewrite separator_rule_ignores; [done | done |].
    by apply join2_nonempty.
Qed.

(** X3. The rule that is just the separator (a line [/] of the ignore file)
    matches every path, since every path starts with the empty string: the
    run lists the root directory and does nothing else. *)
Theorem separator_rule_stops_the_run (self : t) (name : str)
    (entries : list fsnode) (w : world) :
  [SLASH] ∈ ignore_patterns self ->
  root_dir self <> [] ->
  (forall path, path <> [] -> _should_ignore E self path = Some true)
  /\ process_directory E self (FsDir name entries) w
     = (Some tt, after w 0 [EvScandir (root_dir self)]).
Proof.
  intros Hin Hroot. split; [intros path; by apply separator_rule_ignores |].
  rewrite (process_directory_walk E self _ Hroot).
  rewrite walk_unfold, run_bind, run_emit. cbv beta iota.
  rewrite run_bind, (walk_body_all_ignored self _ _ _ _ Hin Hroot).
  cbv beta iota. unfold walk_children. apply for_each_unchanged.
  intros e _. by destruct (is_dir e).
Qed.

End MoreIgnore.

(** ** Trimming *)

Lemma lstrip_suffix (s : str) :
  exists front, s = front ++ lstrip s /\ forallb isspace front = true.
Proof.
  induction s as [|c s (front & Heq & Hsp)]; [by exists [] |].
  cbn [lstrip]. destruct (isspace c) eqn:Hc.
  - exists (c :: front). split; [by rewrite Heq at 1 |]. simpl. by rewrite Hc.
  - by exists [].
Qed.

Lemma lstrip_head (s : str) :
  match lstrip s with [] => True | c :: _ => isspace c = false end.
Proof.
  induction s as [|c s IH]; [done |].
  cbn [lstrip]. destruct (isspace c) eqn:Hc; [exact IH | exact Hc].
Qed.

Lemma lstrip_fixed (s : str) :
  match s with [] => True | c :: _ => isspace c = false end -> lstrip s = s.
Proof. destruct s as [|c s]; [done |]. cbn [lstrip]. by intros ->. Qed.

Lemma lstrip_idem (s : str) : lstrip (lstrip s) = lstrip s.
Proof. apply lstrip_fixed, lstrip_head. Qed.

Lemma rstrip_idem (s : str) : rstrip (rstrip s) = rstrip s.
Proof. unfold rstrip. by rewrite rev_involutive, lstrip_idem. Qed.

Lemma rstrip_prefix (s : str) : exists back, s = rstrip s ++ back.
Proof.
  unfold rstrip. destruct (lstrip_suffix (rev s)) as (front & Heq & _).
  exists (rev front). rewrite <- rev_app_distr, <- Heq. by rewrite rev_involutive.
Qed.

Lemma strip_idem (s : str) : strip (strip s) = strip s.
Proof.
  unfold strip.
  assert (lstrip (rstrip (lstrip s)) = rstrip (lstrip s)) as ->.
  { apply lstrip_fixed. pose proof (lstrip_head s) as Hhead.
    destruct (rstrip_prefix (lstrip s)) as [back Heq].
    destruct (rstrip (lstrip s)) as [|c r]; [done |].
    rewrite Heq in Hhead. exact Hhead. }
  apply rstrip_idem.
Qed.

(** ** Requests *)

Ltac own_events :=
  simpl;
  repeat (apply List.Forall_cons; [simpl; auto |]);
  first [apply List.Forall_nil | assumption].

Section MoreRetry.

Import CodeSummarizer.

Variable E : env.
Variable self : t.

(** A sleep returns and leaves its record, or raises and leaves nothing. *)
Lemma sleep_cases (seconds : Z) (w : world) :
  sleep E seconds w = (Some tt, after w 0 [EvSleep seconds])
  \/ sleep E seconds w = (None, w).
Proof.
  unfold sleep. destruct (seconds <? 0)%Z; [by right |].
  destruct (sleep_accepts E seconds); [left; apply run_emit | by right].
Qed.

(** One iteration sends one request, whatever comes of it, and what it
    returns as a summary is the reply, trimmed and not empty. *)
Lemma attempt_body_cases (attempt : Z) (content file_path : str) (w : world) :
  exists c evs,
    attempt_body E self attempt content file_path w = (c, after w 1 evs)
    /\ List.filter is_request evs = [EvRequest file_path content]
    /\ Forall (file_event file_path) evs
    /\ skeleton evs = []
    /\ forall s, c = Some (Return (Some s)) -> s <> [] /\ trimmed s.
Proof.
  unfold attempt_body, try_except. rewrite run_bind, run_request.
  cbv beta iota.
  assert (forall evs0,
            List.filter is_request evs0 = [EvRequest file_path content] ->
            Forall (file_event file_path) evs0 -> skeleton evs0 = [] ->
            exists c evs,
              (emit EvLogApiFailed;;
               if (attempt <? max_retries self - 1)%Z
               then sleep E (retry_delay self);; mret Continue
               else mret (Return None)) (after w 1 evs0)
              = (c, after w 1 evs)
              /\ List.filter is_request evs = [EvRequest file_path content]
              /\ Forall (file_event file_path) evs
              /\ skeleton evs = []
              /\ forall s, c = Some (Return (Some s)) -> s <> [] /\ trimmed s)
    as Hhandler.
  { intros evs0 Hreq Hall Hskel.
    rewrite run_bind, run_emit, after_after. cbv beta iota.
    destruct (attempt <? max_retries self - 1)%Z.
    - rewrite run_bind.
      destruct (sleep_cases (retry_delay self)
                  (after w (1 + 0) (evs0 ++ [EvLogApiFailed])))
        as [-> | ->].
      + rewrite after_after. cbv beta iota.
        eexists (Some Continue), _. split; [reflexivity |].
        split; [by rewrite !List.filter_app, Hreq |].
        split; [repeat (apply Forall_app; split); [done | own_events ..] |].
        split; [| done].
        unfold skeleton in *. by rewrite !List.filter_app, Hskel.
      + eexists None, _. split; [reflexivity |].
        split; [by rewrite List.filter_app, Hreq |].
        split; [apply Forall_app; split; [done | own_events] |].
        split; [| done].
        unfold skeleton in *. by rewrite List.filter_app, Hskel.
    - eexists (Some (Return None)), _. split; [reflexivity |].
      split; [by rewrite List.filter_app, Hreq |].
      split; [apply Forall_app; split; [done | own_events] |].
      split; [| done].
      unfold skeleton in *. by rewrite List.filter_app, Hskel. }
  destruct (chat E (api_calls w) file_path content) as [|reply].
  - unfold raise at 1. apply Hhandler; [done | own_events | done].
  - destruct (truthy (strip reply)) eqn:Htruthy.
    + eexists (Some (Return (Some (strip reply)))), _.
      split; [reflexivity |]. split; [done |]. split; [own_events |].
      split; [done |]. intros s [= <-]. split.
      * by apply truthy_true.
      * apply strip_idem.
    + rewrite run_bind, run_emit, after_after. cbv beta iota.
      change (1 + 0) with 1. rewrite run_bind.
      destruct (sleep_cases (retry_delay self)
                  (after w 1 ([EvRequest file_path content]
                              ++ [EvLogEmptySummary (attempt + 1)])))
        as [-> | ->].
      * rewrite after_after. cbv beta iota.
        eexists (Some Continue), _. split; [reflexivity |].
        split; [done |]. split; [own_events |]. done.
      * apply Hhandler; [done | own_events | done].
Qed.

(** Whatever the replies and whatever the delay, the loop sends at most one
    request per attempt, leaves [summaries] alone, and returns, if
    anything, a summary that is not empty and is trimmed. *)
Lemma attempt_loop_bounds (attempts : list Z) (content file_path : str)
    (w : world) :
  exists r n evs,
    attempt_loop E self attempts content file_path w = (r, after w n evs)
    /\ n <= length attempts
    /\ List.filter is_request evs = repeat (EvRequest file_path content) n
    /\ Forall (file_event file_path) evs
    /\ skeleton evs = []
    /\ forall s, r = Some (Some s) -> s <> [] /\ trimmed s.
Proof.
  revert w. induction attempts as [|attempt rest IH]; intros w.
  - exists (Some None), 0, []. rewrite after_nothing. simpl.
    split; [done |]. split; [lia |]. split; [done |]. split; [constructor |].
    split; [done |]. by intros s [=].
  - cbn [attempt_loop]. rewrite run_bind.
    destruct (attempt_body_cases attempt content file_path w)
      as (c & evs1 & Hrun1 & Hreq1 & Hall1 & Hskel1 & Hsum1).
    rewrite Hrun1.
    destruct c as [[result|]|]; cbv beta iota.
    + exists (Some result), 1, evs1. split; [done |]. simpl.
      split; [lia |]. split; [by rewrite Hreq1 |]. split; [done |].
      split; [done |]. intros s [= ->]. by apply Hsum1.
    + destruct (IH (after w 1 evs1)) as (r & n & evs & Hrun & Hn & Hreq & Hall & Hskel & Hsum).
      rewrite Hrun, after_after.
      exists r, (1 + n), (evs1 ++ evs). split; [done |]. simpl.
      split; [lia |]. split; [by rewrite List.filter_app, Hreq1, Hreq |].
      split; [by apply Forall_app |]. split; [| done].
      unfold skeleton in *. by rewrite List.filter_app, Hskel1, Hskel.
    + exists None, 1, evs1. split; [done |]. simpl.
      split; [lia |]. split; [by rewrite Hreq1 |]. split; [done |].
      split; [done |]. by intros s [=].
Qed.

Lemma range_length (n : Z) : length (range n) = Z.to_nat n.
Proof. unfold range. by rewrite length_map, length_seq. Qed.

(** X4. [get_code_summary] never sends more than [max_retries] requests (none
    when [max_retries] is not positive), all of them for the file at hand;
    it leaves [summaries] alone; and a summary it returns is never empty
    and has no whitespace at either end. *)
Theorem get_code_summary_bounds (content file_path : str) (w : world) :
  exists r n evs,
    get_code_summary E self content file_path w = (r, after w n evs)
    /\ (Z.of_nat n <= Z.max 0 (max_retries self))%Z
    /\ List.filter is_request evs = repeat (EvRequest file_path content) n
    /\ (forall s, r = Some (Some s) -> s <> [] /\ trimmed s).
Proof.
  unfold get_code_summary.
  destruct (attempt_loop_bounds (range (max_retries self)) content file_path w)
    as (r & n & evs & Hrun & Hn & Hreq & _ & _ & Hsum).
  exists r, n, evs. rewrite range_length in Hn.
  split; [done |]. split; [lia |]. done.
Qed.

Hypothesis Hdelay : delay_accepted E self.

(** The attempts [a, a+1, ..., a+m-1], none of them past [max_retries]: [k]
    failures, then a usable reply. *)
Lemma attempt_loop_succeeds (content file_path reply : str) (k m a : nat)
    (w : world) :
  k < m ->
  (Z.of_nat (a + m) <= max_retries self)%Z ->
  (forall j, j < k ->
     failed (chat E (api_calls w + j) file_path content) = true) ->
  chat E (api_calls w + k) file_path content = ApiContent reply ->
  strip reply <> [] ->
  exists evs,
    attempt_loop E self (List.map Z.of_nat (seq a m)) content file_path w
    = (Some (Some (strip reply)), after w (S k) evs)
    /\ List.filter is_request_or_sleep evs
       = spaced (S k) (EvRequest file_path content)
                (EvSleep (retry_delay self)).
Proof.
  revert m a w. induction k as [|k IH]; intros m a w Hk Hmax Hfail Hok Hreply.
  - destruct m as [|m]; [lia |].
    cbn [seq List.map attempt_loop].
    rewrite run_bind, (run_attempt_body E self Hdelay).
    rewrite Nat.add_0_r in Hok. rewrite Hok.
    assert (truthy (strip reply) = true) as -> by by apply truthy_true.
    by exists [EvRequest file_path content].
  - destruct m as [|m]; [lia |].
    cbn [seq List.map attempt_loop].
    rewrite run_bind, (run_attempt_body E self Hdelay).
    pose proof (Hfail 0 ltac:(lia)) as H0. rewrite Nat.add_0_r in H0.
    assert (forall evs0,
              exists evs,
                attempt_loop E self (List.map Z.of_nat (seq (S a) m))
                  content file_path (after w 1 evs0)
                = (Some (Some (strip reply)), after (after w 1 evs0) (S k) evs)
                /\ List.filter is_request_or_sleep evs
                   = spaced (S k) (EvRequest file_path content)
                            (EvSleep (retry_delay self))) as Hnext.
    { intros evs0. apply IH; [lia | lia | | | done].
      - intros j Hj. simpl.
        replace (api_calls w + 1 + j) with (api_calls w + S j) by lia.
        apply Hfail. lia.
      - simpl. by replace (api_calls w + 1 + k) with (api_calls w + S k) by lia. }
    destruct (chat E (api_calls w) file_path content) as [|reply0];
      simpl in H0.
    + destruct (Z.ltb_spec (Z.of_nat a) (max_retries self - 1)) as [Hlt|Hge];
        [| lia].
      destruct (Hnext [EvRequest file_path content; EvLogApiFailed;
                       EvSleep (retry_delay self)]) as (evs1 & Hrun1 & Hfilter1).
      cbv beta iota. rewrite Hrun1, after_after.
      exists ([EvRequest file_path content; EvLogApiFailed;
               EvSleep (retry_delay self)] ++ evs1).
      split; [done |]. cbn [List.filter app is_request_or_sleep].
      by rewrite Hfilter1.
    + apply negb_true_iff in H0. rewrite H0. cbv beta iota.
      destruct (Hnext [EvRequest file_path content;
                       EvLogEmptySummary (Z.of_nat a + 1);
                       EvSleep (retry_delay self)]) as (evs2 & Hrun2 & Hfilter2).
      rewrite Hrun2, after_after.
      exists ([EvRequest file_path content; EvLogEmptySummary (Z.of_nat a + 1);
               EvSleep (retry_delay self)] ++ evs2).
      split; [done |]. cbn [List.filter app is_request_or_sleep].
      by rewrite Hfilter2.
Qed.

End MoreRetry.

Section FirstSuccess.

Import CodeSummarizer.

Variable E : env.
Variable self : t.

(** X5. With a delay that is not negative and that [time.sleep] accepts,
    when the first [k] replies fail, [k < max_retries], and the next reply
    is not blank, [get_code_summary] returns that reply trimmed, after
    exactly [k + 1] requests with one sleep between each two, and asks
    nothing more. *)
Theorem get_code_summary_first_success (content file_path reply : str)
    (k : nat) (w : world) :
  delay_accepted E self ->
  (Z.of_nat k < max_retries self)%Z ->
  (forall j, j < k ->
     failed (chat E (api_calls w + j) file_path content) = true) ->
  chat E (api_calls w + k) file_path content = ApiContent reply ->
  strip reply <> [] ->
  exists evs,
    get_code_summary E self content file_path w
    = (Some (Some (strip reply)), after w (S k) evs)
    /\ List.filter is_request_or_sleep evs
       = spaced (S k) (EvRequest file_path content)
                (EvSleep (retry_delay self)).
Proof.
  intros Hdelay Hk Hfail Hok Hreply. unfold get_code_summary, range.
  apply (attempt_loop_succeeds E self Hdelay); [lia | lia | done ..].
Qed.

End FirstSuccess.

(** ** What a run preserves *)

Section MoreWalk.

Import CodeSummarizer.

Variable E : env.
Variable self : t.

Lemma dict_set_keys {V} (d : list (str * V)) (k : str) (v : V) :
  List.map fst (dict_set d k v)
  = List.map fst d ++ match dict_get d k with Some _ => [] | None => [k] end.
Proof.
  induction d as [|[k' v'] d IH]; [done |].
  cbn [dict_set dict_get]. destruct (str_eqb k' k) eqn:Hk.
  - apply str_eqb_eq in Hk as ->. simpl. by rewrite app_nil_r.
  - simpl. by rewrite IH.
Qed.

Lemma dict_get_None_keys {V} (d : list (str * V)) (k : str) :
  dict_get d k = None -> k ∉ List.map fst d.
Proof.
  induction d as [|[k' v'] d IH]; simpl; [intros _; apply not_elem_of_nil |].
  destruct (str_eqb k' k) eqn:Hk; [done |].
  intros H. apply not_elem_of_cons. split; [| by apply IH].
  intros ->. by rewrite str_eqb_refl in Hk.
Qed.

Lemma dict_set_NoDup {V} (d : list (str * V)) (k : str) (v : V) :
  NoDup (List.map fst d) -> NoDup (List.map fst (dict_set d k v)).
Proof.
  intros Hd. rewrite dict_set_keys.
  destruct (dict_get d k) eqn:Hget; [by rewrite app_nil_r |].
  apply NoDup_app. split; [done |]. split; [| apply NoDup_singleton].
  intros x Hx Hk. apply list_elem_of_singleton in Hk as ->.
  by apply (dict_get_None_keys d k).
Qed.

Lemma skeleton_nil_selection (evs : list event) :
  skeleton evs = [] -> List.filter is_selection evs = [].
Proof.
  unfold skeleton. induction evs as [|e evs IH]; [done |].
  destruct e; simpl; try done; apply IH.
Qed.

(** A step that sends no request and leaves [summaries] alone. *)
Ltac quiet_run :=
  eexists _, (after _ _ _), _;
  split; [reflexivity |];
  split; [reflexivity |];
  split; [simpl; lia |];
  split; [simpl; lia |];
  split; [| by left];
  let Hin := fresh in
  intros ? ? Hin; simpl in Hin;
  repeat (destruct Hin as [Hin | Hin]; [discriminate |]); destruct Hin.

(** One file, in every case: what [process_file] leaves whether it returns
    or raises. *)
Lemma process_file_cases (root file : str) (w : world) :
  let file_path := posixpath.join2 root file in
  exists r w' evs,
    process_file E self root file w = (r, w')
    /\ trace w' = trace w ++ evs
    /\ api_calls w' = api_calls w + length (List.filter is_request evs)
    /\ length (List.filter is_request evs)
       <= Z.to_nat (max_retries self) * length (List.filter is_selection evs)
    /\ (forall p c, In (EvRequest p c) evs ->
         In (EvLogProcessing p) evs /\ open_read E p = Some c /\ c <> [])
    /\ (summaries w' = summaries w
        \/ exists rel s,
             posixpath.relpath (getcwd E) file_path (root_dir self) = Some rel
             /\ s <> [] /\ trimmed s
             /\ summaries w' = dict_set (summaries w) rel s).
Proof.
  intros file_path. unfold process_file. fold file_path.
  assert (forall r, exists (r0 : option unit) w' evs,
            (r, w) = (r0, w')
            /\ trace w' = trace w ++ evs
            /\ api_calls w' = api_calls w + length (List.filter is_request evs)
            /\ length (List.filter is_request evs)
               <= Z.to_nat (max_retries self)
                  * length (List.filter is_selection evs)
            /\ (forall p c, In (EvRequest p c) evs ->
                 In (EvLogProcessing p) evs /\ open_read E p = Some c /\ c <> [])
            /\ (summaries w' = summaries w
                \/ exists rel s,
                     posixpath.relpath (getcwd E) file_path (root_dir self)
                     = Some rel
                     /\ s <> [] /\ trimmed s
                     /\ summaries w' = dict_set (summaries w) rel s))
    as Hsame.
  { intros r. exists r, w, []. simpl. rewrite app_nil_r, Nat.add_0_r.
    repeat split; try done; try lia. by left. }
  destruct (_should_ignore E self file_path) as [ignored|] eqn:Hign;
    [| apply Hsame].
  simpl. rewrite run_bind. simpl.
  destruct (negb ignored && is_text_file E file_path); [| apply Hsame].
  rewrite run_bind, run_emit. cbv beta iota.
  unfold read_file_content. rewrite run_bind, run_bind, run_emit, after_after.
  cbv beta iota.
  change (0 + 0) with 0.
  destruct (open_read E file_path) as [content|] eqn:Hopen.
  - unfold mret at 1, M_ret at 1, ret at 1. cbv beta iota.
    destruct (truthy content) eqn:Hcontent; [| quiet_run].
    unfold get_code_summary. rewrite run_bind.
    destruct (attempt_loop_bounds E self (range (max_retries self)) content
                file_path
                (after w 0 ([EvLogProcessing file_path] ++ [EvOpen file_path])))
      as (r & n & evs & Hrun & Hn & Hreq & _ & Hskel & Hsum).
    rewrite Hrun, after_after. rewrite range_length in Hn.
    apply skeleton_nil_selection in Hskel.
    assert (forall (r0 : option unit) d,
              d = summaries w
              \/ (exists rel s,
                    posixpath.relpath (getcwd E) file_path (root_dir self)
                    = Some rel
                    /\ s <> [] /\ trimmed s
                    /\ d = dict_set (summaries w) rel s) ->
              exists (r1 : option unit) w' evs',
                (r0, {| summaries := d; api_calls := api_calls w + (0 + n);
                        trace := trace w ++ ([EvLogProcessing file_path]
                                             ++ [EvOpen file_path]) ++ evs |})
                = (r1, w')
                /\ trace w' = trace w ++ evs'
                /\ api_calls w'
                   = api_calls w + length (List.filter is_request evs')
                /\ length (List.filter is_request evs')
                   <= Z.to_nat (max_retries self)
                      * length (List.filter is_selection evs')
                /\ (forall p c, In (EvRequest p c) evs' ->
                     In (EvLogProcessing p) evs'
                     /\ open_read E p = Some c /\ c <> [])
                /\ (summaries w' = summaries w
                    \/ exists rel s,
                         posixpath.relpath (getcwd E) file_path (root_dir self)
                         = Some rel
                         /\ s <> [] /\ trimmed s
                         /\ summaries w' = dict_set (summaries w) rel s))
      as Hdone.
    { intros r0 d Hd. eexists r0, _, _. split; [reflexivity |].
      split; [reflexivity |].
      cbn [app List.filter is_request is_selection trace api_calls summaries].
      rewrite Hreq, Hskel, repeat_length. cbn [length].
      split; [done |]. split; [lia |]. split; [| done].
      intros p c [Hin | [Hin | Hin]]; [done | done |].
      assert (In (EvRequest p c) (List.filter is_request evs)) as Hin'
        by by apply List.filter_In.
      rewrite Hreq in Hin'. apply repeat_spec in Hin'.
      injection Hin' as -> ->. split; [by left |]. split; [done |].
      intros ->. done. }
    destruct r as [[summary|]|]; cbv beta iota.
    + destruct (Hsum summary eq_refl) as [Hne Htrim].
      assert (truthy summary = true) as -> by by apply truthy_true.
      rewrite run_bind.
      destruct (posixpath.relpath (getcwd E) file_path (root_dir self))
        as [rel|] eqn:Hrel.
      * apply Hdone. right. by exists rel, summary.
      * apply Hdone. by left.
    + apply Hdone. by left.
    + apply Hdone. by left.
  - rewrite run_bind, run_emit, after_after. cbv beta iota. quiet_run.
Qed.

(** *** Relations that every step keeps *)

Section Preservation.

Variable R : world -> world -> Prop.
Hypothesis R_refl : forall w, R w w.
Hypothesis R_trans : forall w1 w2 w3, R w1 w2 -> R w2 w3 -> R w1 w3.
Hypothesis R_listing : forall top w, R w (after w 0 [EvScandir top]).
Hypothesis R_file :
  forall root file, preserves R (process_file E self root file).

Lemma preserves_ret {A} (a : A) : preserves R (mret a).
Proof. intros w r w' [= _ <-]. apply R_refl. Qed.

Lemma preserves_raise {A} : preserves R (@raise A).
Proof. intros w r w' [= _ <-]. apply R_refl. Qed.

Lemma preserves_listing (top : str) : preserves R (emit (EvScandir top)).
Proof. intros w r w'. rewrite run_emit. intros [= _ <-]. apply R_listing. Qed.

Lemma preserves_bind {A B} (m : M A) (k : A -> M B) :
  preserves R m -> (forall a, preserves R (k a)) -> preserves R (m ≫= k).
Proof.
  intros Hm Hk w r w'. rewrite run_bind.
  destruct (m w) as [[a|] w1] eqn:Hrun.
  - intros Hrun'. apply (R_trans w w1 w'); [by eapply Hm | by eapply Hk].
  - intros [= _ <-]. by eapply Hm.
Qed.

Lemma preserves_lift_option {A} (o : option A) : preserves R (lift_option o).
Proof. destruct o; [apply preserves_ret | apply preserves_raise]. Qed.

Lemma preserves_for_each {X} (xs : list X) (body : X -> M unit) :
  (forall x, In x xs -> preserves R (body x)) -> preserves R (for_each xs body).
Proof.
  induction xs as [|x xs IH]; intros Hbody; [apply (preserves_ret tt) |].
  cbn [for_each]. apply preserves_bind; [apply Hbody; by left |].
  intros _. apply IH. intros y Hy. apply Hbody. by right.
Qed.

Lemma preserves_walk_body (top : str) (dirs files : list str) :
  preserves R (walk_body E self top dirs files).
Proof.
  unfold walk_body. apply preserves_bind; [apply preserves_lift_option |].
  intros dirs'. apply preserves_bind.
  - apply preserves_for_each. intros file _. apply R_file.
  - intros _. apply preserves_ret.
Qed.

Lemma preserves_walk (node : fsnode) :
  forall top, preserves R (walk (walk_body E self) top node).
Proof.
  induction node as [name | name entries IH] using fsnode_induction;
    intros top; [apply (preserves_ret tt) |].
  intros w r w'. rewrite walk_unfold. revert w r w'.
  apply preserves_bind; [apply preserves_listing |].
  intros _. apply preserves_bind; [apply preserves_walk_body |].
  intros dirs'. apply preserves_for_each. intros e He.
  destruct (is_dir e && bool_decide (fs_name e ∈ dirs'));
    [| apply (preserves_ret tt)].
  rewrite List.Forall_forall in IH. by apply IH.
Qed.

Lemma preserves_process_directory (fs : fsnode) :
  preserves R (process_directory E self fs).
Proof.
  unfold process_directory. destruct (truthy (root_dir self)).
  - apply preserves_walk.
  - apply (preserves_ret tt).
Qed.

End Preservation.

Lemma within_budget_refl (w : world) : within_budget E self w w.
Proof.
  exists []. simpl. rewrite app_nil_r, Nat.add_0_r.
  repeat split; try done; lia.
Qed.

Lemma within_budget_trans (w1 w2 w3 : world) :
  within_budget E self w1 w2 -> within_budget E self w2 w3 ->
  within_budget E self w1 w3.
Proof.
  intros (evs1 & Htr1 & Hn1 & Hle1 & Hin1) (evs2 & Htr2 & Hn2 & Hle2 & Hin2).
  exists (evs1 ++ evs2). rewrite !List.filter_app, !length_app.
  split; [by rewrite Htr2, Htr1, app_assoc |]. split; [lia |].
  split; [lia |].
  intros p c Hin. apply in_app_iff in Hin as [Hin | Hin].
  - destruct (Hin1 p c Hin) as (? & ? & ?). split; [| done].
    apply in_app_iff. by left.
  - destruct (Hin2 p c Hin) as (? & ? & ?). split; [| done].
    apply in_app_iff. by right.
Qed.

Lemma within_budget_listing (top : str) (w : world) :
  within_budget E self w (after w 0 [EvScandir top]).
Proof.
  exists [EvScandir top]. split; [done |]. simpl.
  split; [lia |]. split; [lia |]. by intros p c [? | []].
Qed.

Lemma within_budget_file (root file : str) :
  preserves (within_budget E self) (process_file E self root file).
Proof.
  intros w r w' Hrun.
  destruct (process_file_cases root file w)
    as (r0 & w0 & evs & Hrun0 & Htr & Hn & Hle & Hin & _).
  rewrite Hrun in Hrun0. injection Hrun0 as -> ->. by exists evs.
Qed.

(** X6. A run of [process_directory], however it ends, sends at most
    [max_retries] requests for each file it selects (none when
    [max_retries] is not positive), counts each of them, and sends only
    the content, never empty, that it read from a file it selected. *)
Theorem requests_within_budget (fs : fsnode) (w : world) :
  exists r w',
    process_directory E self fs w = (r, w') /\ within_budget E self w w'.
Proof.
  destruct (process_directory E self fs w) as [r w'] eqn:Hrun.
  exists r, w'. split; [done |].
  eapply (preserves_process_directory (within_budget E self));
    eauto using within_budget_refl, within_budget_trans,
                within_budget_listing, within_budget_file.
Qed.

Lemma summaries_grow_refl (w : world) : summaries_grow w w.
Proof.
  split; [exists []; by rewrite app_nil_r |]. split; [done |]. auto.
Qed.

Lemma summaries_grow_trans (w1 w2 w3 : world) :
  summaries_grow w1 w2 -> summaries_grow w2 w3 -> summaries_grow w1 w3.
Proof.
  intros ([a1 Hk1] & Hd1 & Hv1) ([a2 Hk2] & Hd2 & Hv2).
  split; [exists (a1 ++ a2); by rewrite Hk2, Hk1, app_assoc |].
  split; [auto |].
  intros k v Hin. destruct (Hv2 k v Hin) as [Hin2 | ?]; [| by right].
  by apply Hv1.
Qed.

Lemma summaries_grow_same (w w' : world) :
  summaries w' = summaries w -> summaries_grow w w'.
Proof.
  intros Heq. unfold summaries_grow. rewrite Heq.
  split; [exists []; by rewrite app_nil_r |]. split; [done |]. auto.
Qed.

Lemma summaries_grow_file (root file : str) :
  preserves summaries_grow (process_file E self root file).
Proof.
  intros w r w' Hrun.
  destruct (process_file_cases root file w)
    as (r0 & w0 & evs & Hrun0 & _ & _ & _ & _ & Hsum).
  rewrite Hrun in Hrun0. injection Hrun0 as -> ->.
  destruct Hsum as [Hsame | (rel & s & _ & Hne & Htrim & Hset)];
    [by apply summaries_grow_same |].
  unfold summaries_grow. rewrite Hset. split; [| split].
  - rewrite dict_set_keys. eauto.
  - apply dict_set_NoDup.
  - intros k v Hin. apply dict_set_In in Hin as [[= -> ->] | Hin]; auto.
Qed.

(** X7. A run of [process_directory], however it ends, never drops or moves a
    key of [summaries], keeps distinct keys distinct, and stores only
    summaries that are trimmed and not empty. *)
Theorem summaries_only_grow (fs : fsnode) (w : world) :
  exists r w',
    process_directory E self fs w = (r, w') /\ summaries_grow w w'.
Proof.
  destruct (process_directory E self fs w) as [r w'] eqn:Hrun.
  exists r, w'. split; [done |].
  eapply (preserves_process_directory summaries_grow);
    eauto using summaries_grow_refl, summaries_grow_trans,
                summaries_grow_same, summaries_grow_file.
Qed.

End MoreWalk.

(** ** The extension filter *)

Section MoreExtension.

Import CodeSummarizer.

Variable E : env.

Lemma rfind_None (c : char) (s : str) : ~ In c s -> rfind c s = None.
Proof.
  induction s as [|x s IH]; [done |]. intros Hin. cbn [rfind].
  rewrite IH by (intros H; apply Hin; by right).
  destruct (N.eqb_spec x c) as [-> |]; [| done].
  destruct Hin. by left.
Qed.

Lemma rfind_last (c : char) (stem e : str) :
  ~ In c e -> rfind c (stem ++ c :: e) = Some (length stem).
Proof.
  intros Hin. induction stem as [|x stem IH].
  - cbn [app rfind length]. by rewrite (rfind_None c e Hin), N.eqb_refl.
  - cbn [app rfind length]. by rewrite IH.
Qed.

Lemma name_of_name (file : str) :
  wf_name file = true -> file <> posixpath.curdir -> pathlib.name file = file.
Proof.
  intros [Hne Hwf]%wf_name_spec Hdot. unfold pathlib.name.
  rewrite split_no_sep by done. cbn [List.filter].
  destruct (str_eqb file []) eqn:H1; [by apply str_eqb_eq in H1 |].
  destruct (str_eqb file posixpath.curdir) eqn:H2;
    [by apply str_eqb_eq in H2 |].
  done.
Qed.

Lemma name_below (front file : str) :
  wf_name file = true -> file <> posixpath.curdir ->
  pathlib.name (front ++ SLASH :: file) = file.
Proof.
  intros [Hne Hwf]%wf_name_spec Hdot. unfold pathlib.name.
  rewrite split_app, List.filter_app, (split_no_sep SLASH file) by done.
  cbn [List.filter].
  destruct (str_eqb file []) eqn:H1; [by apply str_eqb_eq in H1 |].
  destruct (str_eqb file posixpath.curdir) eqn:H2;
    [by apply str_eqb_eq in H2 |].
  cbn [orb negb]. by rewrite last_snoc.
Qed.

(** The name that [pathlib] sees in a joined path is the file's own. *)
Lemma name_join2 (root file : str) :
  wf_name file = true -> file <> posixpath.curdir ->
  pathlib.name (posixpath.join2 root file) = file.
Proof.
  intros Hwf Hdot. pose proof Hwf as [Hne Hns]%wf_name_spec.
  unfold posixpath.join2. rewrite startswith_sep_false by done.
  destruct root as [|r root]; [by apply name_of_name |].
  cbn [truthy negb orb].
  destruct (endswith (r :: root) posixpath.sep) eqn:Hend.
  - apply endswith_spec in Hend as [front Hfront]. rewrite Hfront.
    unfold posixpath.sep. rewrite <- app_assoc. by apply name_below.
  - unfold posixpath.sep. by apply (name_below (r :: root)).
Qed.

(** X8. [is_text_file] looks at the last extension of the file's own name and
    at nothing else of the path: for [stem.e] with a stem and an [e] that
    holds no dot, the answer is whether [.e], lowered, is one of the listed
    extensions; a name with no dot, a name whose only dot comes first, and
    a name that ends with a dot have no extension and are never text
    files. *)
Theorem is_text_file_last_extension (root file : str) :
  wf_name file = true ->
  file <> posixpath.curdir ->
  (forall stem e,
     file = stem ++ DOT :: e -> stem <> [] -> e <> [] -> ~ In DOT e ->
     is_text_file E (posixpath.join2 root file)
     = bool_decide (lower E (DOT :: e) ∈ text_extensions))
  /\ (lower E [] = [] ->
      ~ In DOT file
      \/ (exists e, file = DOT :: e /\ ~ In DOT e)
      \/ (exists stem, file = stem ++ [DOT]) ->
      is_text_file E (posixpath.join2 root file) = false).
Proof.
  intros Hwf Hdot. unfold is_text_file, pathlib.suffix.
  rewrite name_join2 by done. split.
  - intros stem e -> Hstem He Hin. rewrite rfind_last by done.
    rewrite length_app. cbn [length].
    assert ((0 <? length stem) = true) as ->
      by (apply Nat.ltb_lt; destruct stem; simpl; [done | lia]).
    assert ((length stem <? length stem + S (length e) - 1) = true) as ->
      by (apply Nat.ltb_lt; destruct e; simpl; [done | lia]).
    cbn [andb]. by rewrite drop_app_length.
  - intros Hlower Hcases.
    assert (match rfind DOT file with
            | Some i =>
                if (0 <? i) && (i <? length file - 1) then drop i file else []
            | None => []
            end = []) as ->.
    { destruct Hcases as [Hno | [(e & -> & Hno) | (stem & ->)]].
      - by rewrite rfind_None.
      - pose proof (rfind_last DOT [] e Hno) as Hfirst.
        cbn [app length] in Hfirst. by rewrite Hfirst.
      - rewrite (rfind_last DOT stem []) by (by intros []).
        rewrite length_app. cbn [length].
        assert ((length stem <? length stem + 1 - 1) = false) as ->
          by (apply Nat.ltb_ge; lia).
        by rewrite andb_false_r. }
    rewrite Hlower. by vm_compute.
Qed.

End MoreExtension.

(** ** A file that gets its summary *)

Section MoreFile.

Import CodeSummarizer.

Variable E : env.
Variable self : t.

(** X9. With a delay that is not negative and that [time.sleep] accepts, a
    candidate file that is read, is not empty, and gets a reply that is
    not blank after [k < max_retries] failed attempts enters [summaries]
    under its path relative to [root_dir], with the reply trimmed as its
    summary; this takes [k + 1] requests and nothing is raised. *)
Theorem file_summary_recorded (root file content reply : str) (k : nat)
    (w : world) :
  let file_path := posixpath.join2 root file in
  delay_accepted E self ->
  _should_ignore E self file_path = Some false ->
  is_text_file E file_path = true ->
  open_read E file_path = Some content ->
  content <> [] ->
  (Z.of_nat k < max_retries self)%Z ->
  (forall j, j < k ->
     failed (chat E (api_calls w + j) file_path content) = true) ->
  chat E (api_calls w + k) file_path content = ApiContent reply ->
  strip reply <> [] ->
  exists rel w',
    posixpath.relpath (getcwd E) file_path (root_dir self) = Some rel
    /\ process_file E self root file w = (Some tt, w')
    /\ summaries w' = dict_set (summaries w) rel (strip reply)
    /\ dict_get (summaries w') rel = Some (strip reply)
    /\ api_calls w' = api_calls w + S k.
Proof.
  intros file_path Hdelay Hign Htext Hread Hcontent Hk Hfail Hok Hreply.
  assert (exists rel,
            posixpath.relpath (getcwd E) file_path (root_dir self) = Some rel)
    as [rel Hrel].
  { unfold _should_ignore in Hign.
    destruct (posixpath.relpath (getcwd E) file_path (root_dir self));
      [eauto | done]. }
  destruct (attempt_loop_succeeds E self Hdelay content file_path reply k
              (Z.to_nat (max_retries self)) 0
              (after w 0 [EvLogProcessing file_path; EvOpen file_path]))
    as (evs & Hrun & _); [lia | lia | | | done |].
  { intros j Hj. simpl. rewrite Nat.add_0_r. by apply Hfail. }
  { simpl. by rewrite Nat.add_0_r. }
  exists rel. eexists. split; [done |].
  rewrite process_file_candidate by done. fold file_path.
  rewrite (run_bind_Some _ _ _ _ _
             (run_read_file_content_Some _ _ _ _ Hread)).
  rewrite after_after.
  assert (truthy content = true) as -> by by apply truthy_true.
  unfold get_code_summary, range.
  rewrite (run_bind_Some _ _ _ _ _ Hrun).
  assert (truthy (strip reply) = true) as -> by by apply truthy_true.
  rewrite run_bind, Hrel.
  unfold lift_option, ret, record_summary. cbv beta iota.
  split; [reflexivity |].
  cbn [summaries api_calls after].
  split; [reflexivity |].
  split; [by rewrite dict_get_set, str_eqb_refl | lia].
Qed.

End MoreFile.

(** ** What a built tree holds *)

Section MoreTree.

Import CodeSummarizer.

Lemma lookup_below_leaf (path : list str) :
  forall (current : list (str * tree)) (s : str) (more : list str),
    lookup current path = Some (Leaf s) -> more <> [] ->
    lookup current (path ++ more) = None.
Proof.
  induction path as [|k rest IH]; intros current s more Hlook Hmore;
    [done |].
  cbn [lookup app] in *.
  destruct (dict_get current k) as [[s' | sub]|]; [| by eapply IH | done].
  destruct rest; [| done]. by destruct more.
Qed.

Lemma lookup_empty (path : list str) (s : str) :
  lookup [] path <> Some (Leaf s).
Proof. by destruct path. Qed.

(** X10. When the build succeeds, the summaries found in the tree are exactly
    those of the items whose path no later item covers: an item is found
    at the segments of its path unless the path of a later item is a
    prefix of them, and nothing else is found. *)
Theorem built_tree_lookup (items : list (str * str)) :
  forall root,
    generate_tree_structure items = Some root ->
    forall path s,
      lookup root path = Some (Leaf s)
      <-> exists front k back,
            items = front ++ (k, s) :: back
            /\ path = split SLASH k
            /\ forall k', In k' (List.map fst back) ->
                          ~ is_prefix (split SLASH k') path.
Proof.
  induction items as [|[k v] items IH] using rev_ind; intros root Hgen path s.
  - injection Hgen as <-. split.
    + intros H. by apply lookup_empty in H.
    + intros (front & k & back & Heq & _). by destruct front.
  - rewrite generate_app in Hgen.
    destruct (generate_tree_structure items) as [root0|] eqn:Hgen0;
      [| done].
    cbn [fold_left mbind option_bind fst snd] in Hgen.
    unfold add_path in Hgen.
    pose proof (place_lookup _ _ _ _ _ Hgen) as Hnew.
    rewrite parts_removelast_last in Hnew.
    specialize (IH root0 eq_refl). split.
    + intros Hlook.
      destruct (decide (path = split SLASH k)) as [-> | Hneq].
      { rewrite Hnew in Hlook. injection Hlook as ->.
        exists items, k, []. split; [done |]. split; [done |]. by intros k' []. }
      destruct (place_leaf_origin _ _ _ _ _ _ _ Hgen Hlook) as [Hpath | Hold];
        [by rewrite parts_removelast_last in Hpath |].
      apply IH in Hold as (front & k0 & back & -> & -> & Hfree).
      exists front, k0, (back ++ [(k, v)]).
      split; [by rewrite <- app_assoc |]. split; [done |].
      intros k'. rewrite List.map_app, in_app_iff.
      intros [Hin | [<- | []]]; [by apply Hfree |].
      intros [more Hmore]. cbn [fst] in Hmore.
      destruct more as [|m more].
      * rewrite app_nil_r in Hmore. by destruct Hneq.
      * rewrite Hmore in Hlook.
        by rewrite (lookup_below_leaf _ _ _ (m :: more) Hnew) in Hlook.
    + intros (front & k0 & back & Heq & -> & Hfree).
      destruct back as [|b back _] using rev_ind.
      * apply app_inj_tail in Heq as [_ [= -> ->]]. exact Hnew.
      * rewrite app_comm_cons, app_assoc in Heq.
        apply app_inj_tail in Heq as [-> <-].
        assert (lookup root0 (split SLASH k0) = Some (Leaf s)) as Hold.
        { apply IH. exists front, k0, back. split; [done |].
          split; [done |]. intros k' Hin. apply Hfree.
          rewrite List.map_app, in_app_iff. by left. }
        destruct (place_keeps_leaf _ _ _ _ _ _ _ Hgen Hold) as [? | Hpre];
          [done |].
        rewrite parts_removelast_last in Hpre. exfalso.
        apply (Hfree k); [| done].
        rewrite List.map_app, in_app_iff. right. by left.
Qed.

End MoreTree.

(** ** The lines of a rendering *)

Section MoreRenderer.

Import CodeSummarizer TreeVisualizer.

Lemma as_lines_app (prefix : str) (a b : list str) :
  as_lines prefix (a ++ b) = as_lines prefix a ++ as_lines prefix b.
Proof. unfold as_lines. by rewrite List.map_app, concat_app. Qed.

Lemma as_lines_deeper (prefix more : str) (ls : list str) :
  as_lines (prefix ++ more) ls = as_lines prefix (List.map (app more) ls).
Proof.
  unfold as_lines. rewrite List.map_map. f_equal.
  apply List.map_ext. intros l. by rewrite <- !app_assoc.
Qed.

Lemma no_break_spec (s : str) :
  negb (existsb (N.eqb LF) s) = true <-> ~ In LF s.
Proof.
  rewrite negb_true_iff, <- not_true_iff_false, existsb_exists.
  split; intros H Hin; apply H.
  - exists LF. split; [done | apply N.eqb_refl].
  - destruct Hin as (x & Hx & ->%N.eqb_eq). done.
Qed.

Lemma no_break_app (a b : str) : ~ In LF a -> ~ In LF b -> ~ In LF (a ++ b).
Proof. intros Ha Hb [H | H]%in_app_iff; auto. Qed.

Lemma render_items_lines (rest : list (str * tree)) :
  Forall (fun kv =>
            keys_one_line (snd kv) = true ->
            forall prefix, ~ In LF prefix ->
              exists ls,
                length ls = count_entries (snd kv)
                /\ Forall (fun l => ~ In LF l) ls
                /\ _visualize_tree_recursive (snd kv) [] prefix
                   = as_lines prefix ls) rest ->
  forallb (fun kv => negb (existsb (N.eqb LF) (fst kv))
                     && keys_one_line (snd kv)) rest = true ->
  forall n i file prefix,
    ~ In LF prefix ->
    exists ls,
      length ls
      = list_sum (List.map (fun kv => S (count_entries (snd kv))) rest)
      /\ Forall (fun l => ~ In LF l) ls
      /\ render_items n i rest file prefix = file ++ as_lines prefix ls.
Proof.
  induction 1 as [|[key value] rest Hvalue _ IH]; intros Hkeys n i file prefix
    Hprefix.
  - exists []. split; [done |]. split; [constructor |].
    simpl. by rewrite app_nil_r.
  - cbn [forallb fst snd] in Hkeys.
    apply andb_true_iff in Hkeys as [[Hkey Hsub]%andb_true_iff Hkeys].
    apply no_break_spec in Hkey. cbn [snd] in Hvalue.
    cbn [render_items List.map list_sum snd].
    set (connector := if Nat.eqb i (n - 1) then CONNECTOR_LAST
                      else CONNECTOR_MID).
    assert (~ In LF connector) as Hconnector.
    { unfold connector. destruct (Nat.eqb i (n - 1)); vm_compute;
        intros H; repeat (destruct H as [H | H]; [discriminate |]); done. }
    destruct value as [summary | sub].
    + destruct (IH Hkeys n (S i)
                  (file ++ prefix ++ connector ++ key ++ lit "    "
                        ++ flat_summary summary ++ [LF]) prefix Hprefix)
        as (ls & Hlen & Hls & ->).
      exists ((connector ++ key ++ lit "    " ++ flat_summary summary) :: ls).
      split; [simpl; by rewrite Hlen |]. split.
      * constructor; [| done].
        repeat apply no_break_app; try done.
        -- vm_compute. intros H.
           repeat (destruct H as [H | H]; [discriminate |]); done.
        -- apply flat_summary_no_break.
      * unfold as_lines. cbn [List.map concat].
        by rewrite <- !app_assoc.
    + set (deeper := if Nat.eqb i (n - 1) then PREFIX_LAST else PREFIX_MID).
      assert (~ In LF deeper) as Hdeeper.
      { unfold deeper. destruct (Nat.eqb i (n - 1)); vm_compute;
          intros H; repeat (destruct H as [H | H]; [discriminate |]); done. }
      destruct (Hvalue Hsub (prefix ++ deeper) (no_break_app _ _ Hprefix Hdeeper))
        as (ls1 & Hlen1 & Hls1 & Hrun1).
      rewrite visualize_appends, Hrun1, as_lines_deeper.
      destruct (IH Hkeys n (S i)
                  ((file ++ prefix ++ connector ++ key ++ [SLASH; LF])
                   ++ as_lines prefix (List.map (app deeper) ls1))
                  prefix Hprefix)
        as (ls & Hlen & Hls & ->).
      exists ((connector ++ key ++ [SLASH]) :: List.map (app deeper) ls1 ++ ls).
      split; [simpl; by rewrite length_app, length_map, Hlen1, Hlen |].
      split.
      * constructor.
        -- repeat apply no_break_app; try done.
           vm_compute. intros [H | []]. discriminate.
        -- apply Forall_app. split; [| done].
           apply Forall_map. eapply Forall_impl; [exact Hls1 |].
           intros l Hl. by apply no_break_app.
      * rewrite app_comm_cons, as_lines_app.
        unfold as_lines at 3. cbn [List.map concat].
        by rewrite <- !app_assoc.
Qed.

(** X11. The renderer appends one line for each entry of the tree, whatever
    its depth, and nothing else: each line starts with the prefix of the
    call and, when no key holds a line break, holds none before its
    terminator. *)
Theorem rendering_is_lines (data : tree) (file prefix : str) :
  keys_one_line data = true ->
  ~ In LF prefix ->
  exists ls,
    length ls = count_entries data
    /\ Forall (fun l => ~ In LF l) ls
    /\ _visualize_tree_recursive data file prefix
       = file ++ as_lines prefix ls.
Proof.
  intros Hkeys Hprefix.
  assert (exists ls,
            length ls = count_entries data
            /\ Forall (fun l => ~ In LF l) ls
            /\ _visualize_tree_recursive data [] prefix = as_lines prefix ls)
    as (ls & Hlen & Hls & Hrun).
  { revert prefix Hprefix Hkeys.
    induction data as [summary | items IH] using tree_induction;
      intros prefix Hprefix Hkeys.
    - by exists [].
    - rewrite visualize_unfold.
      assert (Forall (fun kv =>
                keys_one_line (snd kv) = true ->
                forall prefix, ~ In LF prefix ->
                  exists ls,
                    length ls = count_entries (snd kv)
                    /\ Forall (fun l => ~ In LF l) ls
                    /\ _visualize_tree_recursive (snd kv) [] prefix
                       = as_lines prefix ls) items) as IH'.
      { eapply Forall_impl; [exact IH |]. intros kv H Hk p Hp. by apply H. }
      apply (render_items_lines items IH' Hkeys (length items) 0 [] prefix
               Hprefix). }
  exists ls. split; [done |]. split; [done |].
  by rewrite visualize_appends, Hrun.
Qed.

Lemma render_items_app (n i : nat) (a b : list (str * tree))
    (file prefix : str) :
  render_items n i (a ++ b) file prefix
  = render_items n (i + length a) b (render_items n i a file prefix) prefix.
Proof.
  revert i file. induction a as [|[key value] a IH]; intros i file.
  - cbn [app length render_items]. by rewrite Nat.add_0_r.
  - cbn [app length render_items]. rewrite IH. f_equal. lia.
Qed.

(** The text that the loop appends for some entries is one line for each
    entry found in them, whatever the keys hold. *)
Lemma render_items_shape (rest : list (str * tree)) :
  Forall (fun kv =>
            forall prefix, exists ls,
              length ls = count_entries (snd kv)
              /\ _visualize_tree_recursive (snd kv) [] prefix
                 = as_lines prefix ls) rest ->
  forall n i file prefix,
    exists ls,
      length ls = count_entries (Node rest)
      /\ render_items n i rest file prefix = file ++ as_lines prefix ls.
Proof.
  induction 1 as [|[key value] rest Hvalue _ IH]; intros n i file prefix.
  - exists []. split; [done |]. simpl. by rewrite app_nil_r.
  - cbn [snd] in Hvalue. cbn [render_items].
    set (connector := if Nat.eqb i (n - 1) then CONNECTOR_LAST
                      else CONNECTOR_MID).
    destruct value as [summary | sub].
    + destruct (IH n (S i)
                  (file ++ prefix ++ connector ++ key ++ lit "    "
                        ++ flat_summary summary ++ [LF]) prefix)
        as (ls & Hlen & ->).
      exists ((connector ++ key ++ lit "    " ++ flat_summary summary) :: ls).
      split; [simpl in Hlen |- *; lia |].
      unfold as_lines. cbn [List.map concat]. by rewrite <- !app_assoc.
    + set (deeper := if Nat.eqb i (n - 1) then PREFIX_LAST else PREFIX_MID).
      destruct (Hvalue (prefix ++ deeper)) as (ls1 & Hlen1 & Hrun1).
      rewrite visualize_appends, Hrun1, as_lines_deeper.
      destruct (IH n (S i)
                  ((file ++ prefix ++ connector ++ key ++ [SLASH; LF])
                   ++ as_lines prefix (List.map (app deeper) ls1))
                  prefix)
        as (ls & Hlen & ->).
      exists ((connector ++ key ++ [SLASH]) :: List.map (app deeper) ls1 ++ ls).
      split.
      * simpl in Hlen, Hlen1 |- *.
        rewrite length_app, length_map. lia.
      * rewrite app_comm_cons, as_lines_app.
        unfold as_lines at 3. cbn [List.map concat].
        by rewrite <- !app_assoc.
Qed.

Lemma rendering_shape (data : tree) :
  forall prefix, exists ls,
    length ls = count_entries data
    /\ _visualize_tree_recursive data [] prefix = as_lines prefix ls.
Proof.
  induction data as [summary | items IH] using tree_induction; intros prefix.
  - by exists [].
  - rewrite visualize_unfold.
    apply (render_items_shape items IH (length items) 0 [] prefix).
Qed.

Lemma render_entries_shape (rest : list (str * tree)) (n i : nat)
    (file prefix : str) :
  exists ls,
    length ls = count_entries (Node rest)
    /\ render_items n i rest file prefix = file ++ as_lines prefix ls.
Proof.
  apply render_items_shape. apply Forall_forall. intros kv _.
  apply rendering_shape.
Qed.

(** C6, as the code has it. Wherever a summary sits in a dictionary, the
    renderer, after one line for each entry found in the entries before it
    and before one line for each entry found in those after it, appends
    for it exactly the prefix, the connector (that of a last entry when no
    entry follows, that of an inner entry otherwise), the key, four
    spaces, and the summary trimmed and with every line break left in it
    replaced by [" | "], then the line terminator.  The flattened summary
    holds no line break; the text before the terminator holds none exactly
    when the prefix and the key hold none; and the summary
    ["line1\nline2\n"] under the key [k] with the prefix [P] is rendered
    as [P], connector, [k], four spaces, ["line1 | line2"] and the
    terminator. *)
Theorem leaf_rendered_on_one_line
    (front back : list (str * tree)) (key value file prefix : str) :
  let connector :=
    if is_empty back then CONNECTOR_LAST else CONNECTOR_MID in
  let summary := replace (strip value) [LF] (lit " | ") in
  let line := prefix ++ connector ++ key ++ lit "    " ++ summary in
  (exists before after,
     _visualize_tree_recursive (Node (front ++ (key, Leaf value) :: back))
       file prefix
     = file ++ as_lines prefix before ++ (line ++ [LF])
            ++ as_lines prefix after
     /\ length before = count_entries (Node front)
     /\ length after = count_entries (Node back))
  /\ ~ In LF summary
  /\ (~ In LF line <-> ~ In LF prefix /\ ~ In LF key)
  /\ _visualize_tree_recursive
       (Node [(key, Leaf (lit "line1" ++ [LF] ++ lit "line2" ++ [LF]))])
       file prefix
     = file ++ prefix ++ CONNECTOR_LAST ++ key ++ lit "    "
            ++ lit "line1 | line2" ++ [LF].
Proof.
  intros connector summary line.
  assert (~ In LF connector) as Hconnector.
  { unfold connector. destruct (is_empty back); vm_compute;
      intros H; repeat (destruct H as [H | H]; [discriminate |]); done. }
  split; [| split; [| split]].
  - rewrite visualize_unfold, render_items_app.
    destruct (render_entries_shape front
                (length (front ++ (key, Leaf value) :: back)) 0 file prefix)
      as (before & Hbefore & ->).
    cbn [render_items].
    assert (Nat.eqb (0 + length front)
                    (length (front ++ (key, Leaf value) :: back) - 1)
            = is_empty back) as ->.
    { rewrite length_app. cbn [length Nat.add].
      destruct back; cbn [length is_empty].
      - apply Nat.eqb_eq. lia.
      - apply Nat.eqb_neq. lia. }
    fold connector.
    destruct (render_entries_shape back
                (length (front ++ (key, Leaf value) :: back))
                (S (0 + length front))
                ((file ++ as_lines prefix before) ++ prefix ++ connector
                 ++ key ++ lit "    " ++ flat_summary value ++ [LF]) prefix)
      as (after & Hafter & ->).
    exists before, after. split; [| done].
    unfold line, summary, flat_summary. by rewrite <- !app_assoc.
  - apply flat_summary_no_break.
  - unfold line. split.
    + intros Hline. split; intros Hin; apply Hline.
      * apply in_or_app. by left.
      * apply in_or_app. right. apply in_or_app. right.
        apply in_or_app. by left.
    + intros [Hprefix Hkey].
      repeat apply no_break_app; try done.
      * vm_compute. intros H.
        repeat (destruct H as [H | H]; [discriminate |]); done.
      * apply flat_summary_no_break.
  - reflexivity.
Qed.

End MoreRenderer.

(** C6, as the specification states it, fails: a key that holds a line
    break is written as it is, so its entry takes two lines, the summary
    flattened on the second. *)
Lemma key_with_line_break_takes_two_lines :
  TreeVisualizer._visualize_tree_recursive
    (CodeSummarizer.Node
       [(lit "a" ++ [LF] ++ lit "b",
         CodeSummarizer.Leaf (lit "line1" ++ [LF] ++ lit "line2" ++ [LF]))])
    [] []
  = (TreeVisualizer.CONNECTOR_LAST ++ lit "a") ++ [LF]
    ++ lit "b    line1 | line2" ++ [LF]
  /\ ~ In LF (TreeVisualizer.CONNECTOR_LAST ++ lit "a")
  /\ ~ In LF (lit "b    line1 | line2").
Proof.
  split; [reflexivity |]. split; vm_compute; intuition discriminate.
Qed.

(** ** Text that cannot be encoded *)

Section Encoding.

Import CodeSummarizer TreeVisualizer.

Lemma encodable_app (a b : str) :
  encodable (a ++ b) = encodable a && encodable b.
Proof. apply forallb_app. Qed.

Lemma encodable_lstrip (s : str) :
  encodable s = true -> encodable (lstrip s) = true.
Proof.
  destruct (lstrip_suffix s) as (front & Heq & _).
  rewrite Heq at 1. rewrite encodable_app. by intros [_ ?]%andb_prop.
Qed.

Lemma encodable_rstrip (s : str) :
  encodable s = true -> encodable (rstrip s) = true.
Proof.
  destruct (rstrip_prefix s) as (back & Heq).
  rewrite Heq at 1. rewrite encodable_app. by intros [? _]%andb_prop.
Qed.

Lemma encodable_flat_summary (value : str) :
  encodable value = true -> encodable (flat_summary value) = true.
Proof.
  intros Hvalue. unfold flat_summary, strip. rewrite replace_char.
  assert (encodable (rstrip (lstrip value)) = true) as Hstrip
    by (by apply encodable_rstrip, encodable_lstrip).
  induction (rstrip (lstrip value)) as [|x s IH]; [done |].
  cbn [flat_map]. rewrite encodable_app.
  apply andb_prop in Hstrip as [Hx Hs]. rewrite (IH Hs), andb_true_r.
  destruct (LF =? x)%N; [reflexivity |]. unfold encodable. simpl.
  by rewrite andb_true_r.
Qed.

(** Over a tree whose strings can be encoded, under such a prefix, every
    write to the file succeeds: the file receives what the renderer
    produces, and that text can be encoded when what came before it can. *)
Lemma on_file_done (data : tree) :
  forall file prefix,
    tree_encodable data = true ->
    encodable prefix = true ->
    OnFile._visualize_tree_recursive data file prefix
    = Done (_visualize_tree_recursive data file prefix)
    /\ (encodable file = true ->
        encodable (_visualize_tree_recursive data file prefix) = true).
Proof.
  induction data as [summary | items IH] using tree_induction;
    intros file prefix Hdata Hprefix; [done |].
  cbn [OnFile._visualize_tree_recursive _visualize_tree_recursive].
  cbn [tree_encodable] in Hdata.
  remember (length items - 1) as m eqn:Hm. clear Hm.
  generalize 0 as i. intros i. revert file i.
  induction IH as [|[key value] rest Hvalue Hrest IHrest]; intros file i;
    [done |].
  cbn [forallb fst snd] in Hdata.
  apply andb_prop in Hdata as [[Hkey Hsub]%andb_prop Hdata].
  specialize (IHrest Hdata).
  assert (encodable (if i =? m then CONNECTOR_LAST else CONNECTOR_MID) = true)
    as Hconnector by (by destruct (i =? m)).
  destruct value as [summary | sub].
  - assert (encodable (prefix ++ (if i =? m then CONNECTOR_LAST
                                   else CONNECTOR_MID)
                         ++ key ++ lit "    "
                         ++ replace (strip summary) [LF] (lit " | ") ++ [LF])
            = true) as Hline.
    { rewrite !encodable_app, Hprefix, Hconnector, Hkey.
      change (replace (strip summary) [LF] (lit " | "))
        with (flat_summary summary).
      by rewrite (encodable_flat_summary summary Hsub). }
    unfold write. rewrite Hline.
    destruct (IHrest (file ++ prefix
                ++ (if i =? m then CONNECTOR_LAST else CONNECTOR_MID)
                ++ key ++ lit "    "
                ++ replace (strip summary) [LF] (lit " | ") ++ [LF]) (S i))
      as [Hdone Henc].
    split; [exact Hdone |].
    intros Hfile. apply Henc. by rewrite encodable_app, Hfile, Hline.
  - assert (encodable (prefix ++ (if i =? m then CONNECTOR_LAST
                                   else CONNECTOR_MID)
                         ++ key ++ [SLASH; LF]) = true) as Hline.
    { by rewrite !encodable_app, Hprefix, Hconnector, Hkey. }
    unfold write. rewrite Hline.
    assert (encodable (prefix ++ (if i =? m then PREFIX_LAST else PREFIX_MID))
            = true) as Hnew.
    { rewrite encodable_app, Hprefix. by destruct (i =? m). }
    destruct (Hvalue (file ++ prefix
                ++ (if i =? m then CONNECTOR_LAST else CONNECTOR_MID)
                ++ key ++ [SLASH; LF])
                (prefix ++ (if i =? m then PREFIX_LAST else PREFIX_MID))
                Hsub Hnew) as [Hdone Henc].
    cbn [snd] in Hdone, Henc. rewrite Hdone.
    destruct (IHrest (_visualize_tree_recursive (Node sub)
                (file ++ prefix
                   ++ (if i =? m then CONNECTOR_LAST else CONNECTOR_MID)
                   ++ key ++ [SLASH; LF])
                (prefix ++ (if i =? m then PREFIX_LAST else PREFIX_MID)))
                (S i)) as [Hdone' Henc'].
    split; [exact Hdone' |].
    intros Hfile. apply Henc', Henc.
    by rewrite encodable_app, Hfile, Hline.
Qed.








(** Chunks that can be encoded are all written. *)
Lemma write_all_done (chunks : list str) :
  forall file,
    Forall (fun s => encodable s = true) chunks ->
    write_all file chunks = Done (file ++ concat chunks).
Proof.
  induction chunks as [|s chunks IH]; intros file Hchunks.
  - simpl. by rewrite app_nil_r.
  - inversion Hchunks as [|? ? Hs Hrest]; subst.
    cbn [write_all concat]. unfold write. rewrite Hs, (IH _ Hrest).
    by rewrite <- app_assoc.
Qed.

Variable E : env.
Variable self : t.


End Encoding.

(** ** Relative paths *)

Section MorePaths.

Import CodeSummarizer.

Lemma plain_name_spec (name : str) :
  plain_name name = true
  <-> wf_name name = true /\ name <> posixpath.curdir
      /\ name <> posixpath.pardir.
Proof.
  unfold plain_name.
  rewrite !andb_true_iff, !negb_true_iff, !str_eqb_neq. tauto.
Qed.

Lemma plain_wf (segs : list str) :
  Forall (fun s => plain_name s = true) segs ->
  Forall (fun s => wf_name s = true) segs.
Proof.
  intros H. eapply Forall_impl; [exact H |].
  intros s Hs. by apply plain_name_spec in Hs as [? _].
Qed.

Lemma normpath_comps_app (s : nat) (a b acc : list str) :
  posixpath.normpath_comps s (a ++ b) acc
  = posixpath.normpath_comps s b (posixpath.normpath_comps s a acc).
Proof.
  revert acc. induction a as [|c a IH]; intros acc; [done |].
  cbn [app posixpath.normpath_comps].
  repeat match goal with |- context [if ?b then _ else _] => destruct b end;
    apply IH.
Qed.

Lemma normpath_comps_plain (s : nat) (segs acc : list str) :
  Forall (fun s => plain_name s = true) segs ->
  posixpath.normpath_comps s segs acc = acc ++ segs.
Proof.
  intros Hall. revert acc.
  induction Hall as [|c segs Hc _ IH]; intros acc;
    [by rewrite app_nil_r |].
  apply plain_name_spec in Hc as ([Hne _]%wf_name_spec & Hcur & Hpar).
  cbn [posixpath.normpath_comps].
  apply str_eqb_neq in Hne, Hcur, Hpar. rewrite Hne, Hcur, Hpar.
  cbn [orb negb]. by rewrite IH, <- app_assoc.
Qed.

Lemma normpath_comps_rooted (s s' : nat) (comps acc : list str) :
  s <> 0 -> s' <> 0 ->
  posixpath.normpath_comps s comps acc = posixpath.normpath_comps s' comps acc.
Proof.
  intros Hs Hs'. revert acc. induction comps as [|c comps IH]; intros acc;
    [done |].
  cbn [posixpath.normpath_comps].
  destruct s; [done |]. destruct s'; [done |]. cbn [Nat.eqb andb].
  by rewrite !IH.
Qed.

(** The components that [normpath] keeps are not empty and hold no
    separator. *)
Lemma normpath_comps_wf (s : nat) (comps acc : list str) :
  Forall (fun c => forallb (fun x => negb (x =? SLASH)%N) c = true) comps ->
  Forall (fun c => wf_name c = true) acc ->
  Forall (fun c => wf_name c = true) (posixpath.normpath_comps s comps acc).
Proof.
  intros Hcomps. revert acc.
  induction Hcomps as [|c comps Hc _ IH]; intros acc Hacc; [done |].
  cbn [posixpath.normpath_comps].
  destruct (str_eqb c []) eqn:Hempty; cbn [orb]; [by apply IH |].
  destruct (str_eqb c posixpath.curdir); [by apply IH |].
  match goal with |- context [if ?b then _ else _] => destruct b end;
    apply IH.
  - apply Forall_app. split; [done |]. constructor; [| constructor].
    apply wf_name_spec. split; [by apply str_eqb_neq | done].
  - destruct acc as [|a acc _] using rev_ind; [done |].
    rewrite removelast_last. by apply Forall_app in Hacc as [? _].
Qed.

Lemma split_no_sep_parts (sep : char) (s : str) :
  Forall (fun c => forallb (fun x => negb (x =? sep)%N) c = true)
         (split sep s).
Proof.
  induction s as [|x s IH]; [by repeat constructor |].
  cbn [split]. destruct (N.eqb_spec x sep) as [-> | Hx].
  - by constructor.
  - assert (negb (x =? sep)%N = true) as Hneg
      by by apply negb_true_iff, N.eqb_neq.
    destruct (split sep s) as [|w ws].
    { constructor; [simpl; by rewrite Hneg | constructor]. }
    apply Forall_cons in IH as [Hw Hws]. constructor; [| done].
    simpl. rewrite Hw, andb_true_r. by apply negb_true_iff, N.eqb_neq.
Qed.

Lemma filter_truthy_wf (comps : list str) :
  Forall (fun c => wf_name c = true) comps ->
  List.filter truthy comps = comps.
Proof.
  induction 1 as [|c comps Hc _ IH]; [done |].
  apply wf_name_spec in Hc as [Hne _]. apply truthy_true in Hne.
  simpl. by rewrite Hne, IH.
Qed.

Lemma components_of_rooted (s : nat) (comps : list str) :
  Forall (fun c => wf_name c = true) comps ->
  List.filter truthy
    (split SLASH (concat (repeat posixpath.sep s) ++ Py.join posixpath.sep comps))
  = comps.
Proof.
  intros Hcomps. induction s as [|s IH].
  - cbn [repeat concat app].
    destruct comps as [|c comps]; [done |].
    unfold posixpath.sep. rewrite split_join; [| done |].
    + by apply filter_truthy_wf.
    + by apply wf_names_no_sep.
  - cbn [repeat concat]. unfold posixpath.sep at 1.
    cbn [app split]. rewrite N.eqb_refl. cbn [List.filter truthy]. exact IH.
Qed.

(** The components of the absolute form of a rooted path. *)
Lemma components_of_abs (x : str) :
  posixpath.isabs x = true ->
  List.filter truthy (split SLASH (posixpath.normpath x))
  = posixpath.normpath_comps 1 (split SLASH x) []
  /\ Forall (fun c => wf_name c = true)
            (posixpath.normpath_comps 1 (split SLASH x) []).
Proof.
  intros Habs.
  assert (Forall (fun c => wf_name c = true)
                 (posixpath.normpath_comps 1 (split SLASH x) [])) as Hwf
    by (apply normpath_comps_wf; [apply split_no_sep_parts | constructor]).
  split; [| done].
  unfold posixpath.normpath. unfold posixpath.isabs in Habs. rewrite Habs.
  destruct x as [|c x]; [done |]. cbn [truthy negb].
  set (s := if startswith (c :: x) (posixpath.sep ++ posixpath.sep)
               && negb (startswith (c :: x)
                          (posixpath.sep ++ posixpath.sep ++ posixpath.sep))
            then 2 else 1).
  assert (s <> 0) as Hs by (unfold s; by destruct (_ && _)).
  rewrite (normpath_comps_rooted s 1) by done.
  assert (truthy (concat (repeat posixpath.sep s)
                  ++ Py.join posixpath.sep
                       (posixpath.normpath_comps 1 (split SLASH (c :: x)) []))
          = true) as ->.
  { destruct s; [done |]. done. }
  by apply components_of_rooted.
Qed.

Lemma commonprefix_app (a b : list str) :
  posixpath.commonprefix a (a ++ b) = a.
Proof.
  induction a as [|x a IH]; [by destruct b |].
  cbn [app posixpath.commonprefix]. by rewrite str_eqb_refl, IH.
Qed.

Lemma join2_relative (a b : str) :
  a <> [] -> startswith b posixpath.sep = false ->
  posixpath.join2 a b = slashed a ++ b.
Proof.
  intros Ha Hb. unfold posixpath.join2, slashed. rewrite Hb.
  destruct a as [|c a]; [done |]. cbn [truthy negb orb].
  destruct (endswith (c :: a) posixpath.sep); [done |].
  by rewrite <- app_assoc.
Qed.

Lemma endswith_app (a b : str) (p : char) :
  b <> [] -> endswith (a ++ b) [p] = endswith b [p].
Proof.
  intros Hb. destruct (exists_last Hb) as (body & c & ->).
  by rewrite app_assoc, !endswith_snoc.
Qed.

Lemma slashed_app (a b : str) : b <> [] -> slashed (a ++ b) = a ++ slashed b.
Proof.
  intros Hb. unfold slashed, posixpath.sep. rewrite endswith_app by done.
  destruct (endswith b [SLASH]); [done | by rewrite <- app_assoc].
Qed.

Lemma startswith_app (a b : str) (p : char) :
  a <> [] -> startswith (a ++ b) [p] = startswith a [p].
Proof. by destruct a. Qed.

Lemma slashed_head (a : str) (p : char) :
  a <> [] -> startswith (slashed a) [p] = startswith a [p].
Proof.
  intros Ha. unfold slashed. destruct (endswith a posixpath.sep); [done |].
  by apply startswith_app.
Qed.

(** The components of a path below a rooted one. *)
Lemma components_below (x : str) (segs : list str) :
  x <> [] -> segs <> [] ->
  Forall (fun s => plain_name s = true) segs ->
  posixpath.normpath_comps 1
    (split SLASH (slashed x ++ Py.join posixpath.sep segs)) []
  = posixpath.normpath_comps 1 (split SLASH x) [] ++ segs.
Proof.
  intros Hx Hsegs Hplain.
  unfold posixpath.sep.
  assert (split SLASH (Py.join [SLASH] segs) = segs) as Hsplit.
  { apply split_join; [done |]. by apply wf_names_no_sep, plain_wf. }
  unfold slashed, posixpath.sep. destruct (endswith x [SLASH]) eqn:Hend.
  - apply endswith_spec in Hend as [front ->].
    rewrite <- app_assoc. cbn [app].
    rewrite !split_app, Hsplit, !normpath_comps_app.
    cbn [split posixpath.normpath_comps].
    rewrite str_eqb_refl. cbn [orb].
    by rewrite normpath_comps_plain.
  - rewrite <- app_assoc. cbn [app].
    rewrite split_app, Hsplit, normpath_comps_app.
    by rewrite normpath_comps_plain.
Qed.

Lemma join_plain (p : str) (ps : list str) :
  Forall (fun s => plain_name s = true) (p :: ps) ->
  posixpath.join p ps = Py.join posixpath.sep (p :: ps).
Proof.
  intros Hall. apply plain_wf in Hall. apply Forall_cons in Hall as [Hp Hps].
  destruct ps as [|q ps]; [done |].
  pose proof Hp as [Hne _]%wf_name_spec.
  rewrite join_form by done.
  pose proof (slashed_wf [] p Hp) as Hslashed. cbn [app] in Hslashed.
  rewrite Hslashed. by rewrite <- app_assoc.
Qed.

(** The path of an entry found below [root] along plain names, taken
    relative to [root], is those names joined by the separator. *)
Lemma relpath_join (cwd root : str) (segs : list str) :
  posixpath.isabs cwd = true -> root <> [] -> segs <> [] ->
  Forall (fun s => plain_name s = true) segs ->
  posixpath.relpath cwd (posixpath.join root segs) root
  = Some (Py.join posixpath.sep segs).
Proof.
  intros Hcwd Hroot Hsegs Hplain.
  pose proof (plain_wf _ Hplain) as Hwf.
  assert (cwd <> []) as Hcwd' by (intros ->; done).
  set (J := Py.join posixpath.sep segs).
  assert (startswith J posixpath.sep = false) as HJ.
  { unfold J. destruct Hwf as [|s segs' Hs _]; [done |].
    apply wf_name_spec in Hs as [Hne Hs]. destruct s as [|c s]; [done |].
    simpl in Hs. apply andb_true_iff in Hs as [Hc _].
    apply negb_true_iff in Hc.
    rewrite join_cons_cons. unfold posixpath.sep. cbn [startswith].
    by rewrite N.eqb_sym, Hc. }
  set (x := if posixpath.isabs root then root else posixpath.join2 cwd root).
  assert (posixpath.isabs x = true
          /\ x <> []
          /\ (if posixpath.isabs (posixpath.join root segs)
              then posixpath.join root segs
              else posixpath.join2 cwd (posixpath.join root segs))
             = slashed x ++ J) as (Habs & Hx & Hy).
  { rewrite join_form by done. fold J. unfold x, posixpath.isabs in *.
    unfold posixpath.sep in *.
    rewrite startswith_app by by apply slashed_nonempty.
    rewrite slashed_head by done.
    destruct (startswith root [SLASH]) eqn:Hr.
    - split; [done |]. split; done.
    - rewrite !join2_relative; try done.
      + split; [| split].
        * rewrite startswith_app by by apply slashed_nonempty.
          by rewrite slashed_head.
        * intros H. apply app_eq_nil in H as [_ H]. done.
        * rewrite slashed_app by done. by rewrite <- app_assoc.
      + unfold posixpath.sep.
        rewrite startswith_app by by apply slashed_nonempty.
        by rewrite slashed_head. }
  unfold posixpath.relpath, posixpath.abspath. fold x. rewrite Hy.
  assert (truthy (posixpath.join root segs) = true) as ->
    by by apply truthy_true, join_nonempty.
  cbn [negb].
  assert (posixpath.isabs (slashed x ++ J) = true) as Habs'.
  { unfold posixpath.isabs, posixpath.sep in *.
    rewrite startswith_app by by apply slashed_nonempty.
    by rewrite slashed_head. }
  destruct (components_of_abs x Habs) as [-> Hcomps].
  destruct (components_of_abs (slashed x ++ J) Habs') as [-> _].
  unfold J. rewrite components_below by done.
  rewrite commonprefix_app, Nat.sub_diag, drop_app_length.
  cbn [repeat app]. destruct segs as [|p ps]; [done |].
  by rewrite join_plain.
Qed.

End MorePaths.

(** ** From the walk to the tree *)

Section MoreRun.

Import CodeSummarizer.

Variable E : env.
Variable self : t.
Hypothesis Hdelay : delay_accepted E self.

Lemma reachable_at_path (top p : str) (node n : fsnode) :
  reachable E self top node p n ->
  exists segs, at_path node segs n /\ p = posixpath.join top segs.
Proof.
  induction 1 as [top name entries
                 | top name entries e p n He Hdir Hign _ (segs & Hat & ->)].
  - exists []. split; [constructor | done].
  - exists (fs_name e :: segs). split; [by constructor | done].
Qed.

Lemma at_path_snoc (node : fsnode) (segs : list str) (name : str)
    (entries : list fsnode) (e : fsnode) :
  at_path node segs (FsDir name entries) -> In e entries ->
  at_path node (segs ++ [fs_name e]) e.
Proof.
  intros Hat He. remember (FsDir name entries) as n eqn:Hn.
  induction Hat as [node | name' entries' e' segs n Hin Hat IH].
  - subst node. apply (at_below name entries e [] e He). constructor.
  - cbn [app]. constructor; [done | by apply IH].
Qed.

Lemma at_path_plain (node : fsnode) (segs : list str) (n : fsnode) :
  at_path node segs n -> plain_names node = true ->
  Forall (fun s => plain_name s = true) segs /\ plain_names n = true.
Proof.
  induction 1 as [node | name entries e segs n Hin Hat IH]; intros Hplain.
  - split; [constructor | done].
  - cbn [plain_names] in Hplain. rewrite forallb_forall in Hplain.
    apply Hplain, andb_true_iff in Hin as [Hname He].
    destruct (IH He) as [Hsegs Hn]. split; [by constructor | done].
Qed.

Lemma at_path_split (node : fsnode) (segs more : list str) (n : fsnode) :
  at_path node (segs ++ more) n ->
  exists m, at_path node segs m /\ at_path m more n.
Proof.
  revert node. induction segs as [|s segs IH]; intros node Hat.
  - exists node. split; [constructor | done].
  - cbn [app] in Hat. inversion Hat as [| name entries e segs' n' Hin Hat' ];
      subst.
    destruct (IH e Hat') as (m & Hm & Hmore).
    exists m. split; [by constructor | done].
Qed.

Lemma same_name_same_entry (entries : list fsnode) (a b : fsnode) :
  NoDup (List.map fs_name entries) -> In a entries -> In b entries ->
  fs_name a = fs_name b -> a = b.
Proof.
  induction entries as [|e entries IH]; [done |].
  cbn [List.map]. intros [Hnotin Hnodup]%NoDup_cons [-> | Ha] [-> | Hb] Hname.
  - done.
  - destruct Hnotin. rewrite Hname. apply list_elem_of_In. by apply in_map.
  - destruct Hnotin. rewrite <- Hname. apply list_elem_of_In. by apply in_map.
  - by apply IH.
Qed.

Lemma at_path_unique (node : fsnode) (segs : list str) (n1 n2 : fsnode) :
  distinct_names node = true ->
  at_path node segs n1 -> at_path node segs n2 -> n1 = n2.
Proof.
  intros Hdistinct Hat1. revert n2 Hdistinct.
  induction Hat1 as [node | name entries e segs n Hin Hat IH];
    intros n2 Hdistinct Hat2.
  - by inversion Hat2.
  - inversion Hat2 as [| name' entries' e' segs' n' Hin' Hat' Hname]; subst.
    cbn [distinct_names] in Hdistinct.
    apply andb_true_iff in Hdistinct as [Hnodup Hall].
    apply bool_decide_eq_true in Hnodup.
    assert (e' = e) as -> by by apply (same_name_same_entry entries).
    apply IH; [| done].
    rewrite forallb_forall in Hall. by apply Hall.
Qed.

(** Nothing is found below a file. *)
Lemma nothing_below_a_file (node : fsnode) (segs more : list str)
    (name : str) (n : fsnode) :
  distinct_names node = true ->
  at_path node segs (FsFile name) ->
  at_path node (segs ++ more) n ->
  more = [].
Proof.
  intros Hdistinct Hfile Hat.
  apply at_path_split in Hat as (m & Hm & Hmore).
  rewrite (at_path_unique node segs m (FsFile name) Hdistinct Hm Hfile)
    in Hmore.
  by inversion Hmore.
Qed.

Lemma in_file_names_file (entries : list fsnode) (f : str) :
  In f (file_names entries) -> In (FsFile f) entries.
Proof.
  unfold file_names. rewrite in_map_iff.
  intros (e & <- & [He Hfile]%filter_In). by destruct e.
Qed.

(** A tree is built from any items none of whose paths is a strict
    prefix of another. *)
Lemma build_without_conflict (items : list (str * str)) :
  (forall k k', In k (List.map fst items) -> In k' (List.map fst items) ->
                ~ strict_prefix (split SLASH k') (split SLASH k)) ->
  exists root, generate_tree_structure items = Some root.
Proof.
  induction items as [|[k v] items IH] using rev_ind; intros Hfree;
    [by exists [] |].
  destruct IH as [root Hgen].
  { intros k1 k2 H1 H2. apply Hfree; rewrite List.map_app, in_app_iff;
      by left. }
  rewrite generate_app, Hgen. cbn [fold_left mbind option_bind fst snd].
  destruct (add_path root k v) as [root'|] eqn:Hadd; [by exists root' |].
  exfalso. unfold add_path in Hadd.
  apply place_None_iff in Hadd as (path & rest & s & Heq & Hne & Hlook).
  destruct (built_leaf_origin items [] root path s Hgen Hlook)
    as [Hempty | (k' & Hin & ->)].
  - by destruct path.
  - apply (Hfree k k').
    + rewrite List.map_app, in_app_iff. right. by left.
    + rewrite List.map_app, in_app_iff. by left.
    + exists (rest ++ [List.last (split SLASH k) []]). split.
      * by destruct rest.
      * rewrite app_assoc, <- Heq. symmetry. apply parts_removelast_last.
Qed.

(** The keys that a run adds are the paths of files of the tree, their
    segments joined by the separator. *)
Lemma run_keys (fs : fsnode) (w : world) :
  posixpath.isabs (getcwd E) = true ->
  root_dir self <> [] ->
  plain_names fs = true ->
  exists w',
    process_directory E self fs w = (Some tt, w')
    /\ forall kv, In kv (summaries w') ->
         In kv (summaries w)
         \/ exists segs name,
              segs <> []
              /\ Forall (fun s => plain_name s = true) segs
              /\ at_path fs segs (FsFile name)
              /\ fst kv = Py.join posixpath.sep segs.
Proof.
  intros Hcwd Hroot Hplain.
  destruct (walk_effects E self Hdelay fs (root_dir self) w Hroot)
    as (w' & evs & Hrun & Htrace & Hskel & Hacc & Hkeys).
  rewrite <- (process_directory_walk E self fs Hroot) in Hrun.
  exists w'. split; [exact Hrun |].
  intros kv Hin. destruct (Hkeys kv Hin) as [Hold | (p & Hp & Hrel)];
    [by left | right].
  apply (in_skeleton (EvLogProcessing p)) in Hp; [| done].
  rewrite Hskel in Hp.
  apply (selected_in_yields E self) in Hp
    as (top & dirs & files & file & Hy & Hfile & -> & Hc).
  destruct (yields_reachable E self fs _ _ _ _ Hy)
    as (name & entries & Hreach & ->).
  apply reachable_at_path in Hreach as (segs & Hat & ->).
  apply in_file_names_file in Hfile.
  pose proof (at_path_snoc fs segs name entries (FsFile file) Hat Hfile)
    as Hat'.
  cbn [fs_name] in Hat'.
  destruct (at_path_plain _ _ _ Hat' Hplain) as [Hsegs _].
  exists (segs ++ [file]), file. split; [by destruct segs |].
  split; [exact Hsegs |]. split; [exact Hat' |].
  rewrite <- join_snoc, relpath_join in Hrel; try done.
  - by injection Hrel.
  - by destruct segs.
Qed.

(** The run and the build, together. *)
Lemma run_builds (fs : fsnode) :
  posixpath.isabs (getcwd E) = true ->
  root_dir self <> [] ->
  plain_names fs = true ->
  distinct_names fs = true ->
  exists w' root,
    process_directory E self fs initial_world = (Some tt, w')
    /\ NoDup (List.map fst (summaries w'))
    /\ (forall k v, In (k, v) (summaries w') ->
          v <> [] /\ trimmed v
          /\ exists segs name,
               at_path fs segs (FsFile name)
               /\ k = Py.join posixpath.sep segs
               /\ split SLASH k = segs)
    /\ generate_tree_structure (summaries w') = Some root
    /\ Permutation (reflatten root) (summaries w').
Proof.
  intros Hcwd Hroot Hplain Hdistinct.
  destruct (run_keys fs initial_world Hcwd Hroot Hplain) as (w' & Hrun & Hkeys).
  assert (summaries_grow initial_world w') as (_ & Hnodup & Hvalues).
  { eapply (preserves_process_directory E self summaries_grow);
      eauto using summaries_grow_refl, summaries_grow_trans,
                  summaries_grow_same, summaries_grow_file. }
  specialize (Hnodup (NoDup_nil_2)).
  assert (forall k v, In (k, v) (summaries w') ->
            exists segs name,
              at_path fs segs (FsFile name)
              /\ k = Py.join posixpath.sep segs
              /\ split SLASH k = segs) as Hpaths.
  { intros k v Hin.
    destruct (Hkeys (k, v) Hin) as [[] | (segs & name & Hne & Hsegs & Hat & Hk)].
    cbn [fst] in Hk. exists segs, name. split; [done |]. split; [done |].
    rewrite Hk. unfold posixpath.sep. apply split_join; [done |].
    by apply wf_names_no_sep, plain_wf. }
  assert (forall p q, In p (List.map fst (summaries w')) ->
                      In q (List.map fst (summaries w')) ->
                      ~ strict_prefix (split SLASH p) (split SLASH q))
    as Hfree.
  { intros p q ([p' vp] & <- & Hp)%in_map_iff ([q' vq] & <- & Hq)%in_map_iff.
    cbn [fst].
    destruct (Hpaths p' vp Hp) as (sp & np & Hatp & _ & ->).
    destruct (Hpaths q' vq Hq) as (sq & nq & Hatq & _ & ->).
    intros (more & Hmore & ->).
    by apply (nothing_below_a_file fs sp more np _ Hdistinct Hatp) in Hatq. }
  destruct (build_fresh (summaries w') [] []) as (root & Hgen & _ & Hperm);
    try done.
  exists w', root. split; [exact Hrun |]. split; [exact Hnodup |].
  split.
  { intros k v Hin. destruct (Hvalues k v Hin) as [[] | [Hne Htrim]].
    split; [done |]. split; [done |]. by apply (Hpaths k v). }
  split; [exact Hgen |].
  unfold reflatten. rewrite Hperm. simpl. by rewrite reflatten_segs.
Qed.

End MoreRun.

Section BuiltFromARun.

Import CodeSummarizer.

Variable E : env.
Variable self : t.

(** X12. With a delay that is not negative and that [time.sleep] accepts, a
    run over a directory tree with plain, distinct names, started with no
    summaries, returns normally with a mapping from which the tree is
    always built: its keys are distinct, each is the path of a file of the
    directory tree with its segments joined by the separator, each summary
    is trimmed and not empty, and the tree built holds exactly the entries
    of the mapping. *)
Theorem walk_output_builds (fs : fsnode) :
  delay_accepted E self ->
  posixpath.isabs (getcwd E) = true ->
  root_dir self <> [] ->
  plain_names fs = true ->
  distinct_names fs = true ->
  exists w' root,
    process_directory E self fs initial_world = (Some tt, w')
    /\ NoDup (List.map fst (summaries w'))
    /\ (forall k v, In (k, v) (summaries w') ->
          v <> [] /\ trimmed v
          /\ exists segs name,
               at_path fs segs (FsFile name)
               /\ k = Py.join posixpath.sep segs
               /\ split SLASH k = segs)
    /\ generate_tree_structure (summaries w') = Some root
    /\ Permutation (reflatten root) (summaries w').
Proof. intros Hdelay. by apply run_builds. Qed.

End BuiltFromARun.

(** ** What the visualizer leaves alone *)

Section MoreVisualizer.

Import CodeSummarizer TreeVisualizer Programs.

Variable E : TreeVisualizer.env.
Variable self : TreeVisualizer.t.

Lemma load_json_stdout (w : world) :
  exists said, stdout (snd (load_json E self w)) = stdout w ++ said.
Proof.
  unfold load_json.
  destruct (files w !! json_file self) as [text|]; [| simpl; eauto].
  destruct (json_loads E text) as [e | data]; simpl; [eauto |].
  exists []. by rewrite app_nil_r.
Qed.

Lemma print_adds (said : str) (s : str) (w0 w : world) :
  stdout w0 = stdout w ++ said ->
  exists said', stdout (print s w0) = stdout w ++ said'.
Proof.
  intros Hsaid. exists (said ++ s ++ [LF]). unfold print. cbn [stdout].
  by rewrite Hsaid, <- app_assoc.
Qed.

Lemma print_tree_adds (w : world) :
  files (snd (print_tree E self w)) = files w
  /\ exists said, stdout (snd (print_tree E self w)) = stdout w ++ said.
Proof.
  pose proof (load_json_files E self w) as Hfiles.
  destruct (load_json_stdout w) as [said Hsaid].
  unfold print_tree.
  destruct (load_json E self w) as [data w1]. cbn [fst snd] in *.
  destruct (is_empty data).
  - cbn [snd]. split; [exact Hfiles |]. by eapply print_adds.
  - destruct (print_adds said TITLE w1 w Hsaid) as [said1 Hsaid1].
    destruct (print_adds said1 (RULE ++ [LF]) _ w Hsaid1) as [said2 Hsaid2].
    destruct (encodable (_visualize_tree_recursive (Node data) [] []));
      cbn [snd]; (split; [exact Hfiles |]).
    + by eapply print_adds.
    + by exists said2.
Qed.

Lemma visualize_adds (w : world) :
  (forall path, path <> output_file self ->
                files (visualize E self w) !! path = files w !! path)
  /\ (fst (load_json E self w) = []
      \/ write_error E (output_file self) <> None ->
      files (visualize E self w) = files w)
  /\ exists said, stdout (visualize E self w) = stdout w ++ said.
Proof.
  pose proof (load_json_files E self w) as Hfiles.
  destruct (load_json_stdout w) as [said Hsaid].
  unfold visualize.
  destruct (load_json E self w) as [data w1]. cbn [fst snd] in *.
  destruct data as [|item data]; cbn [is_empty].
  { split; [by intros; cbn [print files]; rewrite Hfiles |].
    split; [by intros; cbn [print files] |]. by eapply print_adds. }
  destruct (write_error E (output_file self)) as [e|] eqn:Hwrite.
  { split; [by intros; cbn [print files]; rewrite Hfiles |].
    split; [by intros; cbn [print files] |]. by eapply print_adds. }
  assert (forall f s,
            (forall path, path <> output_file self ->
               files (print s (write_file (output_file self) f w1)) !! path
               = files w !! path)
            /\ exists said',
                 stdout (print s (write_file (output_file self) f w1))
                 = stdout w ++ said') as Hwritten.
  { intros f s. split.
    - intros path Hpath. cbn [print write_file files].
      by rewrite lookup_insert_ne, Hfiles.
    - by eapply print_adds. }
  split; [| split; [by intros [? | ?] |]].
  - intros path Hpath.
    destruct (OnFile._visualize_tree_recursive _ _ _) as [f | f bad].
    + destruct (encodable (SAVED_TO ++ output_file self));
        by apply Hwritten.
    + by apply Hwritten.
  - destruct (OnFile._visualize_tree_recursive _ _ _) as [f | f bad].
    + destruct (encodable (SAVED_TO ++ output_file self));
        apply (Hwritten f).
    + apply (Hwritten f).
Qed.

(** X13. [visualize] changes no file but its output file, and not even that
    one when there is nothing to render or the file cannot be opened;
    [print_tree] changes no file at all; both only add to standard
    output. *)
Theorem visualizer_frame (w : world) :
  (forall path, path <> output_file self ->
                files (visualize E self w) !! path = files w !! path)
  /\ (fst (load_json E self w) = []
      \/ write_error E (output_file self) <> None ->
      files (visualize E self w) = files w)
  /\ files (snd (print_tree E self w)) = files w
  /\ (exists said, stdout (visualize E self w) = stdout w ++ said)
  /\ (exists said, stdout (snd (print_tree E self w)) = stdout w ++ said).
Proof.
  destruct (visualize_adds w) as (Hother & Hsame & Hsaid).
  destruct (print_tree_adds w) as [Hfiles Hprinted].
  done.
Qed.

End MoreVisualizer.

(** ** From the summarizer to the visualizer *)

Section MorePrograms.

Import CodeSummarizer Programs.

Variable E : CodeSummarizer.env.
Variable O : output_env.
Variable V : TreeVisualizer.env.

(** X14. The two programs run one after the other.  Take a directory tree
    with plain, distinct names, a delay that is not negative and that
    [time.sleep] accepts, two files that can be opened for writing, a JSON
    writer whose pieces can be encoded when the strings of the tree can,
    and a run whose tree has keys and summaries that can be encoded and
    whose document the parser reads back.  Then [main] of the summarizer
    returns normally and leaves in [code_summary_tree.json] the dump of a
    tree that holds exactly the summaries of the run; [main] of the
    visualizer then reads that tree and, unless it is empty, writes its
    rendering under the header to [code_summary_tree.txt], leaving the
    document as it is. *)
Theorem summarize_then_visualize (max_retries retry_delay : Z)
    (gitignore : option (list str)) (fs : fsnode)
    (files : gmap str str) (out : str) :
  delay_accepted E (summarizer max_retries retry_delay gitignore) ->
  posixpath.isabs (getcwd E) = true ->
  plain_names fs = true ->
  distinct_names fs = true ->
  cannot_write O TREE_JSON = false ->
  TreeVisualizer.write_error V TREE_TXT = None ->
  (forall root,
     tree_encodable (Node root) = true ->
     Forall (fun s => encodable s = true) (json_chunks O root)) ->
  (forall w' root,
     process_directory E (summarizer max_retries retry_delay gitignore) fs
       initial_world = (Some tt, w') ->
     generate_tree_structure (summaries w') = Some root ->
     tree_encodable (Node root) = true
     /\ TreeVisualizer.json_loads V (json_dumps O root) = inr root) ->
  exists w' root files',
    process_directory E (summarizer max_retries retry_delay gitignore) fs
      initial_world = (Some tt, w')
    /\ Permutation (reflatten root) (summaries w')
    /\ summarizer_main E O max_retries retry_delay gitignore fs files
       = (Some tt, files')
    /\ files' = <[TREE_JSON := json_dumps O root]> files
    /\ let w := visualizer_main V
                  {| TreeVisualizer.files := files';
                     TreeVisualizer.stdout := out |} in
       TreeVisualizer.files w !! TREE_JSON = Some (json_dumps O root)
       /\ if TreeVisualizer.is_empty root
          then TreeVisualizer.files w = files'
               /\ TreeVisualizer.stdout w
                  = out ++ TreeVisualizer.NO_DATA ++ [LF]
          else TreeVisualizer.files w !! TREE_TXT
               = Some (header
                       ++ TreeVisualizer._visualize_tree_recursive
                            (Node root) [] []).
Proof.
  intros Hdelay Hcwd Hplain Hdistinct Hjson Htxt Hchunks Hround.
  destruct (run_builds E (summarizer max_retries retry_delay gitignore)
              Hdelay fs Hcwd ltac:(done) Hplain Hdistinct)
    as (w' & root & Hrun & _ & _ & Hgen & Hperm).
  destruct (Hround w' root Hrun Hgen) as [Hencodable Hloads].
  exists w', root, (<[TREE_JSON := json_dumps O root]> files).
  split; [exact Hrun |]. split; [exact Hperm |].
  split.
  { unfold summarizer_main, save_tree_to_file.
    rewrite Hrun, Hgen, Hjson.
    by rewrite (write_all_done _ [] (Hchunks root Hencodable)). }
  split; [done |].
  unfold visualizer_main, TreeVisualizer.visualize, TreeVisualizer.load_json.
  cbn [TreeVisualizer.files TreeVisualizer.json_file
       TreeVisualizer.output_file].
  rewrite lookup_insert_eq, Hloads.
  destruct root as [|item root]; cbn [TreeVisualizer.is_empty].
  - cbn [TreeVisualizer.print TreeVisualizer.files TreeVisualizer.stdout].
    by rewrite lookup_insert_eq.
  - rewrite Htxt.
    destruct (on_file_done (Node (item :: root))
                ((TreeVisualizer.TITLE ++ [LF])
                   ++ TreeVisualizer.RULE ++ [LF; LF]) []
                Hencodable eq_refl) as [-> _].
    assert (encodable (TreeVisualizer.SAVED_TO ++ TREE_TXT) = true) as ->
      by reflexivity.
    cbn [TreeVisualizer.print TreeVisualizer.write_file TreeVisualizer.files].
    split.
    + rewrite lookup_insert_ne by (by vm_compute).
      by rewrite lookup_insert_eq.
    + rewrite lookup_insert_eq. f_equal.
      rewrite visualize_appends. unfold header.
      by rewrite <- !app_assoc.
Qed.

End MorePrograms.

(** ** A failure that ends the run *)

Section MoreFailures.

Import CodeSummarizer.

Variable E : env.
Variable self : t.

(** X15. With a negative delay and more than one attempt allowed, the first
    failed attempt (the request raises or the reply is blank) ends the
    run: [time.sleep] raises in the handler, the exception leaves
    [get_code_summary] after one request and goes through the loop over
    the files, whose remaining files are not processed; [summaries] is
    left as it was. *)
Theorem negative_delay_aborts (root file content : str) (rest : list str)
    (w : world) :
  let file_path := posixpath.join2 root file in
  (retry_delay self < 0)%Z ->
  (1 < max_retries self)%Z ->
  _should_ignore E self file_path = Some false ->
  is_text_file E file_path = true ->
  open_read E file_path = Some content ->
  content <> [] ->
  failed (chat E (api_calls w) file_path content) = true ->
  exists evs,
    get_code_summary E self content file_path w = (None, after w 1 evs)
    /\ List.filter is_request_or_sleep evs = [EvRequest file_path content]
    /\ process_file E self root file w
       = (None, after w 1 ([EvLogProcessing file_path; EvOpen file_path]
                           ++ evs))
    /\ for_each (file :: rest) (process_file E self root) w
       = (None, after w 1 ([EvLogProcessing file_path; EvOpen file_path]
                           ++ evs)).
Proof.
  intros file_path Hneg Hmax Hign Htext Hread Hcontent Hfail.
  set (evs := match chat E (api_calls w) file_path content with
              | ApiError => [EvRequest file_path content; EvLogApiFailed]
              | ApiContent _ =>
                  [EvRequest file_path content; EvLogEmptySummary 1;
                   EvLogApiFailed]
              end).
  assert (forall w0,
            api_calls w0 = api_calls w ->
            get_code_summary E self content file_path w0
            = (None, after w0 1 evs)) as Hsummary.
  { intros w0 Hcalls. unfold get_code_summary, range.
    destruct (Z.to_nat (max_retries self)) as [|n] eqn:Hn; [lia |].
    cbn [seq List.map attempt_loop]. rewrite run_bind.
    unfold attempt_body, try_except. rewrite run_bind, run_request.
    cbv beta iota. rewrite Hcalls.
    assert (forall evs0,
              (emit EvLogApiFailed;;
               if (Z.of_nat 0 <? max_retries self - 1)%Z
               then sleep E (retry_delay self);; mret Continue
               else mret (Return None)) (after w0 1 evs0)
              = (None : option (control (option str)),
                 after w0 1 (evs0 ++ [EvLogApiFailed]))) as Hhandler.
    { intros evs0. rewrite run_bind, run_emit, after_after. cbv beta iota.
      destruct (Z.ltb_spec (Z.of_nat 0) (max_retries self - 1)) as [_ | Hge];
        [| simpl in Hge; lia].
      rewrite run_bind. unfold sleep.
      by destruct (Z.ltb_spec (retry_delay self) 0) as [_ | Hge]; [| lia]. }
    unfold evs.
    destruct (chat E (api_calls w) file_path content) as [|reply].
    - unfold raise at 1. by rewrite Hhandler.
    - simpl in Hfail. apply negb_true_iff in Hfail. rewrite Hfail.
      rewrite run_bind, run_emit, after_after. cbv beta iota.
      change (1 + 0) with 1. rewrite run_bind. unfold sleep at 1.
      destruct (Z.ltb_spec (retry_delay self) 0) as [_ | Hge]; [| lia].
      unfold raise at 1. by rewrite Hhandler. }
  exists evs. split; [by apply Hsummary |].
  split; [unfold evs; by destruct (chat E (api_calls w) file_path content) |].
  assert (process_file E self root file w
          = (None, after w 1 ([EvLogProcessing file_path; EvOpen file_path]
                              ++ evs))) as Hfile.
  { rewrite process_file_candidate by done. fold file_path.
    rewrite (run_bind_Some _ _ _ _ _
               (run_read_file_content_Some _ _ _ _ Hread)).
    assert (truthy content = true) as -> by by apply truthy_true.
    rewrite run_bind, Hsummary, !after_after; [done |].
    simpl. lia. }
  split; [exact Hfile |].
  cbn [for_each]. by rewrite run_bind, Hfile.
Qed.

End MoreFailures.

(** ** A run, however it ends *)

Section AnyOutcome.

Import CodeSummarizer.

Variable E : env.
Variable self : t.

(** What processing one file leaves, whether it returns or raises. *)
Lemma process_file_any (root file : str) (w : world) :
  let file_path := posixpath.join2 root file in
  file_path <> [] ->
  exists r w' evs,
    process_file E self root file w = (r, w')
    /\ trace w' = trace w ++ evs
    /\ skeleton evs
       = List.map EvLogProcessing (List.filter (candidate E self) [file_path])
    /\ Forall (file_event file_path) evs
    /\ keys_announced E self w w' evs
    /\ (candidate E self file_path = false -> r = Some tt /\ w' = w)
    /\ (candidate E self file_path = true ->
        exists evs', evs = EvLogProcessing file_path :: EvOpen file_path :: evs').
Proof.
  intros file_path Hne.
  destruct (should_ignore_is_Some E self file_path Hne) as [ignored Hign].
  destruct (negb ignored && is_text_file E file_path) eqn:Hcand.
  - apply andb_true_iff in Hcand as [Hi Htext].
    apply negb_true_iff in Hi. subst ignored.
    assert (candidate E self file_path = true) as Hc.
    { unfold candidate. rewrite Htext, andb_true_r. by apply kept_true. }
    rewrite process_file_candidate by done. fold file_path.
    cbn [List.filter List.map]. rewrite Hc. cbn [List.map].
    unfold read_file_content. rewrite run_bind, run_bind, run_emit, after_after.
    cbv beta iota. change (0 + 0) with 0.
    assert (forall (r : option unit) d n evs,
              Forall (file_event file_path) evs -> skeleton evs = [] ->
              (forall kv, In kv d ->
                 In kv (summaries w)
                 \/ posixpath.relpath (getcwd E) file_path (root_dir self)
                    = Some (fst kv)) ->
              exists r0 w' evs',
                (r, {| summaries := d; api_calls := api_calls w + n;
                       trace := trace w ++ ([EvLogProcessing file_path]
                                            ++ [EvOpen file_path]) ++ evs |})
                = (r0, w')
                /\ trace w' = trace w ++ evs'
                /\ skeleton evs' = [EvLogProcessing file_path]
                /\ Forall (file_event file_path) evs'
                /\ keys_announced E self w w' evs'
                /\ (true = false -> r0 = Some tt /\ w' = w)
                /\ (true = true ->
                    exists evs'', evs' = EvLogProcessing file_path
                                         :: EvOpen file_path :: evs''))
      as Hdone.
    { intros r d n evs Hall Hskel Hkeys.
      eexists r, _, (EvLogProcessing file_path :: EvOpen file_path :: evs).
      split; [reflexivity |]. split; [reflexivity |].
      split; [unfold skeleton in *; simpl; by rewrite Hskel |].
      split; [own_events |].
      split; [| split; [done | eauto]].
      intros kv Hin. cbn [summaries] in Hin.
      destruct (Hkeys kv Hin) as [? | Hrel]; [by left | right].
      exists file_path. split; [by left | done]. }
    destruct (open_read E file_path) as [content|].
    + unfold mret at 1, M_ret at 1, ret at 1. cbv beta iota.
      destruct (truthy content).
      * unfold get_code_summary. rewrite run_bind.
        destruct (attempt_loop_bounds E self (range (max_retries self)) content
                    file_path
                    (after w 0 ([EvLogProcessing file_path]
                                ++ [EvOpen file_path])))
          as (r & n & evs & Hrun & _ & _ & Hall & Hskel & _).
        rewrite Hrun, after_after.
        destruct r as [[summary|]|]; cbv beta iota.
        -- destruct (truthy summary).
           ++ rewrite run_bind.
              destruct (posixpath.relpath (getcwd E) file_path (root_dir self))
                as [rel|] eqn:Hrel.
              ** apply (Hdone (Some tt) _ (0 + n) evs Hall Hskel).
                 intros kv [-> | Hin]%dict_set_In; [by right | by left].
              ** apply (Hdone None _ (0 + n) evs Hall Hskel). auto.
           ++ apply (Hdone (Some tt) _ (0 + n) evs Hall Hskel). auto.
        -- apply (Hdone (Some tt) _ (0 + n) evs Hall Hskel). auto.
        -- apply (Hdone None _ (0 + n) evs Hall Hskel). auto.
      * destruct (Hdone (Some tt) (summaries w) 0 [] ltac:(constructor) eq_refl
                    ltac:(auto)) as (r0 & w' & evs' & Heq & H).
        exists r0, w', evs'. split; [| exact H].
        rewrite <- Heq. unfold after. by rewrite app_nil_r.
    + rewrite run_bind, run_emit, after_after. cbv beta iota.
      apply (Hdone (Some tt) (summaries w) (0 + 0) [EvLogReadFailed file_path]);
        [own_events | done | auto].
  - assert (candidate E self file_path = false) as Hc.
    { unfold candidate. apply andb_false_iff in Hcand as [Hi | Ht].
      - apply negb_false_iff in Hi. subst ignored.
        apply andb_false_iff. left. unfold kept.
        apply bool_decide_eq_false. congruence.
      - apply andb_false_iff. by right. }
    rewrite (process_file_not_candidate E self root file ignored w Hign Hcand).
    exists (Some tt), w, []. simpl. rewrite Hc, app_nil_r.
    split; [done |]. split; [done |]. split; [done |]. split; [constructor |].
    split; [| split; [done | congruence]].
    intros kv Hin. by left.
Qed.

Lemma so_far_all {A} (r : option A) (full : list event) :
  so_far r full full.
Proof. exists []. by rewrite app_nil_r. Qed.

Lemma so_far_raised {A} (full part rest : list event) :
  full = part ++ rest -> so_far (@None A) full part.
Proof. intros ->. by exists rest. Qed.

(** Two steps in a row: the second runs when the first returned. *)
Lemma so_far_seq {A B} (r1 : option A) (r2 : option B)
    (full1 full2 part1 part2 : list event) :
  so_far r1 full1 part1 ->
  (r1 <> None -> so_far r2 full2 part2) ->
  (r1 = None -> r2 = None /\ part2 = []) ->
  so_far r2 (full1 ++ full2) (part1 ++ part2).
Proof.
  intros (rest1 & -> & Hrest1) Hsecond Hraised.
  destruct r1 as [a|].
  - rewrite (Hrest1 ltac:(done)), app_nil_r.
    destruct (Hsecond ltac:(done)) as (rest2 & -> & Hrest2).
    exists rest2. by rewrite <- app_assoc.
  - destruct (Hraised eq_refl) as [-> ->]. rewrite app_nil_r.
    exists (rest1 ++ full2). by rewrite <- app_assoc.
Qed.

Lemma process_files_any (root : str) (files : list str) (w : world) :
  root <> [] ->
  exists r w' evs,
    for_each files (process_file E self root) w = (r, w')
    /\ trace w' = trace w ++ evs
    /\ so_far r
         (List.map EvLogProcessing
            (List.filter (candidate E self)
                         (List.map (posixpath.join2 root) files)))
         (skeleton evs)
    /\ accounted evs
    /\ keys_announced E self w w' evs.
Proof.
  intros Hroot. revert w. induction files as [|file files IH]; intros w.
  - exists (Some tt), w, []. simpl. rewrite app_nil_r.
    split; [done |]. split; [done |]. split; [apply so_far_all |].
    split; [constructor | apply keys_announced_refl].
  - destruct (process_file_any root file w (join2_nonempty _ _ Hroot))
      as (r1 & w1 & evs1 & Hrun1 & Htrace1 & Hskel1 & Hall1 & Hkeys1 & Hno & Hyes).
    assert (accounted evs1) as Hacc1.
    { destruct (candidate E self (posixpath.join2 root file)) eqn:Hc.
      - destruct (Hyes eq_refl) as [evs' ->].
        by apply file_events_accounted.
      - destruct (Hno eq_refl) as [_ ->].
        assert (evs1 = []) as ->; [| constructor].
        apply (app_inv_head (trace w)). by rewrite app_nil_r. }
    assert (List.map EvLogProcessing
              (List.filter (candidate E self)
                 (List.map (posixpath.join2 root) (file :: files)))
            = skeleton evs1
              ++ List.map EvLogProcessing
                   (List.filter (candidate E self)
                      (List.map (posixpath.join2 root) files))) as Hfull.
    { rewrite Hskel1. simpl.
      destruct (candidate E self (posixpath.join2 root file)); by simpl. }
    cbn [for_each]. rewrite run_bind, Hrun1.
    destruct r1 as [[]|]; cbv beta iota.
    + destruct (IH w1) as (r2 & w2 & evs2 & Hrun2 & Htrace2 & Hfar2 & Hacc2 & Hkeys2).
      exists r2, w2, (evs1 ++ evs2).
      split; [exact Hrun2 |].
      split; [by rewrite Htrace2, Htrace1, <- app_assoc |].
      split.
      { rewrite Hfull, skeleton_app.
        apply (so_far_seq (Some tt) r2); [apply so_far_all | done | done]. }
      split; [by apply accounted_app | by eapply keys_announced_trans].
    + exists None, w1, evs1.
      split; [done |]. split; [done |].
      split; [by eapply so_far_raised |]. done.
Qed.

Lemma walk_body_any (top : str) (dirs files : list str) (w : world) :
  top <> [] ->
  exists r w' evs,
    walk_body E self top dirs files w = (r, w')
    /\ (r = None
        \/ r = Some (List.filter (fun d => kept E self (posixpath.join2 top d))
                                 dirs))
    /\ trace w' = trace w ++ evs
    /\ so_far r
         (List.map EvLogProcessing
            (List.filter (candidate E self)
                         (List.map (posixpath.join2 top) files)))
         (skeleton evs)
    /\ accounted evs
    /\ keys_announced E self w w' evs.
Proof.
  intros Htop.
  destruct (process_files_any top files w Htop)
    as (r & w' & evs & Hrun & Htrace & Hfar & Hacc & Hkeys).
  unfold walk_body.
  rewrite (filter_m_dirs E self top dirs Htop). simpl.
  rewrite run_bind. simpl. rewrite run_bind, Hrun.
  destruct r as [[]|]; cbv beta iota.
  - eexists _, w', evs. split; [reflexivity |]. split; [by right |].
    split; [done |]. split; [| done].
    destruct Hfar as (rest & Hfull & Hrest). exists rest. split; [done |].
    intros _. by apply Hrest.
  - exists None, w', evs. split; [done |]. split; [by left |].
    split; [done |]. split; [| done].
    destruct Hfar as (rest & Hfull & _). by exists rest.
Qed.

Lemma walk_children_any (top : str) (dirs' : list str)
    (es : list fsnode) (w : world) :
  top <> [] ->
  Forall (walk_any E self) es ->
  (forall e, In e es -> is_dir e = true ->
     bool_decide (fs_name e ∈ dirs')
     = kept E self (posixpath.join2 top (fs_name e))) ->
  exists r w' evs,
    walk_children (walk_body E self) top dirs' es w = (r, w')
    /\ trace w' = trace w ++ evs
    /\ so_far r
         (flat_map (yield_skeleton E self)
            (flat_map
               (fun e =>
                  if is_dir e && kept E self (posixpath.join2 top (fs_name e))
                  then yields E self (posixpath.join2 top (fs_name e)) e
                  else [])
               es))
         (skeleton evs)
    /\ accounted evs
    /\ keys_announced E self w w' evs.
Proof.
  intros Htop Hall. revert w. induction Hall as [|e es He Hes IH]; intros w Hmem.
  - exists (Some tt), w, []. simpl. rewrite app_nil_r.
    split; [done |]. split; [done |]. split; [apply so_far_all |].
    split; [constructor | apply keys_announced_refl].
  - unfold walk_children. cbn [for_each]. rewrite run_bind.
    assert (exists r1 w1 evs1,
              (if is_dir e && bool_decide (fs_name e ∈ dirs')
               then walk (walk_body E self) (posixpath.join2 top (fs_name e)) e
               else mret tt) w = (r1, w1)
              /\ trace w1 = trace w ++ evs1
              /\ so_far r1
                   (flat_map (yield_skeleton E self)
                      (if is_dir e
                          && kept E self (posixpath.join2 top (fs_name e))
                       then yields E self (posixpath.join2 top (fs_name e)) e
                       else []))
                   (skeleton evs1)
              /\ accounted evs1
              /\ keys_announced E self w w1 evs1)
      as (r1 & w1 & evs1 & Hrun1 & Htrace1 & Hfar1 & Hacc1 & Hkeys1).
    { assert (exists r1 w1 evs1,
                (mret tt : M unit) w = (r1, w1)
                /\ trace w1 = trace w ++ evs1
                /\ so_far r1 (flat_map (yield_skeleton E self) [])
                          (skeleton evs1)
                /\ accounted evs1
                /\ keys_announced E self w w1 evs1) as Hskip.
      { exists (Some tt), w, []. simpl. rewrite app_nil_r.
        split; [done |]. split; [done |]. split; [apply so_far_all |].
        split; [constructor | apply keys_announced_refl]. }
      destruct (is_dir e) eqn:Hdir; cbn [andb]; [| exact Hskip].
      rewrite (Hmem e (or_introl eq_refl) Hdir).
      destruct (kept E self (posixpath.join2 top (fs_name e))); [| exact Hskip].
      apply He. by apply join2_nonempty. }
    rewrite Hrun1.
    destruct r1 as [[]|]; cbv beta iota.
    + destruct (IH w1) as (r2 & w2 & evs2 & Hrun2 & Htrace2 & Hfar2 & Hacc2 & Hkeys2).
      { intros e' Hin. apply Hmem. by right. }
      exists r2, w2, (evs1 ++ evs2).
      split; [exact Hrun2 |].
      split; [by rewrite Htrace2, Htrace1, <- app_assoc |].
      split.
      { cbn [flat_map]. rewrite flat_map_app, skeleton_app.
        by apply (so_far_seq (Some tt) r2). }
      split; [by apply accounted_app | by eapply keys_announced_trans].
    + exists None, w1, evs1.
      split; [done |]. split; [done |].
      split; [| done].
      cbn [flat_map]. rewrite flat_map_app.
      destruct Hfar1 as (rest & -> & _).
      eapply so_far_raised. by rewrite <- app_assoc.
Qed.

(** The whole walk, however it ends. *)
Lemma walk_any_holds (node : fsnode) : walk_any E self node.
Proof.
  induction node as [name | name entries IH] using fsnode_induction;
    intros top w Htop.
  - exists (Some tt), w, []. simpl. rewrite app_nil_r.
    split; [done |]. split; [done |]. split; [apply so_far_all |].
    split; [constructor | apply keys_announced_refl].
  - rewrite walk_unfold, run_bind, run_emit. cbv beta iota.
    destruct (walk_body_any top (dir_names entries) (file_names entries)
                (after w 0 [EvScandir top]) Htop)
      as (r1 & w1 & evs1 & Hrun1 & Hdirs & Htrace1 & Hfar1 & Hacc1 & Hkeys1).
    rewrite run_bind, Hrun1.
    assert (accounted [EvScandir top]) as Hlisting.
    { unfold accounted. apply List.Forall_cons; [| apply List.Forall_nil].
      intros p Hp. simpl in Hp. injection Hp as <-. by left. }
    assert (keys_announced E self w (after w 0 [EvScandir top]) [EvScandir top])
      as Hkeys0 by by apply (keys_announced_same E self).
    cbn [yields flat_map]. unfold yield_skeleton at 1. cbn [fst snd].
    destruct Hdirs as [-> | ->]; cbv beta iota.
    + exists None, w1, ([EvScandir top] ++ evs1).
      split; [done |].
      split; [rewrite Htrace1; cbn [trace after]; by rewrite <- app_assoc |].
      split.
      { destruct Hfar1 as (rest & -> & _). rewrite skeleton_app.
        eapply so_far_raised. cbn [skeleton List.filter is_structural app].
        rewrite <- app_assoc. reflexivity. }
      split; [by apply accounted_app |].
      by eapply (keys_announced_trans E self).
    + destruct (walk_children_any top
                  (List.filter (fun d => kept E self (posixpath.join2 top d))
                               (dir_names entries))
                  entries w1 Htop IH)
        as (r2 & w2 & evs2 & Hrun2 & Htrace2 & Hfar2 & Hacc2 & Hkeys2).
      { intros e Hin Hdir. by apply (kept_in_dirs E self). }
      exists r2, w2, ([EvScandir top] ++ evs1 ++ evs2).
      split; [exact Hrun2 |].
      split.
      { rewrite Htrace2, Htrace1. cbn [trace after]. by rewrite <- !app_assoc. }
      split.
      { rewrite !skeleton_app.
        change (skeleton [EvScandir top]) with [EvScandir top].
        cbn [app]. 
        destruct Hfar1 as (rest1 & Hfull1 & Hrest1).
        rewrite (Hrest1 ltac:(done)), app_nil_r in Hfull1. rewrite Hfull1.
        destruct Hfar2 as (rest2 & -> & Hrest2).
        exists rest2. split; [| done].
        cbn [app]. by rewrite <- app_assoc. }
      split; [apply accounted_app; [done | by apply accounted_app] |].
      eapply (keys_announced_trans E self); [exact Hkeys0 |].
      by eapply (keys_announced_trans E self).
Qed.

(** The run of [process_directory], however it ends; it returns when
    [time.sleep] accepts the delay. *)
Lemma run_any (fs : fsnode) (w : world) :
  root_dir self <> [] ->
  exists r w' evs,
    process_directory E self fs w = (r, w')
    /\ trace w' = trace w ++ evs
    /\ so_far r
         (flat_map (yield_skeleton E self) (yields E self (root_dir self) fs))
         (skeleton evs)
    /\ accounted evs
    /\ keys_announced E self w w' evs
    /\ (delay_accepted E self -> r = Some tt).
Proof.
  intros Hroot.
  destruct (walk_any_holds fs (root_dir self) w Hroot)
    as (r & w' & evs & Hrun & Htrace & Hfar & Hacc & Hkeys).
  rewrite <- (process_directory_walk E self fs Hroot) in Hrun.
  exists r, w', evs. repeat (split; [done |]).
  intros Hdelay.
  destruct (walk_effects E self Hdelay fs (root_dir self) w Hroot)
    as (w2 & evs2 & Hrun2 & _).
  rewrite <- (process_directory_walk E self fs Hroot), Hrun in Hrun2.
  by injection Hrun2.
Qed.

Lemma so_far_In {A} (r : option A) (full part : list event) (e : event) :
  so_far r full part -> In e part -> In e full.
Proof. intros (rest & -> & _) Hin. apply in_or_app. by left. Qed.

Lemma so_far_returned {A} (r : option A) (full part : list event) :
  so_far r full part -> r <> None -> full = part.
Proof. intros (rest & -> & Hrest) Hr. by rewrite (Hrest Hr), app_nil_r. Qed.

(** C8. Each time the loop over the files of a directory comes to a file,
    whatever happens next, the file is selected exactly when it is not
    ignored and its extension, lower-cased, is in the allow-list; a file
    that is ignored or has no allowed extension leaves the world as it
    was, whatever its content.  In a run from a non-empty root, however
    it ends: the directories listed are first components of the yields
    of the walk, the files selected are files of yielded directories that
    pass that test, a file is opened only when it is selected, and every
    event about a path is the listing of a directory or is about a
    selected file.  When the run returns, which it does when [time.sleep]
    accepts the delay, every yielded directory is listed and every file
    of a yielded directory that passes the test is selected. *)
Theorem candidate_selection (fs : fsnode) (w : world) :
  root_dir self <> [] ->
  (forall top file w0,
     posixpath.join2 top file <> [] ->
     exists r0 w1 evs0,
       process_file E self top file w0 = (r0, w1)
       /\ trace w1 = trace w0 ++ evs0
       /\ forall file_path,
            In (EvLogProcessing file_path) evs0
            <-> file_path = posixpath.join2 top file
                /\ _should_ignore E self file_path = Some false
                /\ exists ext, In ext text_extensions
                               /\ lower E (pathlib.suffix file_path) = ext)
  /\ (forall top file ignored w0,
        _should_ignore E self (posixpath.join2 top file) = Some ignored ->
        ignored = true
        \/ ~ In (lower E (pathlib.suffix (posixpath.join2 top file)))
                text_extensions ->
        process_file E self top file w0 = (Some tt, w0))
  /\ exists r w' evs,
       process_directory E self fs w = (r, w')
       /\ trace w' = trace w ++ evs
       /\ (forall top,
             In (EvScandir top) evs ->
             exists dirs files,
               In (top, dirs, files) (yields E self (root_dir self) fs))
       /\ (forall file_path,
             In (EvLogProcessing file_path) evs ->
             exists top dirs files file,
               In (top, dirs, files) (yields E self (root_dir self) fs)
               /\ In file files
               /\ file_path = posixpath.join2 top file
               /\ _should_ignore E self file_path = Some false
               /\ exists ext, In ext text_extensions
                              /\ lower E (pathlib.suffix file_path) = ext)
       /\ (forall file_path,
             In (EvOpen file_path) evs -> In (EvLogProcessing file_path) evs)
       /\ (forall e p, In e evs -> touched e = Some p ->
             e = EvScandir p \/ In (EvLogProcessing p) evs)
       /\ (r = Some tt ->
           (forall top dirs files,
              In (top, dirs, files) (yields E self (root_dir self) fs) ->
              In (EvScandir top) evs)
           /\ (forall top dirs files file,
                 In (top, dirs, files) (yields E self (root_dir self) fs) ->
                 In file files ->
                 _should_ignore E self (posixpath.join2 top file)
                 = Some false ->
                 In (lower E (pathlib.suffix (posixpath.join2 top file)))
                    text_extensions ->
                 In (EvLogProcessing (posixpath.join2 top file)) evs))
       /\ (delay_accepted E self -> r = Some tt).
Proof.
  intros Hroot. split; [| split].
  - intros top file w0 Hne.
    destruct (process_file_any top file w0 Hne)
      as (r0 & w1 & evs0 & Hrun & Htrace & Hskel & _).
    exists r0, w1, evs0. split; [done |]. split; [done |].
    intros file_path.
    rewrite (in_skeleton (EvLogProcessing file_path)) by done.
    rewrite Hskel, in_map_iff. split.
    + intros (x & [= <-] & [[<- | []] Hc]%filter_In).
      split; [done |]. by apply (candidate_spec E self).
    + intros (-> & Hc). exists (posixpath.join2 top file). split; [done |].
      apply filter_In. split; [by left |]. by apply (candidate_spec E self).
  - intros top file ignored w0 Hign Hno.
    apply (process_file_not_candidate E self top file ignored w0 Hign).
    destruct Hno as [-> | Hno]; [done |].
    apply andb_false_iff. right. unfold is_text_file.
    apply bool_decide_eq_false_2. by rewrite list_elem_of_In.
  - destruct (run_any fs w Hroot)
      as (r & w' & evs & Hrun & Htrace & Hfar & Hacc & _ & Hreturns).
    exists r, w', evs. split; [done |]. split; [done |].
    assert (forall e p, In e evs -> touched e = Some p ->
              e = EvScandir p \/ In (EvLogProcessing p) evs) as Htouched.
    { intros e p Hin Hp. unfold accounted in Hacc.
      rewrite List.Forall_forall in Hacc. by apply (Hacc e). }
    split; [| split; [| split; [| split; [exact Htouched | split]]]].
    + intros top Hin. apply (in_skeleton (EvScandir top)) in Hin; [| done].
      apply (so_far_In _ _ _ _ Hfar) in Hin.
      by apply (listed_in_yields E self) in Hin.
    + intros file_path Hin.
      apply (in_skeleton (EvLogProcessing file_path)) in Hin; [| done].
      apply (so_far_In _ _ _ _ Hfar) in Hin.
      apply (selected_in_yields E self) in Hin
        as (top & dirs & files & file & Hy & Hfile & Hp & Hc).
      apply (candidate_spec E self) in Hc. by exists top, dirs, files, file.
    + intros file_path Hin.
      by destruct (Htouched _ file_path Hin eq_refl) as [Hdir | Hsel].
    + intros ->. pose proof (so_far_returned _ _ _ Hfar ltac:(done)) as Hall.
      split.
      * intros top dirs files Hy.
        apply (in_skeleton (EvScandir top)); [done |]. rewrite <- Hall.
        apply (listed_in_yields E self). eauto.
      * intros top dirs files file Hy Hfile Hign Hext.
        apply (in_skeleton (EvLogProcessing (posixpath.join2 top file)));
          [done |].
        rewrite <- Hall. apply (selected_in_yields E self).
        exists top, dirs, files, file. split; [done |]. split; [done |].
        split; [done |]. apply (candidate_spec E self). eauto.
    + exact Hreturns.
Qed.

Lemma plain_names_entry (name : str) (entries : list fsnode) (e : fsnode) :
  plain_names (FsDir name entries) = true -> In e entries ->
  plain_name (fs_name e) = true /\ plain_names e = true.
Proof.
  cbn [plain_names]. rewrite forallb_forall. intros Hall Hin.
  by apply Hall, andb_true_iff in Hin.
Qed.

Lemma reachable_plain_segs (top p : str) (node n : fsnode) :
  reachable E self top node p n ->
  plain_names node = true ->
  plain_names n = true
  /\ exists segs,
       Forall (fun s => plain_name s = true) segs
       /\ p = posixpath.join top segs
       /\ forall front rest, front <> [] -> segs = front ++ rest ->
            _should_ignore E self (posixpath.join top front) = Some false.
Proof.
  induction 1 as [top name entries
                 | top name entries e p n He Hdir Hk Hreach IH]; intros Hplain.
  - split; [done |]. exists []. split; [constructor |]. split; [done |].
    intros front rest Hne Heq. by destruct front.
  - destruct (plain_names_entry _ _ _ Hplain He) as [Hname Hplaine].
    destruct (IH Hplaine) as (Hplainn & segs & Hsegs & -> & Hkept).
    split; [done |]. exists (fs_name e :: segs).
    split; [by constructor |]. split; [done |].
    intros front rest Hne Heq. destruct front as [|s front]; [done |].
    injection Heq as <- ->. destruct front as [|s2 front]; [done |].
    apply (Hkept (s2 :: front) rest); done.
Qed.

Lemma join_join (root : str) (a b : list str) :
  posixpath.join (posixpath.join root a) b = posixpath.join root (a ++ b).
Proof. unfold posixpath.join. by rewrite fold_left_app. Qed.

(** The key of a selected file is its names below the root, joined, and no
    directory on its way is ignored. *)
Lemma selected_key (fs : fsnode) (p : str) :
  posixpath.isabs (getcwd E) = true ->
  root_dir self <> [] ->
  plain_names fs = true ->
  In (EvLogProcessing p)
     (flat_map (yield_skeleton E self) (yields E self (root_dir self) fs)) ->
  exists segs,
    segs <> []
    /\ Forall (fun s => plain_name s = true) segs
    /\ posixpath.relpath (getcwd E) p (root_dir self)
       = Some (Py.join posixpath.sep segs)
    /\ forall front rest, front <> [] -> segs = front ++ rest ->
         _should_ignore E self (posixpath.join (root_dir self) front)
         = Some false.
Proof.
  intros Hcwd Hroot Hplain Hin.
  apply (selected_in_yields E self) in Hin
    as (top & dirs & files & file & Hy & Hfile & -> & Hc).
  destruct (yields_reachable E self fs _ _ _ _ Hy)
    as (name & entries & Hreach & ->).
  destruct (reachable_plain_segs _ _ _ _ Hreach Hplain)
    as (Hplainn & segs & Hsegs & -> & Hkept).
  apply in_file_names_file in Hfile.
  destruct (plain_names_entry _ _ _ Hplainn Hfile) as [Hname _].
  cbn [fs_name] in Hname.
  assert (Forall (fun s => plain_name s = true) (segs ++ [file])) as Hall.
  { apply Forall_app. split; [done |]. by constructor. }
  exists (segs ++ [file]). split; [by destruct segs |]. split; [done |].
  split.
  { rewrite <- join_snoc. apply relpath_join; try done. by destruct segs. }
  intros front rest Hne Heq.
  destruct (snoc_split _ _ _ _ (eq_sym Heq)) as [[r ->] | ->].
  - by apply (Hkept front r).
  - rewrite join_snoc. apply andb_true_iff in Hc as [Hk _].
    by apply (kept_true E self).
Qed.

(** C5. In a run from a non-empty root over well-formed names, however it
    ends: every directory listed is reached from the root through
    directories that are not ignored; and when a directory so reached
    holds a directory that an ignore rule matches, no event of the run is
    about that directory or any path under it (it is not listed, and
    nothing in it is selected, opened or sent), every new entry of
    [summaries] is keyed by the relative path of a file that was selected,
    which is not under it, and (the working directory being absolute and
    the names plain) no new entry is keyed by the relative path of that
    directory or of anything below it.  When the run returns, which it
    does when [time.sleep] accepts the delay, every directory so reached
    is listed. *)
Theorem ignored_directories_pruned (fs : fsnode) (w : world) :
  root_dir self <> [] ->
  wf_names fs = true ->
  exists r w' evs,
    process_directory E self fs w = (r, w')
    /\ trace w' = trace w ++ evs
    /\ (forall p,
          In (EvScandir p) evs ->
          exists name entries,
            reachable E self (root_dir self) fs p (FsDir name entries))
    /\ (r = Some tt ->
        forall p name entries,
          reachable E self (root_dir self) fs p (FsDir name entries) ->
          In (EvScandir p) evs)
    /\ (delay_accepted E self -> r = Some tt)
    /\ (forall top name entries d,
          reachable E self (root_dir self) fs top (FsDir name entries) ->
          In d (dir_names entries) ->
          _should_ignore E self (posixpath.join2 top d) = Some true ->
          (forall e p, In e evs -> touched e = Some p ->
                       ~ under (posixpath.join2 top d) p)
          /\ (forall kv, In kv (summaries w') ->
                In kv (summaries w)
                \/ exists p,
                     In (EvLogProcessing p) evs
                     /\ ~ under (posixpath.join2 top d) p
                     /\ posixpath.relpath (getcwd E) p (root_dir self)
                        = Some (fst kv))
          /\ (posixpath.isabs (getcwd E) = true ->
              plain_names fs = true ->
              forall kv more,
                In kv (summaries w') -> ~ In kv (summaries w) ->
                Forall (fun s => plain_name s = true) more ->
                posixpath.relpath (getcwd E)
                  (posixpath.join (posixpath.join2 top d) more)
                  (root_dir self)
                <> Some (fst kv))).
Proof.
  intros Hroot Hwf.
  destruct (run_any fs w Hroot)
    as (r & w' & evs & Hrun & Htrace & Hfar & Hacc & Hkeys & Hreturns).
  exists r, w', evs. split; [exact Hrun |]. split; [exact Htrace |].
  assert (forall p, In (EvScandir p) evs ->
            exists dirs files,
              In (p, dirs, files) (yields E self (root_dir self) fs))
    as Hlisted.
  { intros p Hin. apply (in_skeleton (EvScandir p)) in Hin; [| done].
    apply (so_far_In _ _ _ _ Hfar) in Hin.
    by apply (listed_in_yields E self) in Hin. }
  assert (forall p, In (EvLogProcessing p) evs ->
            In (EvLogProcessing p)
               (flat_map (yield_skeleton E self)
                         (yields E self (root_dir self) fs))) as Hfull.
  { intros p Hin. apply (in_skeleton (EvLogProcessing p)) in Hin; [| done].
    by apply (so_far_In _ _ _ _ Hfar) in Hin. }
  assert (forall p, In (EvLogProcessing p) evs -> clean E self p) as Hselected.
  { intros p Hin. apply Hfull in Hin.
    apply (selected_in_yields E self) in Hin
      as (top & dirs & files & file & Hy & Hfile & -> & Hc).
    by eapply (selected_clean E self). }
  assert (forall e p, In e evs -> touched e = Some p -> clean E self p)
    as Hclean.
  { intros e p Hin Hp. unfold accounted in Hacc.
    rewrite List.Forall_forall in Hacc.
    destruct (Hacc e Hin p Hp) as [-> | Hsel]; [| by apply Hselected].
    apply Hlisted in Hin as (dirs & files & Hy).
    by eapply (listed_clean E self). }
  split.
  { intros p Hin. apply Hlisted in Hin as (dirs & files & Hy).
    destruct (yields_reachable E self fs _ _ _ _ Hy)
      as (name & entries & Hreach & _).
    eauto. }
  split.
  { intros -> p name entries Hreach.
    destruct (reachable_yields E self _ _ _ _ Hreach)
      as (name' & entries' & _ & Hy).
    apply (in_skeleton (EvScandir p)); [done |].
    rewrite <- (so_far_returned _ _ _ Hfar ltac:(done)).
    apply (listed_in_yields E self). eauto. }
  split; [exact Hreturns |].
  intros top name entries d Hreach Hd Hign.
  destruct (reachable_segs E self _ _ _ _ Hreach Hwf)
    as (Hwfn & segs & H1 & H2 & H3).
  assert (clean E self top) as Htop by (by exists segs).
  pose proof Hd as (e & He & _ & <-)%in_dir_names.
  destruct (wf_names_entry _ _ _ Hwfn He) as [Hname _].
  split; [| split].
  - intros ev p Hin Hp. apply (clean_not_under E self top); eauto.
  - intros kv Hin. destruct (Hkeys kv Hin) as [Hold | (p & Hp & Hrel)].
    + by left.
    + right. exists p. split; [done |]. split; [| done].
      apply (clean_not_under E self top); eauto.
  - intros Hcwd Hplain kv more Hin Hnew Hmore Hrel.
    destruct (Hkeys kv Hin) as [Hold | (p & Hp & Hkey)]; [done |].
    destruct (selected_key fs p Hcwd Hroot Hplain (Hfull p Hp))
      as (segs_p & Hne & Hsegs_p & Hkey' & Hkept).
    rewrite Hkey' in Hkey. injection Hkey as Hkey.
    destruct (reachable_plain_segs _ _ _ _ Hreach Hplain)
      as (Hplainn & segs_t & Hsegs_t & Htop' & _).
    destruct (plain_names_entry _ _ _ Hplainn He) as [Hplaind _].
    assert (Forall (fun s => plain_name s = true)
                   (segs_t ++ fs_name e :: more)) as Hall.
    { apply Forall_app. split; [done |]. by constructor. }
    rewrite Htop', <- join_snoc, join_join, <- app_assoc in Hrel.
    cbn [app] in Hrel.
    rewrite relpath_join in Hrel; [| done | done | by destruct segs_t | done].
    injection Hrel as Hrel. rewrite <- Hkey in Hrel.
    assert (segs_p = segs_t ++ fs_name e :: more) as Heq.
    { rewrite <- (split_join SLASH segs_p);
        [| done | by apply wf_names_no_sep, plain_wf].
      rewrite <- (split_join SLASH (segs_t ++ fs_name e :: more));
        [| by destruct segs_t | by apply wf_names_no_sep, plain_wf].
      unfold posixpath.sep in Hrel. by rewrite Hrel. }
    specialize (Hkept (segs_t ++ [fs_name e]) more).
    rewrite join_snoc, <- Htop', Hign in Hkept.
    assert (Some true = Some false) as Habs; [| done].
    apply Hkept; [by destruct segs_t |].
    by rewrite Heq, <- app_assoc.
Qed.

(** X16. The walk is top-down and in listing order.  However a run from a
    non-empty root ends, its listings and selections, in the order in
    which they happen, are the first of those of the yields of [os.walk]
    taken one after the other, the root first and each directory before
    the directories it keeps: for each yield the directory is listed,
    then its candidate files are selected in the order of the listing,
    before anything happens in a directory below.  When the run returns,
    which it does when [time.sleep] accepts the delay, they are all of
    them. *)
Theorem walk_order (fs : fsnode) (w : world) :
  root_dir self <> [] ->
  exists r w' evs rest,
    process_directory E self fs w = (r, w')
    /\ trace w' = trace w ++ evs
    /\ flat_map (yield_skeleton E self) (yields E self (root_dir self) fs)
       = skeleton evs ++ rest
    /\ (r = Some tt -> rest = [])
    /\ (delay_accepted E self -> r = Some tt).
Proof.
  intros Hroot.
  destruct (run_any fs w Hroot)
    as (r & w' & evs & Hrun & Htrace & (rest & Hfull & Hrest) & _ & _ & Hreturns).
  exists r, w', evs, rest. repeat (split; [done |]).
  split; [| done]. intros ->. by apply Hrest.
Qed.

End AnyOutcome.

(** ** The further properties at concrete inputs *)

Lemma should_ignore_monotone_witness :
  CodeSummarizer._should_ignore Demo.env0 Demo.self0 (lit "./x.pyc")
  = Some true
  /\ CodeSummarizer._should_ignore Demo.env0
       {| CodeSummarizer.root_dir := lit ".";
          CodeSummarizer.max_retries := 3;
          CodeSummarizer.retry_delay := 5;
          CodeSummarizer.ignore_patterns :=
            CodeSummarizer.ignore_patterns Demo.self0 ∪ {[ lit "docs/" ]} |}
       (lit "./x.pyc")
     = Some true.
Proof.
  assert (CodeSummarizer._should_ignore Demo.env0 Demo.self0 (lit "./x.pyc")
          = Some true) as Hign by (vm_compute; reflexivity).
  split; [exact Hign |].
  apply (should_ignore_monotone Demo.env0 Demo.self0); [reflexivity | | exact Hign].
  apply union_subseteq_l.
Defined.

Lemma separator_rule_stops_the_run_witness :
  CodeSummarizer.process_directory Demo.env0
    {| CodeSummarizer.root_dir := lit ".";
       CodeSummarizer.max_retries := 3;
       CodeSummarizer.retry_delay := 5;
       CodeSummarizer.ignore_patterns := {[ [SLASH] ]} |}
    (CodeSummarizer.FsDir (lit ".") [CodeSummarizer.FsFile (lit "a.py")])
    CodeSummarizer.initial_world
  = (Some tt,
     after CodeSummarizer.initial_world 0 [CodeSummarizer.EvScandir (lit ".")]).
Proof.
  apply (separator_rule_stops_the_run Demo.env0
           {| CodeSummarizer.root_dir := lit ".";
              CodeSummarizer.max_retries := 3;
              CodeSummarizer.retry_delay := 5;
              CodeSummarizer.ignore_patterns := {[ [SLASH] ]} |}).
  - cbn [CodeSummarizer.ignore_patterns]. set_solver.
  - discriminate.
Defined.

Lemma is_text_file_last_extension_witness :
  wf_name (lit "x.tar.PY") = true
  /\ CodeSummarizer.is_text_file Demo.env0
       (posixpath.join2 (lit "src") (lit "x.tar.PY")) = true
  /\ CodeSummarizer.is_text_file Demo.env0
       (posixpath.join2 (lit "src") (lit ".gitignore")) = false.
Proof.
  split; [reflexivity |]. split.
  - rewrite (proj1 (is_text_file_last_extension Demo.env0 (lit "src")
                      (lit "x.tar.PY") eq_refl ltac:(discriminate))
               (lit "x.tar") (lit "PY") eq_refl ltac:(discriminate)
               ltac:(discriminate)).
    + vm_compute. reflexivity.
    + vm_compute. intros [H | [H | []]]; discriminate.
  - apply (proj2 (is_text_file_last_extension Demo.env0 (lit "src")
                    (lit ".gitignore") eq_refl ltac:(discriminate))).
    + reflexivity.
    + right. left. exists (lit "gitignore"). split; [reflexivity |].
      vm_compute. intros H.
      repeat (destruct H as [H | H]; [discriminate |]). exact H.
Defined.

Lemma get_code_summary_first_success_witness :
  delay_accepted Demo.env0 Demo.self0
  /\ exists evs,
       CodeSummarizer.get_code_summary Demo.env0 Demo.self0 (lit "pass")
         (lit "./a.py") CodeSummarizer.initial_world
       = (Some (Some (lit "ok")), after CodeSummarizer.initial_world 3 evs)
       /\ List.filter is_request_or_sleep evs
          = [CodeSummarizer.EvRequest (lit "./a.py") (lit "pass");
             CodeSummarizer.EvSleep 5;
             CodeSummarizer.EvRequest (lit "./a.py") (lit "pass");
             CodeSummarizer.EvSleep 5;
             CodeSummarizer.EvRequest (lit "./a.py") (lit "pass")].
Proof.
  assert (delay_accepted Demo.env0 Demo.self0) as Hdelay
    by (split; [vm_compute; discriminate | reflexivity]).
  split; [exact Hdelay |].
  apply (get_code_summary_first_success Demo.env0 Demo.self0
           (lit "pass") (lit "./a.py") (lit "ok") 2
           CodeSummarizer.initial_world).
  - exact Hdelay.
  - reflexivity.
  - intros j Hj. destruct j as [|[|j]]; [reflexivity | reflexivity | lia].
  - reflexivity.
  - discriminate.
Defined.

Lemma negative_delay_aborts_witness :
  exists evs,
    CodeSummarizer.process_file Demo.env0
      {| CodeSummarizer.root_dir := lit ".";
         CodeSummarizer.max_retries := 3;
         CodeSummarizer.retry_delay := -1;
         CodeSummarizer.ignore_patterns := ∅ |}
      (lit ".") (lit "a.py") CodeSummarizer.initial_world
    = (None,
       after CodeSummarizer.initial_world 1
         ([CodeSummarizer.EvLogProcessing (lit "./a.py");
           CodeSummarizer.EvOpen (lit "./a.py")] ++ evs))
    /\ List.filter is_request_or_sleep evs
       = [CodeSummarizer.EvRequest (lit "./a.py") (lit "pass")].
Proof.
  destruct (negative_delay_aborts Demo.env0
              {| CodeSummarizer.root_dir := lit ".";
                 CodeSummarizer.max_retries := 3;
                 CodeSummarizer.retry_delay := -1;
                 CodeSummarizer.ignore_patterns := ∅ |}
              (lit ".") (lit "a.py") (lit "pass") []
              CodeSummarizer.initial_world)
    as (evs & _ & Hfilter & Hfile & _).
  - reflexivity.
  - reflexivity.
  - vm_compute. reflexivity.
  - vm_compute. reflexivity.
  - reflexivity.
  - discriminate.
  - reflexivity.
  - exists evs. split; [exact Hfile | exact Hfilter].
Defined.

Lemma file_summary_recorded_witness :
  delay_accepted Demo.env0 Demo.self0
  /\ exists rel w',
       CodeSummarizer.process_file Demo.env0 Demo.self0 (lit ".") (lit "a.py")
         CodeSummarizer.initial_world = (Some tt, w')
       /\ CodeSummarizer.summaries w'
          = CodeSummarizer.dict_set [] rel (lit "ok")
       /\ CodeSummarizer.api_calls w' = 3.
Proof.
  assert (delay_accepted Demo.env0 Demo.self0) as Hdelay
    by (split; [vm_compute; discriminate | reflexivity]).
  split; [exact Hdelay |].
  destruct (file_summary_recorded Demo.env0 Demo.self0
              (lit ".") (lit "a.py") (lit "pass") (lit "ok") 2
              CodeSummarizer.initial_world)
    as (rel & w' & _ & Hfile & Hsum & _ & Hcalls).
  - exact Hdelay.
  - vm_compute. reflexivity.
  - vm_compute. reflexivity.
  - reflexivity.
  - discriminate.
  - reflexivity.
  - intros j Hj. destruct j as [|[|j]]; [reflexivity | reflexivity | lia].
  - reflexivity.
  - discriminate.
  - exists rel, w'. split; [exact Hfile |]. split; [exact Hsum | exact Hcalls].
Defined.

Lemma built_tree_lookup_witness :
  CodeSummarizer.generate_tree_structure
    [(lit "a/b", lit "x"); (lit "c", lit "y")]
  = Some [(lit "a", CodeSummarizer.Node
                      [(lit "b", CodeSummarizer.Leaf (lit "x"))]);
          (lit "c", CodeSummarizer.Leaf (lit "y"))]
  /\ exists front k back,
       [(lit "a/b", lit "x"); (lit "c", lit "y")]
       = front ++ (k, lit "x") :: back
       /\ [lit "a"; lit "b"] = split SLASH k.
Proof.
  split; [reflexivity |].
  destruct (proj1 (built_tree_lookup
                     [(lit "a/b", lit "x"); (lit "c", lit "y")]
                     [(lit "a", CodeSummarizer.Node
                                  [(lit "b", CodeSummarizer.Leaf (lit "x"))]);
                      (lit "c", CodeSummarizer.Leaf (lit "y"))]
                     eq_refl [lit "a"; lit "b"] (lit "x")) eq_refl)
    as (front & k & back & Hitems & Hpath & _).
  exists front, k, back. split; [exact Hitems | exact Hpath].
Defined.

Lemma walk_output_builds_witness :
  delay_accepted Demo.env0 Demo.self0
  /\ plain_names Demo.fs0 = true
  /\ distinct_names Demo.fs0 = true
  /\ exists w' root,
       CodeSummarizer.process_directory Demo.env0 Demo.self0 Demo.fs0
         CodeSummarizer.initial_world = (Some tt, w')
       /\ CodeSummarizer.generate_tree_structure (CodeSummarizer.summaries w')
          = Some root
       /\ Permutation (reflatten root) (CodeSummarizer.summaries w').
Proof.
  assert (delay_accepted Demo.env0 Demo.self0) as Hdelay
    by (split; [vm_compute; discriminate | reflexivity]).
  assert (plain_names Demo.fs0 = true) as Hplain by (vm_compute; reflexivity).
  assert (distinct_names Demo.fs0 = true) as Hdistinct
    by (vm_compute; reflexivity).
  split; [exact Hdelay |]. split; [exact Hplain |]. split; [exact Hdistinct |].
  destruct (walk_output_builds Demo.env0 Demo.self0 Demo.fs0)
    as (w' & root & Hrun & _ & _ & Hgen & Hperm).
  - exact Hdelay.
  - reflexivity.
  - discriminate.
  - exact Hplain.
  - exact Hdistinct.
  - exists w', root. split; [exact Hrun |]. split; [exact Hgen | exact Hperm].
Defined.

Lemma rendering_is_lines_witness :
  keys_one_line (CodeSummarizer.Node DemoVisualizer.data0) = true
  /\ exists ls,
       length ls = 3
       /\ TreeVisualizer._visualize_tree_recursive
            (CodeSummarizer.Node DemoVisualizer.data0) [] []
          = as_lines [] ls.
Proof.
  split; [reflexivity |].
  destruct (rendering_is_lines (CodeSummarizer.Node DemoVisualizer.data0) [] [])
    as (ls & Hlen & _ & Hrun).
  - reflexivity.
  - intros [].
  - exists ls. split; [exact Hlen | exact Hrun].
Defined.

Lemma summarize_then_visualize_witness :
  exists files',
    Programs.summarizer_main Demo.env0
      {| Programs.json_chunks := fun _ => [lit "tr"; lit "ee"];
         Programs.cannot_write := fun _ => false |}
      3 5 (Some [lit "*.pyc"; lit "node_modules/"]) Demo.fs0 ∅
    = (Some tt, files')
    /\ TreeVisualizer.files
         (Programs.visualizer_main
            {| TreeVisualizer.json_loads := fun _ =>
                 inr [(lit "a.py", CodeSummarizer.Leaf (lit "ok"));
                      (lit "sub",
                       CodeSummarizer.Node
                         [(lit "b.PY", CodeSummarizer.Leaf (lit "ok"))])];
               TreeVisualizer.read_error := fun path => path;
               TreeVisualizer.write_error := fun _ => None;
               TreeVisualizer.encode_error := fun text => text |}
            {| TreeVisualizer.files := files'; TreeVisualizer.stdout := [] |})
       !! Programs.TREE_JSON
       = Some (lit "tree").
Proof.
  destruct (summarize_then_visualize Demo.env0
              {| Programs.json_chunks := fun _ => [lit "tr"; lit "ee"];
                 Programs.cannot_write := fun _ => false |}
              {| TreeVisualizer.json_loads := fun _ =>
                   inr [(lit "a.py", CodeSummarizer.Leaf (lit "ok"));
                        (lit "sub",
                         CodeSummarizer.Node
                           [(lit "b.PY", CodeSummarizer.Leaf (lit "ok"))])];
                 TreeVisualizer.read_error := fun path => path;
                 TreeVisualizer.write_error := fun _ => None;
               TreeVisualizer.encode_error := fun text => text |}
              3 5 (Some [lit "*.pyc"; lit "node_modules/"]) Demo.fs0 ∅ [])
    as (w' & root & files' & _ & _ & Hmain & _ & Hjson & _).
  - split; [discriminate | reflexivity].
  - reflexivity.
  - vm_compute. reflexivity.
  - vm_compute. reflexivity.
  - reflexivity.
  - reflexivity.
  - intros root _. repeat constructor.
  - intros w' root Hrun Hgen. vm_compute in Hrun. injection Hrun as <-.
    vm_compute in Hgen. injection Hgen as <-. split; reflexivity.
  - exists files'. split; [exact Hmain | exact Hjson].
Defined.


Lemma candidate_selection_witness :
  CodeSummarizer.root_dir Demo.self0 <> []
  /\ delay_accepted Demo.env0 Demo.self0
  /\ exists w' evs,
       CodeSummarizer.process_directory Demo.env0 Demo.self0 Demo.fs0
         CodeSummarizer.initial_world = (Some tt, w')
       /\ CodeSummarizer.trace w' = evs
       /\ In (CodeSummarizer.EvLogProcessing (lit "./sub/b.PY")) evs.
Proof.
  assert (CodeSummarizer.root_dir Demo.self0 <> []) as Hroot by discriminate.
  assert (delay_accepted Demo.env0 Demo.self0) as Hdelay
    by (split; [vm_compute; discriminate | reflexivity]).
  split; [exact Hroot |]. split; [exact Hdelay |].
  destruct (candidate_selection Demo.env0 Demo.self0 Demo.fs0
              CodeSummarizer.initial_world Hroot)
    as (_ & _ & r & w' & evs & Hrun & Htrace & _ & _ & _ & _ & Hall & Hret).
  rewrite (Hret Hdelay) in Hrun, Hall.
  exists w', evs. split; [exact Hrun |]. split; [exact Htrace |].
  apply (proj2 (Hall eq_refl) (lit "./sub")
           [] [lit "b.PY"; lit "c.pyc"] (lit "b.PY")).
  - vm_compute. auto.
  - left. reflexivity.
  - vm_compute. reflexivity.
  - vm_compute. auto 20.
Defined.

Lemma ignored_directories_pruned_witness :
  CodeSummarizer.root_dir Demo.self0 <> []
  /\ wf_names Demo.fs0 = true
  /\ exists r w' evs,
       CodeSummarizer.process_directory Demo.env0 Demo.self0 Demo.fs0
         CodeSummarizer.initial_world = (r, w')
       /\ CodeSummarizer.trace w' = evs
       /\ forall e p, In e evs -> touched e = Some p ->
                      ~ under (lit "./node_modules") p.
Proof.
  assert (CodeSummarizer.root_dir Demo.self0 <> []) as Hroot by discriminate.
  assert (wf_names Demo.fs0 = true) as Hwf by (vm_compute; reflexivity).
  split; [exact Hroot |]. split; [exact Hwf |].
  destruct (ignored_directories_pruned Demo.env0 Demo.self0 Demo.fs0
              CodeSummarizer.initial_world Hroot Hwf)
    as (r & w' & evs & Hrun & Htrace & _ & _ & _ & Hpruned).
  exists r, w', evs. split; [exact Hrun |]. split; [exact Htrace |].
  apply (Hpruned (lit ".") (lit ".")
           [ CodeSummarizer.FsFile (lit "a.py");
             CodeSummarizer.FsDir (lit "node_modules")
               [ CodeSummarizer.FsFile (lit "x.js") ];
             CodeSummarizer.FsFile (lit "README");
             CodeSummarizer.FsDir (lit "sub")
               [ CodeSummarizer.FsFile (lit "b.PY");
                 CodeSummarizer.FsFile (lit "c.pyc") ] ]
           (lit "node_modules")).
  - apply reach_here.
  - vm_compute. auto.
  - vm_compute. reflexivity.
Defined.

Lemma walk_order_witness :
  CodeSummarizer.root_dir Demo.self0 <> []
  /\ delay_accepted Demo.env0 Demo.self0
  /\ exists w' evs,
       CodeSummarizer.process_directory Demo.env0 Demo.self0 Demo.fs0
         CodeSummarizer.initial_world = (Some tt, w')
       /\ skeleton evs
          = [CodeSummarizer.EvScandir (lit ".");
             CodeSummarizer.EvLogProcessing (lit "./a.py");
             CodeSummarizer.EvScandir (lit "./sub");
             CodeSummarizer.EvLogProcessing (lit "./sub/b.PY")].
Proof.
  assert (CodeSummarizer.root_dir Demo.self0 <> []) as Hroot by discriminate.
  assert (delay_accepted Demo.env0 Demo.self0) as Hdelay
    by (split; [vm_compute; discriminate | reflexivity]).
  split; [exact Hroot |]. split; [exact Hdelay |].
  destruct (walk_order Demo.env0 Demo.self0 Demo.fs0
              CodeSummarizer.initial_world Hroot)
    as (r & w' & evs & rest & Hrun & _ & Hfull & Hrest & Hret).
  rewrite (Hret Hdelay) in Hrun.
  rewrite (Hrest (Hret Hdelay)), app_nil_r in Hfull.
  exists w', evs. split; [exact Hrun |]. rewrite <- Hfull.
  vm_compute. reflexivity.
Defined.

Lemma leaf_rendered_on_one_line_witness :
  ~ In LF (lit "  " ++ TreeVisualizer.CONNECTOR_MID ++ lit "k" ++ lit "    "
           ++ replace (strip (lit "line1" ++ [LF] ++ lit "line2" ++ [LF]))
                [LF] (lit " | ")).
Proof.
  destruct (leaf_rendered_on_one_line
              [(lit "a", CodeSummarizer.Leaf (lit "x"))]
              [(lit "z", CodeSummarizer.Node [])]
              (lit "k") (lit "line1" ++ [LF] ++ lit "line2" ++ [LF])
              [] (lit "  ")) as (_ & _ & Hline & _).
  apply Hline. split; vm_compute; intuition discriminate.
Defined.

